(** * Figma-to-HTML converter: layout inference of the parser and the layout engine

    A shallow embedding of [Parser] (containment regrouping, arrangement,
    gap, padding and alignment detection, layout-strategy selection, per-node
    error isolation) and of [LayoutEngine.generateLayoutCSS], with the
    properties stated about them; and of what stands next to them: the entry
    point [Parser.parse], the choice of the tag in [Transformer], the retry
    loop of [FigmaAPIClient], and the class names and the escaping of text of
    the generators.

    Conventions of the embedding.
    - A JavaScript number is an exact rational ([Q]); [Math.round] rounds
      half up, as in JavaScript.  Rounding error of binary floating point is
      not part of the model.
    - An optional field [f?: T] is an [option T]; an enum of string literals
      is an inductive type.
    - The in-place regrouping of [ParsedNode] objects is modelled on an
      explicit store of objects addressed by handles, so that two references
      to one object alias as they do in the program.
    - A string is a list of ASCII characters; [toLowerCase] and the
      character classes of the regular expressions are those of ASCII.
    - An awaited request is the outcome that its attempt has, and
      [Math.random] the value that it gives at the attempt. *)

From Stdlib Require Import QArith Qround Qabs Qpower Lqa ZArith Lia.
From Stdlib Require Import Ascii String DecimalString.
From stdpp Require Import gmap strings list fin_maps.

Set Warnings "-register-all".
Local Open Scope Q_scope.
Local Open Scope string_scope.

(** ** JavaScript numbers and strings *)

Module JS.

Definition ltb (a b : Q) : bool := negb (Qle_bool b a).
Definition leb (a b : Q) : bool := Qle_bool a b.
Definition gtb (a b : Q) : bool := ltb b a.
Definition geb (a b : Q) : bool := leb b a.

(** [Math.round]: the nearest integer, a tie going up. *)
Definition Math_round (a : Q) : Q := inject_Z (Qfloor (a + (1 # 2))).

(** [Math.round(a * 100) / 100]. *)
Definition round2 (a : Q) : Q := Math_round (a * 100) / 100.

Definition Math_abs (a : Q) : Q := Qabs a.
Definition Math_max (a b : Q) : Q := if ltb a b then b else a.
Definition Math_min (a b : Q) : Q := if ltb b a then b else a.

(** [v || 0] on an optional number: absent and [0] both give [0]. *)
Definition or0 (v : option Q) : Q := match v with Some a => a | None => 0 end.

(** Truthiness of an optional number: present and not zero. *)
Definition truthy_num (v : option Q) : bool :=
  match v with Some a => negb (Qeq_bool a 0) | None => false end.

(** Truthiness of an optional string: present and not empty. *)
Definition truthy_str (v : option string) : bool :=
  match v with Some EmptyString => false | Some _ => true | None => false end.

(** [String.prototype.toLowerCase] on the ASCII letters. *)
Definition lower_ascii (c : ascii) : ascii :=
  let n := nat_of_ascii c in
  if (Nat.leb 65 n && Nat.leb n 90)%bool then ascii_of_nat (n + 32) else c.

Fixpoint toLowerCase (s : string) : string :=
  match s with
  | EmptyString => EmptyString
  | String c s' => String (lower_ascii c) (toLowerCase s')
  end.

(** [hay.includes(needle)]. *)
Fixpoint includes (needle hay : string) : bool :=
  (String.prefix needle hay
   || match hay with
      | EmptyString => false
      | String _ hay' => includes needle hay'
      end)%bool.

(** [Array.prototype.sort] with the comparator [(a, b) => key a - key b]:
    ascending in the key, equal keys keeping their order (the sort is
    stable). *)
Section Sort.
Context {A : Type} (key : A -> Q).

Fixpoint insert_sorted (a : A) (l : list A) : list A :=
  match l with
  | [] => [a]
  | b :: l' => if leb (key a) (key b) then a :: b :: l' else b :: insert_sorted a l'
  end.

Fixpoint sort_by (l : list A) : list A :=
  match l with
  | [] => []
  | a :: l' => insert_sorted a (sort_by l')
  end.
End Sort.

End JS.

(** ** Data model ([types/figma.ts], [types/internal.ts]) *)

Record BoundingBox := mkBox { x : Q; y : Q; width : Q; height : Q }.

Inductive NodeType :=
| DOCUMENT | CANVAS | FRAME | GROUP | RECTANGLE | ELLIPSE | TEXT | VECTOR
| INSTANCE | COMPONENT.

Inductive LayoutMode := LM_NONE | LM_HORIZONTAL | LM_VERTICAL.

(** Of a fill, a stroke and an effect the parser reads the [visible] flag
    only; the other fields are carried along unread. *)
Record Fill := mkFill { fill_kind : string; fill_visible : option bool }.
Record Stroke := mkStroke { stroke_kind : string; stroke_visible : option bool }.
Record Effect := mkEffect { effect_kind : string; effect_visible : option bool }.

Record Constraints := mkConstraints { horizontal : string; vertical : string }.

(** The fields of a [FigmaNode] other than its children. *)
Record FigmaFields := mkFigmaFields {
  id : string;
  name : string;
  type : NodeType;
  absoluteBoundingBox : option BoundingBox;
  fills : option (list Fill);
  strokes : option (list Stroke);
  effects : option (list Effect);
  opacity : option Q;
  blendMode : option string;
  layoutMode : option LayoutMode;
  primaryAxisAlignItems : option string;
  counterAxisAlignItems : option string;
  paddingLeft : option Q;
  paddingRight : option Q;
  paddingTop : option Q;
  paddingBottom : option Q;
  itemSpacing : option Q;
  constraints : option Constraints;
  characters : option string;
  componentId : option string
}.

Inductive FigmaNode :=
| FNode (fields : FigmaFields) (children : option (list FigmaNode)).

Definition fields_of (n : FigmaNode) : FigmaFields := let 'FNode f _ := n in f.
Definition children_of (n : FigmaNode) : option (list FigmaNode) :=
  let 'FNode _ c := n in c.
Definition bbox_of (n : FigmaNode) : option BoundingBox :=
  absoluteBoundingBox (fields_of n).

Inductive LayoutStrategy := Absolute | Flexbox | Grid | Static.

Inductive FlexDirection := row | column.

Record Spacing := mkSpacing { top : Q; right : Q; bottom : Q; left : Q }.

Record Position := mkPosition { pos_x : Q; pos_y : Q }.

Record LayoutProperties := mkLayout {
  strategy : LayoutStrategy;
  position : option Position;
  l_width : option Q;
  l_height : option Q;
  flexDirection : option FlexDirection;
  gap : option Q;
  padding : option Spacing;
  alignItems : option string;
  justifyContent : option string;
  l_constraints : option Constraints
}.

Record StyleProperties := mkStyles {
  s_fills : list Fill;
  s_strokes : list Stroke;
  s_effects : list Effect;
  s_opacity : Q;
  s_blendMode : string
}.

(** The fields of a [ParsedNode] other than its children. *)
Record NodeData := mkNodeData {
  p_id : string;
  p_name : string;
  p_type : NodeType;
  bounds : BoundingBox;
  styles : StyleProperties;
  layout : LayoutProperties;
  textContent : option string;
  componentName : option string;
  componentType : option string
}.

(** A [ParsedNode] as a value. *)
Inductive ParsedNode :=
| PNode (data : NodeData) (children : list ParsedNode).

Definition data_of (n : ParsedNode) : NodeData := let 'PNode d _ := n in d.
Definition pchildren (n : ParsedNode) : list ParsedNode := let 'PNode _ c := n in c.

Inductive Arrangement := vertical_arr | horizontal_arr | complex_arr.

Definition eq_strategy (a b : LayoutStrategy) : bool :=
  match a, b with
  | Absolute, Absolute | Flexbox, Flexbox | Grid, Grid | Static, Static => true
  | _, _ => false
  end.

(** ** The parser ([Parser]) *)

Module Parser.
Import JS.

(** [children.filter(c => c.absoluteBoundingBox)], kept as the boxes: every
    later use of the filtered nodes reads [absoluteBoundingBox!] only. *)
Definition childrenWithBounds (children : list FigmaNode) : list BoundingBox :=
  omap bbox_of children.

(** The loop of [detectChildArrangement] over consecutive pairs of the
    sorted children, leaving at the first pair that overlaps by more than
    5px.  [start] and [size] are [y] and [height], or [x] and [width]. *)
Fixpoint no_overlap (start size : BoundingBox -> Q) (sorted : list BoundingBox) : bool :=
  match sorted with
  | current :: (next :: _) as rest =>
      if ltb (start next) (start current + size current - 5) then false
      else no_overlap start size rest
  | _ => true
  end.

Definition detectChildArrangement (children : list FigmaNode) : Arrangement :=
  let childrenToCheck := childrenWithBounds children in
  if (length childrenToCheck <? 2)%nat then complex_arr
  else
    let sortedByY := sort_by y childrenToCheck in
    if no_overlap y height sortedByY then vertical_arr
    else
      let sortedByX := sort_by x childrenToCheck in
      if no_overlap x width sortedByX then horizontal_arr
      else complex_arr.

(** [node.layoutMode && node.layoutMode !== 'NONE']. *)
Definition hasAutoLayout (f : FigmaFields) : bool :=
  match layoutMode f with
  | Some LM_HORIZONTAL | Some LM_VERTICAL => true
  | Some LM_NONE | None => false
  end.

(** [node.children && node.children.length > 0]. *)
Definition hasChildren (n : FigmaNode) : bool :=
  match children_of n with
  | Some (_ :: _) => true
  | _ => false
  end.

Definition childList (n : FigmaNode) : list FigmaNode :=
  default [] (children_of n).

Definition determineLayoutStrategy (node : FigmaNode) : LayoutStrategy :=
  if hasAutoLayout (fields_of node) then Flexbox
  else if (hasChildren node && bool_decide (is_Some (bbox_of node)))%bool then
    match detectChildArrangement (childList node) with
    | vertical_arr | horizontal_arr => Flexbox
    | complex_arr => Absolute
    end
  else Static.

(** *** Containment test of the regrouping *)

Definition isDecorativeLine (childBounds : BoundingBox) : bool :=
  (ltb (height childBounds) 10 && gtb (width childBounds) 20)%bool.

Definition isDecorativeContainer (child : NodeData) : bool :=
  (ltb (height (bounds child)) 30
   && includes "indicator" (toLowerCase (p_name child)))%bool.

Definition isDecorative (child : NodeData) : bool :=
  (isDecorativeLine (bounds child) || isDecorativeContainer child)%bool.

Definition isInsideX (tolerance : Q) (childBounds parentBounds : BoundingBox) : bool :=
  (geb (x childBounds) (x parentBounds - tolerance)
   && leb (x childBounds + width childBounds)
          (x parentBounds + width parentBounds + tolerance))%bool.

Definition isInsideY (tolerance : Q) (childBounds parentBounds : BoundingBox) : bool :=
  (geb (y childBounds) (y parentBounds - tolerance)
   && leb (y childBounds + height childBounds)
          (y parentBounds + height parentBounds + tolerance))%bool.

(** [parent.styles.fills && parent.styles.fills.length > 0]; the list holds
    the visible fills, see [extractStyles]. *)
Definition hasBackground (parent : NodeData) : bool :=
  match s_fills (styles parent) with [] => false | _ :: _ => true end.

Definition isSmaller (childBounds parentBounds : BoundingBox) : bool :=
  (ltb (width childBounds) (width parentBounds * (95 # 100))
   && ltb (height childBounds) (height parentBounds * (95 # 100)))%bool.

(** [bounds] is never absent on a [ParsedNode] ([parseNode] puts the zero box
    in its place), so the first test of the function, on absent bounds, is
    never taken. *)
Definition isVisuallyContained (child parent : NodeData) : bool :=
  let childBounds := bounds child in
  let parentBounds := bounds parent in
  let tolerance := if isDecorative child then 30 else 10 in
  let insideX := isInsideX tolerance childBounds parentBounds in
  let insideY := isInsideY tolerance childBounds parentBounds in
  if (isDecorative child && insideX && insideY)%bool then true
  else (insideX && insideY && hasBackground parent
        && isSmaller childBounds parentBounds)%bool.

(** *** Gap estimation *)

(** The gaps between consecutive sorted children, the negative ones left
    out. *)
Fixpoint consecutiveGaps (start size : BoundingBox -> Q) (sorted : list BoundingBox)
  : list Q :=
  match sorted with
  | current :: (next :: _) as rest =>
      let g := start next - (start current + size current) in
      (if geb g 0 then [g] else []) ++ consecutiveGaps start size rest
  | _ => []
  end.

Definition collectGaps (children : list FigmaNode) (arrangement : Arrangement) : list Q :=
  let boxed := childrenWithBounds children in
  match arrangement with
  | vertical_arr => consecutiveGaps y height (sort_by y boxed)
  | horizontal_arr => consecutiveGaps x width (sort_by x boxed)
  | complex_arr => []
  end.

(** [l.reduce((sum, g) => sum + g, 0)]. *)
Definition sum (l : list Q) : Q := fold_left Qplus l 0.

Definition lengthQ {A} (l : list A) : Q := inject_Z (Z.of_nat (length l)).

(** [sortedGaps[Math.floor(sortedGaps.length / 2)]]. *)
Definition medianOf (sortedGaps : list Q) : Q :=
  nth (length sortedGaps / 2) sortedGaps 0.

(** The part of [calculateChildGaps] that follows the collection of the
    gaps. *)
Definition averageGapOf (gaps : list Q) : Q :=
  match gaps with
  | [] => 0
  | [g] => round2 g
  | _ =>
      let sortedGaps := sort_by (fun g => g) gaps in
      let median := medianOf sortedGaps in
      let filteredGaps := List.filter (fun g => leb g (median * (25 # 10))) sortedGaps in
      let gapsToUse :=
        if geb (lengthQ filteredGaps) (lengthQ gaps * (1 # 2)) then filteredGaps else gaps in
      let averageGap := sum gapsToUse / lengthQ gapsToUse in
      let preciseGap := round2 averageGap in
      if ltb preciseGap 0 then 0
      else if gtb preciseGap 200 then 24
      else preciseGap
  end.

Definition calculateChildGaps (children : list FigmaNode) (arrangement : Arrangement) : Q :=
  if (length children <? 2)%nat then 0
  else averageGapOf (collectGaps children arrangement).

(** *** Padding estimation *)

(** [Math.max(0, Math.round(v * 100) / 100)]. *)
Definition pad (v : Q) : Q := Math_max 0 (round2 v).

(** The running minimum and maximum start at [Infinity] and [-Infinity];
    over a non-empty list that is the fold from the first box. *)
Definition calculatePadding (parent : FigmaNode) (children : list FigmaNode)
  : option Spacing :=
  match bbox_of parent, childrenWithBounds children with
  | Some parentBounds, b :: rest =>
      let minX := fold_left (fun m c => Math_min m (x c)) rest (x b) in
      let minY := fold_left (fun m c => Math_min m (y c)) rest (y b) in
      let maxX := fold_left (fun m c => Math_max m (x c + width c)) rest (x b + width b) in
      let maxY := fold_left (fun m c => Math_max m (y c + height c)) rest (y b + height b) in
      Some {| top := pad (minY - y parentBounds);
              right := pad ((x parentBounds + width parentBounds) - maxX);
              bottom := pad ((y parentBounds + height parentBounds) - maxY);
              left := pad (minX - x parentBounds) |}
  | _, _ => None
  end.

(** *** Alignment detection *)

Record Alignment := mkAlignment {
  a_justifyContent : option string;
  a_alignItems : option string
}.

Record Votes := mkVotes { centeredCount : nat; startCount : nat; endCount : nat }.

(** One turn of the counting loop.  [start] and [size] are [x] and [width]
    for a column, [y] and [height] for a row. *)
Definition countChild (start size : BoundingBox -> Q) (parentBounds : BoundingBox)
  (v : Votes) (b : BoundingBox) : Votes :=
  let parentCenter := start parentBounds + size parentBounds / 2 in
  let parentStart := start parentBounds in
  let parentEnd := start parentBounds + size parentBounds in
  let childCenter := start b + size b / 2 in
  let childStart := start b in
  let childEnd := start b + size b in
  if ltb (Math_abs (childCenter - parentCenter)) 2 then
    mkVotes (S (centeredCount v)) (startCount v) (endCount v)
  else if ltb (Math_abs (childStart - parentStart)) 5 then
    mkVotes (centeredCount v) (S (startCount v)) (endCount v)
  else if ltb (Math_abs (childEnd - parentEnd)) 5 then
    mkVotes (centeredCount v) (startCount v) (S (endCount v))
  else v.

Definition countVotes (start size : BoundingBox -> Q) (parentBounds : BoundingBox)
  (boxes : list BoundingBox) : Votes :=
  fold_left (countChild start size parentBounds) boxes (mkVotes 0 0 0).

Definition natQ (n : nat) : Q := inject_Z (Z.of_nat n).

(** [childrenWithBounds.every(c => Math.abs(size c - size parent) < 10)]. *)
Definition allFullSize (size : BoundingBox -> Q) (parentBounds : BoundingBox)
  (boxes : list BoundingBox) : bool :=
  forallb (fun c => ltb (Math_abs (size c - size parentBounds)) 10) boxes.

(** The cascade that turns the three counts into [alignItems]. *)
Definition decideAlignItems (v : Votes) (total : nat) (stretched : bool) : string :=
  let centerThreshold := if (3 <=? total)%nat then 6 # 10 else 5 # 10 in
  if geb (natQ (centeredCount v)) (natQ total * centerThreshold) then "center"
  else if geb (natQ (startCount v)) (natQ total * centerThreshold) then "flex-start"
  else if geb (natQ (endCount v)) (natQ total * centerThreshold) then "flex-end"
  else if ((startCount v <? centeredCount v)%nat && (endCount v <? centeredCount v)%nat)%bool
       then "center"
  else if (endCount v <? startCount v)%nat then "flex-start"
  else if (startCount v <? endCount v)%nat then "flex-end"
  else if stretched then "stretch" else "flex-start".

Definition crossAxisAlignItems (start size : BoundingBox -> Q) (parentBounds : BoundingBox)
  (boxes : list BoundingBox) : string :=
  decideAlignItems (countVotes start size parentBounds boxes) (length boxes)
                   (allFullSize size parentBounds boxes).

Definition firstBox (sorted : list BoundingBox) : BoundingBox :=
  hd (mkBox 0 0 0 0) sorted.
Definition lastBox (sorted : list BoundingBox) : BoundingBox :=
  List.last sorted (mkBox 0 0 0 0).

Definition justifyVertical (parentBounds : BoundingBox) (boxes : list BoundingBox) : string :=
  let sortedByY := sort_by y boxes in
  let firstChild := firstBox sortedByY in
  let lastChild := lastBox sortedByY in
  let topGap := y firstChild - y parentBounds in
  let bottomGap := (y parentBounds + height parentBounds) - (y lastChild + height lastChild) in
  let gapDifference := Math_abs (topGap - bottomGap) in
  let totalGap := topGap + bottomGap in
  let contentHeight := (y lastChild + height lastChild) - y firstChild in
  let parentHeight := height parentBounds in
  if gtb contentHeight (parentHeight * (8 # 10)) then "flex-start"
  else if (gtb totalGap 0 && ltb gapDifference (totalGap * (15 # 100)))%bool then "center"
  else if ltb topGap 40 then "flex-start"
  else if ltb bottomGap 40 then "flex-end"
  else if ltb topGap (bottomGap * (7 # 10)) then "flex-start"
  else if ltb bottomGap (topGap * (7 # 10)) then "flex-end"
  else "flex-start".

Definition justifyHorizontal (parentBounds : BoundingBox) (boxes : list BoundingBox)
  : option string :=
  let sortedByX := sort_by x boxes in
  let firstChild := firstBox sortedByX in
  let lastChild := lastBox sortedByX in
  let leftGap := x firstChild - x parentBounds in
  let rightGap := (x parentBounds + width parentBounds) - (x lastChild + width lastChild) in
  if ltb (Math_abs (leftGap - rightGap)) 20 then Some "center"
  else if ltb leftGap 20 then Some "flex-start"
  else if ltb rightGap 20 then Some "flex-end"
  else if (2 <=? length boxes)%nat then
    let totalChildWidth := fold_left (fun acc c => acc + width c) boxes 0 in
    let totalGapSpace := width parentBounds - totalChildWidth in
    let averageGap := totalGapSpace / (natQ (length boxes) + 1) in
    if (ltb (Math_abs (leftGap - averageGap)) 10
        && ltb (Math_abs (rightGap - averageGap)) 10)%bool
    then Some "space-between" else None
  else None.

Definition detectAlignment (parent : FigmaNode) (children : list FigmaNode)
  (arrangement : Arrangement) : Alignment :=
  match bbox_of parent, childrenWithBounds children with
  | Some parentBounds, (_ :: _) as boxes =>
      match arrangement with
      | vertical_arr =>
          {| a_alignItems := Some (crossAxisAlignItems x width parentBounds boxes);
             a_justifyContent := Some (justifyVertical parentBounds boxes) |}
      | horizontal_arr =>
          {| a_alignItems := Some (crossAxisAlignItems y height parentBounds boxes);
             a_justifyContent := justifyHorizontal parentBounds boxes |}
      | complex_arr => mkAlignment None None
      end
  | _, _ => mkAlignment None None
  end.

(** *** Styles and layout of one node *)

Definition mapPrimaryAxisAlignment (alignment : string) : string :=
  if String.eqb alignment "MIN" then "flex-start"
  else if String.eqb alignment "CENTER" then "center"
  else if String.eqb alignment "MAX" then "flex-end"
  else if String.eqb alignment "SPACE_BETWEEN" then "space-between"
  else "flex-start".

Definition mapCounterAxisAlignment (alignment : string) : string :=
  if String.eqb alignment "MIN" then "flex-start"
  else if String.eqb alignment "CENTER" then "center"
  else if String.eqb alignment "MAX" then "flex-end"
  else "flex-start".

Definition getDefaultStyles : StyleProperties :=
  {| s_fills := []; s_strokes := []; s_effects := []; s_opacity := 1;
     s_blendMode := "NORMAL" |}.

Definition getDefaultLayout : LayoutProperties :=
  {| strategy := Static; position := None; l_width := None; l_height := None;
     flexDirection := None; gap := None; padding := None; alignItems := None;
     justifyContent := None; l_constraints := None |}.

(** [v.visible !== false]. *)
Definition shown (visible : option bool) : bool :=
  match visible with Some false => false | _ => true end.

Definition extractStyles (node : FigmaFields) : StyleProperties :=
  {| s_fills := List.filter (fun f => shown (fill_visible f)) (default [] (fills node));
     s_strokes := List.filter (fun s => shown (stroke_visible s)) (default [] (strokes node));
     s_effects := List.filter (fun e => shown (effect_visible e)) (default [] (effects node));
     s_opacity := default 1 (opacity node);
     s_blendMode := if truthy_str (blendMode node) then default "NORMAL" (blendMode node)
                    else "NORMAL" |}.

Definition nonEmpty (v : option string) : option string :=
  if truthy_str v then v else None.

(** The second branch of [extractLayout]: a flexbox that was detected from the
    arrangement of the children, [gap], [padding] and the alignment being
    estimated. *)
Definition detectedFlexLayout (node : FigmaNode) (base : LayoutProperties) : LayoutProperties :=
  let children := childList node in
  let arrangement := detectChildArrangement children in
  let averageGap := calculateChildGaps children arrangement in
  let alignment := detectAlignment node children arrangement in
  {| strategy := strategy base;
     position := position base;
     l_width := l_width base;
     l_height := l_height base;
     flexDirection :=
       Some (match arrangement with horizontal_arr => row | _ => column end);
     gap := if gtb averageGap (1 # 2) then Some averageGap else None;
     padding := calculatePadding node children;
     alignItems :=
       match nonEmpty (a_alignItems alignment) with
       | Some a => Some a
       | None => match arrangement with vertical_arr => Some "center" | _ => None end
       end;
     justifyContent := nonEmpty (a_justifyContent alignment);
     l_constraints := l_constraints base |}.

(** The first branch of [extractLayout]: the auto-layout declared in Figma is
    taken as it is. *)
Definition declaredFlexLayout (f : FigmaFields) (base : LayoutProperties) : LayoutProperties :=
  {| strategy := strategy base;
     position := position base;
     l_width := l_width base;
     l_height := l_height base;
     flexDirection :=
       Some (match layoutMode f with Some LM_HORIZONTAL => row | _ => column end);
     gap := Some (or0 (itemSpacing f));
     padding := Some {| top := or0 (paddingTop f); right := or0 (paddingRight f);
                        bottom := or0 (paddingBottom f); left := or0 (paddingLeft f) |};
     alignItems :=
       if truthy_str (counterAxisAlignItems f)
       then mapCounterAxisAlignment <$> counterAxisAlignItems f else None;
     justifyContent :=
       if truthy_str (primaryAxisAlignItems f)
       then mapPrimaryAxisAlignment <$> primaryAxisAlignItems f else None;
     l_constraints := l_constraints base |}.

Definition extractLayout (node : FigmaNode) : LayoutProperties :=
  let f := fields_of node in
  let sized :=
    {| strategy := determineLayoutStrategy node;
       position := (fun b => mkPosition (x b) (y b)) <$> absoluteBoundingBox f;
       l_width := width <$> absoluteBoundingBox f;
       l_height := height <$> absoluteBoundingBox f;
       flexDirection := None; gap := None; padding := None; alignItems := None;
       justifyContent := None;
       l_constraints := None |} in
  let flexed :=
    if hasAutoLayout f then declaredFlexLayout f sized
    else if (eq_strategy (strategy sized) Flexbox
             && (1 <? length (childList node))%nat)%bool
    then detectedFlexLayout node sized
    else sized in
  {| strategy := strategy flexed; position := position flexed;
     l_width := l_width flexed; l_height := l_height flexed;
     flexDirection := flexDirection flexed; gap := gap flexed;
     padding := padding flexed; alignItems := alignItems flexed;
     justifyContent := justifyContent flexed;
     l_constraints := constraints f |}.

(** *** Parsing one node, with its failure caught *)

(** An exception, as the text that [`${error}`] gives. *)
Definition exn := string.

(** A computation of the parser: it reads and extends the list of warnings
    and either returns or throws.  The warnings recorded before a throw stay
    recorded. *)
Definition M (A : Type) : Type := list string -> (exn + A) * list string.

Definition ret {A} (a : A) : M A := fun ws => (inr a, ws).
Definition throw {A} (e : exn) : M A := fun ws => (inl e, ws).
Definition bind {A B} (m : M A) (k : A -> M B) : M B :=
  fun ws => match m ws with
            | (inr a, ws') => k a ws'
            | (inl e, ws') => (inl e, ws')
            end.
Definition tryCatch {A} (body : M A) (handler : exn -> M A) : M A :=
  fun ws => match body ws with
            | (inr a, ws') => (inr a, ws')
            | (inl e, ws') => handler e ws'
            end.
(** [this.warnings.push(msg)]. *)
Definition pushWarning (msg : string) : M unit := fun ws => (inr tt, (ws ++ [msg])%list).

Notation "a <- m ;; k" := (bind m (fun a => k))
  (at level 100, m at next level, right associativity).

(** [xs.map(f)] where [f] may throw: left to right, stopping at a throw. *)
Definition mapM {A B} (f : A -> M B) : list A -> M (list B) :=
  fix go (l : list A) : M (list B) :=
    match l with
    | [] => ret []
    | a :: l' => b <- f a ;; bs <- go l' ;; ret (b :: bs)
    end.

(** An entry of [this.components], typed [any] in the program: of such an
    entry only [name] is read, and nothing makes it present. *)
Record Component := mkComponent { c_name : option string }.

(** [detectComponentType(name)]; [name.toLowerCase()] on an absent name is a
    [TypeError]. *)
Definition detectComponentType (name : option string) : M (option string) :=
  match name with
  | None => throw "TypeError: Cannot read properties of undefined (reading 'toLowerCase')"
  | Some name =>
      let lowerName := toLowerCase name in
      ret (if (includes "button" lowerName || includes "btn" lowerName)%bool
           then Some "button"
           else if (includes "input" lowerName || includes "textfield" lowerName
                    || includes "text field" lowerName)%bool
           then Some "input"
           else if includes "card" lowerName then Some "card"
           else if (includes "modal" lowerName || includes "dialog" lowerName)%bool
           then Some "modal"
           else if (includes "nav" lowerName || includes "menu" lowerName)%bool
           then Some "nav"
           else None)
  end.

Definition isInstance (t : NodeType) : bool :=
  match t with INSTANCE => true | _ => false end.
Definition isText (t : NodeType) : bool :=
  match t with TEXT => true | _ => false end.

(** The component name and type of an instance node, when its component is
    known. *)
Definition componentInfo (components : gmap string Component) (f : FigmaFields)
  : M (option string * option string) :=
  if (isInstance (type f) && truthy_str (componentId f))%bool then
    match components !! default "" (componentId f) with
    | Some component =>
        t <- detectComponentType (c_name component) ;;
        ret (c_name component, t)
    | None => ret (None, None)
    end
  else ret (None, None).

Definition errorMsg (f : FigmaFields) (error : exn) : string :=
  "Error parsing node " +:+ id f +:+ " (" +:+ name f +:+ "): " +:+ error.

(** The node returned from the [catch] block. *)
Definition minimalNode (f : FigmaFields) : ParsedNode :=
  PNode {| p_id := id f; p_name := name f; p_type := type f;
           bounds := mkBox 0 0 0 0;
           styles := getDefaultStyles;
           layout := getDefaultLayout;
           textContent := None; componentName := None; componentType := None |}
        [].

(** The [try] block of [parseNode], given the parser of a child. *)
Definition parseBody (components : gmap string Component)
  (parseChild : FigmaNode -> M ParsedNode) (node : FigmaNode) : M ParsedNode :=
  let f := fields_of node in
  let nodeStyles := extractStyles f in
  let nodeLayout := extractLayout node in
  info <- componentInfo components f ;;
  kids <- match children_of node with
          | Some l => mapM parseChild l
          | None => ret []
          end ;;
  ret (PNode {| p_id := id f; p_name := name f; p_type := type f;
                bounds := default (mkBox 0 0 0 0) (absoluteBoundingBox f);
                styles := nodeStyles;
                layout := nodeLayout;
                textContent :=
                  if (isText (type f) && truthy_str (characters f))%bool
                  then characters f else None;
                componentName := fst info;
                componentType := snd info |}
             kids).

Fixpoint parseNode (components : gmap string Component) (node : FigmaNode)
  {struct node} : M ParsedNode :=
  match node with
  | FNode f cs =>
      tryCatch
        (parseBody components (parseNode components) (FNode f cs))
        (fun error =>
           _ <- pushWarning (errorMsg f error) ;;
           ret (minimalNode f))
  end.

(** [getWarnings()] after a run that left the warnings [ws]. *)
Definition getWarnings (ws : list string) : list string := ws.

(** *** Regrouping by visual containment, in place *)

(** [regroupByVisualContainment] moves the objects of the parsed tree from
    one [children] array to another.  An object is addressed by a handle; the
    store maps a handle to the fields of the object and to its [children]
    array, an array of handles.  Every handle that the program holds
    addresses an object; the lookups below give an empty array or [false] at
    a handle outside the store, which the program cannot hold. *)
Definition handle := nat.

Record Obj := mkObj { o_data : NodeData; o_children : list handle }.

Abbreviation Store := (gmap handle Obj).

(** [node.children]. *)
Definition childrenAt (s : Store) (node : handle) : list handle :=
  match s !! node with Some o => o_children o | None => [] end.

(** [isVisuallyContained(child, parent)] on two objects of the store. *)
Definition contained (s : Store) (child parent : handle) : bool :=
  match s !! child, s !! parent with
  | Some c, Some p => isVisuallyContained (o_data c) (o_data p)
  | _, _ => false
  end.

(** [parent.children.push(child)]. *)
Definition pushChild (parent child : handle) (s : Store) : Store :=
  alter (fun o => mkObj (o_data o) (o_children o ++ [child])) parent s.

(** [node.children = cs]. *)
Definition setChildren (node : handle) (cs : list handle) (s : Store) : Store :=
  alter (fun o => mkObj (o_data o) cs) node s.

(** The inner loop, from index [j] on: [rest] is [node.children] from [j].
    It gives the first sibling, other than the one at index [i], that
    visually contains [child]. *)
Fixpoint findContainer (s : Store) (child : handle) (i j : nat) (rest : list handle)
  : option handle :=
  match rest with
  | [] => None
  | potentialParent :: rest' =>
      if (i =? j)%nat then findContainer s child i (S j) rest'
      else if contained s child potentialParent then Some potentialParent
      else findContainer s child i (S j) rest'
  end.

(** The outer loop, from index [i] on: [todo] is [node.children] from [i] and
    [siblings] the whole of it. *)
Fixpoint regroupLoop (siblings : list handle) (i : nat) (todo : list handle)
  (s : Store) (remainingChildren : list handle) : Store * list handle :=
  match todo with
  | [] => (s, remainingChildren)
  | child :: todo' =>
      match findContainer s child i 0 siblings with
      | Some potentialParent =>
          regroupLoop siblings (S i) todo' (pushChild potentialParent child s)
                      remainingChildren
      | None =>
          regroupLoop siblings (S i) todo' s (remainingChildren ++ [child])%list
      end
  end.

(** The recursive calls on the children, in order. *)
Fixpoint forEachChild (f : handle -> Store -> option Store) (cs : list handle) (s : Store)
  : option Store :=
  match cs with
  | [] => Some s
  | c :: cs' => match f c s with Some s' => forEachChild f cs' s' | None => None end
  end.

(** The recursion is bounded by [fuel], the depth it may reach; [None] is
    the recursion cut short.  [node.children] is not written while the
    calls on the children and the loop run, unless the node is below itself,
    and then the recursion has no end. *)
Fixpoint regroupByVisualContainment (fuel : nat) (node : handle) (s : Store)
  : option Store :=
  match fuel with
  | O => None
  | S fuel' =>
      match childrenAt s node with
      | [] => Some s
      | children =>
          match forEachChild (regroupByVisualContainment fuel') children s with
          | None => None
          | Some s1 =>
              let siblings := childrenAt s1 node in
              let '(s2, remainingChildren) := regroupLoop siblings 0 siblings s1 [] in
              Some (setChildren node remainingChildren s2)
          end
      end
  end.

(** *** Trees in the store *)

(** A parsed tree with the handle of each of its objects. *)
Inductive HTree :=
| HNode (h : handle) (d : NodeData) (cs : list HTree).

Definition rootOf (t : HTree) : handle := let 'HNode h _ _ := t in h.
Definition kidsOf (t : HTree) : list HTree := let 'HNode _ _ cs := t in cs.

(** The handles of a tree, the root first. *)
Fixpoint handles (t : HTree) : list handle :=
  match t with
  | HNode h _ cs => h :: flat_map handles cs
  end.

Fixpoint depth (t : HTree) : nat :=
  match t with
  | HNode _ _ cs => S (fold_right (fun c m => Nat.max (depth c) m) 0%nat cs)
  end.

(** The store holds the tree [t]: at the handle of each node of [t] is an
    object with the fields of the node and, as [children], the handles of
    its children in order. *)
Fixpoint tree_at (s : Store) (t : HTree) : Prop :=
  match t with
  | HNode h d cs =>
      s !! h = Some (mkObj d (map rootOf cs))
      /\ (fix all (l : list HTree) : Prop :=
            match l with
            | [] => True
            | c :: l' => tree_at s c /\ all l'
            end) cs
  end.

(** A node below itself: a path of one or more [children] steps from [h]
    back to [h]. *)
Inductive below (s : Store) : handle -> handle -> Prop :=
| below_child (p c : handle) : c ∈ childrenAt s p -> below s p c
| below_step (p c d : handle) : c ∈ childrenAt s p -> below s c d -> below s p d.

Definition ownAncestor (s : Store) (h : handle) : Prop := below s h h.

(** The objects that the tree below [h] can reach. *)
Definition reachable (s : Store) (h k : handle) : Prop := k = h \/ below s h k.

(** Giving the nodes of a parsed tree the handles [next], [next + 1], ... in
    the order in which [parseNode] makes the objects. *)
Fixpoint label (t : ParsedNode) (next : handle) : HTree * handle :=
  match t with
  | PNode d cs =>
      let '(cs', next') :=
        (fix go (l : list ParsedNode) (n : handle) : list HTree * handle :=
           match l with
           | [] => ([], n)
           | c :: l' =>
               let '(c', n1) := label c n in
               let '(l'', n2) := go l' n1 in
               (c' :: l'', n2)
           end) cs (S next) in
      (HNode next d cs', next')
  end.

Fixpoint store_of (t : HTree) (s : Store) : Store :=
  match t with
  | HNode h d cs =>
      fold_right store_of (<[h := mkObj d (map rootOf cs)]> s) cs
  end.

(** The store that holds the parsed tree [t], its root at handle [0]. *)
Definition alloc (t : ParsedNode) : Store := store_of (fst (label t 0%nat)) ∅.

(** The tree that the store holds at [h], read back as a value; [None] when
    [fuel] steps down do not reach the leaves. *)
Fixpoint readTree (fuel : nat) (s : Store) (h : handle) : option ParsedNode :=
  match fuel with
  | O => None
  | S fuel' =>
      match s !! h with
      | None => None
      | Some o =>
          match (fix each (l : list handle) : option (list ParsedNode) :=
                   match l with
                   | [] => Some []
                   | c :: l' =>
                       match readTree fuel' s c, each l' with
                       | Some t, Some ts => Some (t :: ts)
                       | _, _ => None
                       end
                   end) (o_children o) with
          | Some cs => Some (PNode (o_data o) cs)
          | None => None
          end
      end
  end.

End Parser.

(** ** The layout engine ([LayoutEngine]) *)

Module LayoutEngine.
Import JS.

(** [CSSProperties]: an object from property names to values, every value
    written by the layout engine being a string. *)
Abbreviation CSSProperties := (gmap string string).

Section Emit.

(** The text of a number inside a template literal, [`${n}`]. *)
Variable numToString : Q -> string.

(** [`${n}px`]. *)
Definition px (n : Q) : string := numToString n +:+ "px".

Definition nameHasIndicator (node : NodeData) : bool :=
  includes "indicator" (toLowerCase (p_name node)).

(** [layout.height && layout.height < 10 && layout.width && layout.width > 20]. *)
Definition isDecorativeLine (l : LayoutProperties) : bool :=
  (truthy_num (l_height l) && ltb (or0 (l_height l)) 10
   && truthy_num (l_width l) && gtb (or0 (l_width l)) 20)%bool.

(** [layout.height && layout.height < 30 && node.name.toLowerCase().includes('indicator')]. *)
Definition isDecorativeContainer (node : NodeData) : bool :=
  (truthy_num (l_height (layout node)) && ltb (or0 (l_height (layout node))) 30
   && nameHasIndicator node)%bool.

Definition parentIsFlexbox (parentNode : option NodeData) : bool :=
  match parentNode with
  | Some p => eq_strategy (strategy (layout p)) Flexbox
  | None => false
  end.

Definition effectiveStrategy (node : NodeData) (parentNode : option NodeData)
  : LayoutStrategy :=
  if ((isDecorativeLine (layout node) || isDecorativeContainer node)
      && parentIsFlexbox parentNode
      && eq_strategy (strategy (layout node)) Absolute)%bool
  then Static else strategy (layout node).

Definition applyAbsoluteLayout (css : CSSProperties) (l : LayoutProperties)
  (node : NodeData) (parentNode : option NodeData) : CSSProperties :=
  match parentNode with
  | Some parent =>
      let css := <["position" := "absolute"]> css in
      match position l, position (layout parent) with
      | Some pos, Some ppos =>
          let x := round2 (pos_x pos - pos_x ppos) in
          let y := round2 (pos_y pos - pos_y ppos) in
          let parentWidth := or0 (l_width (layout parent)) in
          let elementWidth := or0 (l_width l) in
          if (isDecorativeContainer node && gtb parentWidth 0 && gtb elementWidth 0)%bool
          then
            let centerX := (parentWidth - elementWidth) / 2 in
            let isCentered := ltb (Math_abs (x - centerX)) 10 in
            if (isCentered || Qeq_bool elementWidth parentWidth)%bool then
              <["top" := px y]> (<["transform" := "translateX(-50%)"]> (<["left" := "50%"]> css))
            else <["top" := px y]> (<["left" := px x]> css)
          else <["top" := px y]> (<["left" := px x]> css)
      | _, _ => css
      end
  | None => <["overflow" := "hidden"]> (<["position" := "relative"]> css)
  end.

Definition flexDirectionName (d : FlexDirection) : string :=
  match d with row => "row" | column => "column" end.

Definition setIf (c : bool) (k v : string) (css : CSSProperties) : CSSProperties :=
  if c then <[k := v]> css else css.

Definition flexPadding (l : LayoutProperties) (css : CSSProperties) : CSSProperties :=
  match padding l with
  | None => css
  | Some p =>
      let preciseTop := round2 (top p) in
      let preciseRight := round2 (right p) in
      let preciseBottom := round2 (bottom p) in
      let preciseLeft := round2 (left p) in
      if (Qeq_bool preciseTop preciseRight && Qeq_bool preciseRight preciseBottom
          && Qeq_bool preciseBottom preciseLeft)%bool then
        setIf (gtb preciseTop 0) "padding" (px preciseTop) css
      else if (Qeq_bool preciseTop preciseBottom && Qeq_bool preciseLeft preciseRight)%bool then
        setIf (gtb preciseTop 0 || gtb preciseLeft 0) "padding"
              (px preciseTop +:+ " " +:+ px preciseRight) css
      else
        <["padding" := px preciseTop +:+ " " +:+ px preciseRight +:+ " "
                       +:+ px preciseBottom +:+ " " +:+ px preciseLeft]> css
  end.

Definition applyFlexboxLayout (css : CSSProperties) (l : LayoutProperties) : CSSProperties :=
  let css := <["display" := "flex"]> css in
  let css := <["flexDirection" := flexDirectionName (default column (flexDirection l))]> css in
  let css := match gap l with
             | Some g => setIf (gtb g 0) "gap" (px (round2 g)) css
             | None => css
             end in
  let css := flexPadding l css in
  let css := match alignItems l with
             | Some a => setIf (truthy_str (Some a)) "alignItems" a css
             | None => css
             end in
  match justifyContent l with
  | Some j => setIf (truthy_str (Some j)) "justifyContent" j css
  | None => css
  end.

Definition fourPadding (l : LayoutProperties) (css : CSSProperties) : CSSProperties :=
  match padding l with
  | Some p =>
      <["padding" := px (top p) +:+ " " +:+ px (right p) +:+ " "
                     +:+ px (bottom p) +:+ " " +:+ px (left p)]> css
  | None => css
  end.

Definition applyGridLayout (css : CSSProperties) (l : LayoutProperties) : CSSProperties :=
  let css := <["display" := "grid"]> css in
  let css := match gap l with
             | Some g => setIf (gtb g 0) "gap" (px g) css
             | None => css
             end in
  fourPadding l css.

Definition applyStaticLayout (css : CSSProperties) (l : LayoutProperties) : CSSProperties :=
  fourPadding l css.

Definition applyHorizontalConstraint (h : string) (css : CSSProperties) : CSSProperties :=
  if String.eqb h "LEFT" then css
  else if String.eqb h "RIGHT" then delete "left" (<["right" := "0"]> css)
  else if String.eqb h "CENTER" then
    <["transform" := "translateX(-50%)"]> (<["left" := "50%"]> css)
  else if String.eqb h "LEFT_RIGHT" then
    delete "width" (<["right" := "0"]> (<["left" := "0"]> css))
  else if String.eqb h "SCALE" then
    setIf (truthy_str (css !! "width")) "width" "100%" css
  else css.

Definition applyVerticalConstraint (v : string) (css : CSSProperties) : CSSProperties :=
  if String.eqb v "TOP" then css
  else if String.eqb v "BOTTOM" then delete "top" (<["bottom" := "0"]> css)
  else if String.eqb v "CENTER" then
    let css := <["top" := "50%"]> css in
    if truthy_str (css !! "transform")
    then <["transform" := default "" (css !! "transform") +:+ " translateY(-50%)"]> css
    else <["transform" := "translateY(-50%)"]> css
  else if String.eqb v "TOP_BOTTOM" then
    delete "height" (<["bottom" := "0"]> (<["top" := "0"]> css))
  else if String.eqb v "SCALE" then
    setIf (truthy_str (css !! "height")) "height" "100%" css
  else css.

Definition applyConstraints (css : CSSProperties) (c : Constraints) : CSSProperties :=
  applyVerticalConstraint (vertical c) (applyHorizontalConstraint (horizontal c) css).

(** The [switch] on the effective strategy. *)
Definition applyStrategy (node : NodeData) (parentNode : option NodeData)
  (css : CSSProperties) : CSSProperties :=
  match effectiveStrategy node parentNode with
  | Absolute => applyAbsoluteLayout css (layout node) node parentNode
  | Flexbox => applyFlexboxLayout css (layout node)
  | Grid => applyGridLayout css (layout node)
  | Static => applyStaticLayout css (layout node)
  end.

(** "Apply dimensions": the width. *)
Definition applyWidth (l : LayoutProperties) (css : CSSProperties) : CSSProperties :=
  match l_width l with
  | Some w => setIf (gtb w 0) "width" (px (round2 w)) css
  | None => css
  end.

(** The centring of small decorative elements and of centred elements. *)
Definition applyCentering (node : NodeData) (parentNode : option NodeData)
  (css : CSSProperties) : CSSProperties :=
  let l := layout node in
  match parentNode with
  | None => css
  | Some parent =>
      match position l, position (layout parent) with
      | Some pos, Some ppos =>
          if (truthy_num (l_width l) && truthy_num (l_height l)
              && truthy_num (l_width (layout parent)))%bool then
            let w := or0 (l_width l) in
            let h := or0 (l_height l) in
            let relativeX := pos_x pos - pos_x ppos in
            let parentWidth := or0 (l_width (layout parent)) in
            let elementWidth := w in
            let centerX := (parentWidth - elementWidth) / 2 in
            let isCentered := ltb (Math_abs (relativeX - centerX)) 5 in
            let decorativeLine :=
              (ltb h 10 && gtb w 20 && ltb w (parentWidth * (8 # 10)))%bool in
            let decorativeContainer := (ltb h 30 && nameHasIndicator node)%bool in
            let isSmallElement := (ltb w 150 && ltb h 10)%bool in
            let css :=
              if (eq_strategy (strategy (layout parent)) Flexbox
                  && match flexDirection (layout parent) with
                     | Some column => true | _ => false end)%bool
              then
                if (decorativeLine || decorativeContainer)%bool then
                  let css := <["alignSelf" := "center"]> css in
                  let css :=
                    if truthy_num (l_height (layout parent)) then
                      let relativeY := pos_y pos - pos_y ppos in
                      let parentHeight := or0 (l_height (layout parent)) in
                      if gtb relativeY (parentHeight * (5 # 10)) then
                        <["marginTop" := "auto"]> (<["order" := "999"]> css)
                      else css
                    else css in
                  delete "top" (delete "left" (delete "position" css))
                else if isCentered then <["alignSelf" := "center"]> css
                else css
              else css in
            if (eq_strategy (strategy l) Absolute
                && (decorativeLine || (isSmallElement && isCentered)))%bool
            then <["transform" := "translateX(-50%)"]> (<["left" := "50%"]> css)
            else css
          else css
      | _, _ => css
      end
  end.

(** "Apply height based on layout strategy". *)
Definition applyHeight (l : LayoutProperties) (css : CSSProperties) : CSSProperties :=
  match l_height l with
  | Some h =>
      if gtb h 0 then
        let preciseHeight := round2 h in
        match strategy l with
        | Flexbox => <["minHeight" := px preciseHeight]> css
        | Absolute => <["height" := px preciseHeight]> css
        | _ => <["height" := px preciseHeight]> css
        end
      else css
  | None => css
  end.

Definition generateLayoutCSS (node : NodeData) (parentNode : option NodeData)
  : CSSProperties :=
  let css : CSSProperties := ∅ in
  let css := applyStrategy node parentNode css in
  let css := applyWidth (layout node) css in
  let css := applyCentering node parentNode css in
  let css := applyHeight (layout node) css in
  match l_constraints (layout node) with
  | Some c => applyConstraints css c
  | None => css
  end.

End Emit.
End LayoutEngine.


(** ** Vocabulary of the properties *)

Section Vocabulary.
Import JS Parser.

(** A list ascends in [key]. *)
Definition ascending {A : Type} (key : A -> Q) (l : list A) : Prop :=
  forall i a b, l !! i = Some a -> l !! S i = Some b -> key a <= key b.

(** Every box of the list starts no more than 5px before the end of the box
    before it. *)
Definition stacked (start size : BoundingBox -> Q) (sorted : list BoundingBox) : Prop :=
  forall i current next,
    sorted !! i = Some current -> sorted !! S i = Some next ->
    start current + size current - 5 <= start next.

(** The child lies within the bounds of the candidate widened by [tol] on
    every side. *)
Definition within (tol : Q) (child cand : BoundingBox) : Prop :=
  x cand - tol <= x child
  /\ x child + width child <= x cand + width cand + tol
  /\ y cand - tol <= y child
  /\ y child + height child <= y cand + height cand + tol.

(** A thin bar, or a low box whose name has "indicator" in it, in any
    letter case. *)
Definition decorative (child : NodeData) : Prop :=
  (height (bounds child) < 10 /\ 20 < width (bounds child))
  \/ (height (bounds child) < 30
      /\ includes "indicator" (toLowerCase (p_name child)) = true).

(** A rectangle with the bounding box [b] and no other optional field. *)
Definition boxedNode (b : BoundingBox) : FigmaNode :=
  FNode {| id := "n"; name := "box"; type := RECTANGLE;
           absoluteBoundingBox := Some b;
           fills := None; strokes := None; effects := None; opacity := None;
           blendMode := None; layoutMode := None;
           primaryAxisAlignItems := None; counterAxisAlignItems := None;
           paddingLeft := None; paddingRight := None; paddingTop := None;
           paddingBottom := None; itemSpacing := None; constraints := None;
           characters := None; componentId := None |} None.

(** Two example sets of siblings: three boxes on top of each other, and the
    same three moved to overlap by 20px. *)
Definition threeStacked : list FigmaNode :=
  [boxedNode (mkBox 0 0 100 50); boxedNode (mkBox 0 50 100 50);
   boxedNode (mkBox 0 100 100 50)].

Definition threeOverlapping : list FigmaNode :=
  [boxedNode (mkBox 0 0 100 50); boxedNode (mkBox 0 30 100 50);
   boxedNode (mkBox 0 60 100 50)].

End Vocabulary.

(** ** Example nodes *)

Section Examples.
Import JS Parser.

Definition withChildren (f : FigmaNode) (cs : list FigmaNode) : FigmaNode :=
  FNode (fields_of f) (Some cs).

Definition withoutBox (f : FigmaNode) : FigmaNode :=
  let g := fields_of f in
  FNode {| id := id g; name := name g; type := type g;
           absoluteBoundingBox := None;
           fills := fills g; strokes := strokes g; effects := effects g;
           opacity := opacity g; blendMode := blendMode g;
           layoutMode := layoutMode g;
           primaryAxisAlignItems := primaryAxisAlignItems g;
           counterAxisAlignItems := counterAxisAlignItems g;
           paddingLeft := paddingLeft g; paddingRight := paddingRight g;
           paddingTop := paddingTop g; paddingBottom := paddingBottom g;
           itemSpacing := itemSpacing g; constraints := constraints g;
           characters := characters g; componentId := componentId g |}
        (children_of f).

(** A page: a node with no bounding box of its own, holding three stacked
    boxes. *)
Definition pageOfThree : FigmaNode :=
  withoutBox (withChildren (boxedNode (mkBox 0 0 0 0)) threeStacked).

(** A frame with a bounding box, holding the same three boxes. *)
Definition frameOfThree : FigmaNode :=
  withChildren (boxedNode (mkBox 0 0 100 150)) threeStacked.

(** The node has declared an auto-layout. *)
Definition declaresAutoLayout (node : FigmaNode) : Prop :=
  layoutMode (fields_of node) = Some LM_HORIZONTAL
  \/ layoutMode (fields_of node) = Some LM_VERTICAL.

(** The node has two or more boxed children, found to be in a column or in
    a row. *)
Definition childrenInFlow (node : FigmaNode) : Prop :=
  (2 <= length (childrenWithBounds (childList node)))%nat
  /\ detectChildArrangement (childList node) <> complex_arr.

End Examples.

(** ** Example parsed nodes *)

Section ParsedExamples.
Import JS Parser.

Definition parsedBox (nm : string) (b : BoundingBox) (fs : list Fill) : NodeData :=
  {| p_id := nm; p_name := nm; p_type := RECTANGLE; bounds := b;
     styles := {| s_fills := fs; s_strokes := []; s_effects := [];
                  s_opacity := 1; s_blendMode := "NORMAL" |};
     layout := getDefaultLayout;
     textContent := None; componentName := None; componentType := None |}.

Definition solidFill : Fill := mkFill "SOLID" None.

(** A bar 40 wide and 4 high, 25px above a card that has no fill. *)
Definition thinBar : NodeData := parsedBox "Line 1" (mkBox 10 (-29) 40 4) [].
Definition plainCard : NodeData := parsedBox "Card" (mkBox 0 0 200 100) [].
Definition filledCard : NodeData := parsedBox "Card" (mkBox 0 0 200 100) [solidFill].
(** A label inside the card. *)
Definition textLabel : NodeData := parsedBox "Label" (mkBox 20 20 80 30) [].

End ParsedExamples.

(** ** The gap estimate, in the words of its description *)

Section GapVocabulary.
Import JS Parser.

(** The mean of a list of samples. *)
Definition mean (l : list Q) : Q := sum l / lengthQ l.

(** The samples that the estimate averages: the sorted samples no greater
    than 2.5 times the median, or all the samples when fewer than half are
    left. *)
Definition retained (gaps : list Q) : list Q :=
  let sortedGaps := sort_by (fun g => g) gaps in
  let median := nth (length gaps / 2) sortedGaps 0 in
  let kept := List.filter (fun g => leb g (median * (25 # 10))) sortedGaps in
  if ltb (lengthQ kept) (lengthQ gaps * (1 # 2)) then gaps else kept.

End GapVocabulary.

(** A frame whose three children are 0.4px apart. *)
Definition tightFrame : FigmaNode :=
  withChildren (boxedNode (mkBox 0 0 100 (308 # 10)))
    [boxedNode (mkBox 0 0 100 10); boxedNode (mkBox 0 (104 # 10) 100 10);
     boxedNode (mkBox 0 (208 # 10) 100 10)].

(** ** Example nodes of the layout engine *)

Section EngineExamples.
Import JS Parser.

Definition laidOut (nm : string) (s : LayoutStrategy) (b : BoundingBox)
  (dir : option FlexDirection) : NodeData :=
  {| p_id := nm; p_name := nm; p_type := FRAME; bounds := b;
     styles := getDefaultStyles;
     layout := {| strategy := s;
                  position := Some (mkPosition (x b) (y b));
                  l_width := Some (width b); l_height := Some (height b);
                  flexDirection := dir; gap := None; padding := None;
                  alignItems := None; justifyContent := None;
                  l_constraints := None |};
     textContent := None; componentName := None; componentType := None |}.

(** A column 300 wide and 400 high. *)
Definition flexColumn : NodeData :=
  laidOut "Form" Flexbox (mkBox 0 0 300 400) (Some column).

(** A bar 40 wide and 4 high in the column, itself laid out absolutely. *)
Definition absoluteBar : NodeData :=
  laidOut "Line 1" Absolute (mkBox 130 300 40 4) None.

(** A line 40 wide and of height 0 in the column, laid out absolutely. *)
Definition absoluteHairline : NodeData :=
  laidOut "Line 2" Absolute (mkBox 130 300 40 0) None.

(** A printer of numbers for running the examples: the decimal text of an
    integer.  The examples print integers only. *)
Definition showInteger (n : Q) : string :=
  NilZero.string_of_int (Z.to_int (Qfloor n)).

End EngineExamples.

(** ** The alignment vote, in the words of its description *)

Section VoteVocabulary.
Import JS Parser.

Variables (start size : BoundingBox -> Q) (parentBounds : BoundingBox).

(** The centre of the child is less than 2px from the centre of the parent. *)
Definition votesCenter (b : BoundingBox) : bool :=
  ltb (Qabs ((start b + size b / 2) - (start parentBounds + size parentBounds / 2))) 2.

(** Not centred, and the near edge less than 5px from that of the parent. *)
Definition votesStart (b : BoundingBox) : bool :=
  (negb (votesCenter b) && ltb (Qabs (start b - start parentBounds)) 5)%bool.

(** Neither of the two, and the far edge less than 5px from that of the
    parent. *)
Definition votesEnd (b : BoundingBox) : bool :=
  (negb (votesCenter b) && negb (votesStart b)
   && ltb (Qabs ((start b + size b) - (start parentBounds + size parentBounds))) 5)%bool.

(** The size of every child is less than 10px from that of the parent. *)
Definition allStretched (boxes : list BoundingBox) : Prop :=
  Forall (fun b => Qabs (size b - size parentBounds) < 10) boxes.

End VoteVocabulary.

(** The share of the children that a category needs: 0.6 of three or more
    children, 0.5 of fewer. *)
Definition meetsThreshold (total count : nat) : Prop :=
  Parser.natQ total * (if (3 <=? total)%nat then 6 # 10 else 5 # 10) <= Parser.natQ count.

(** A frame 300 wide with three stacked children: one centred, one at the
    left edge, one at neither. *)
Definition tieFrame : FigmaNode := boxedNode (mkBox 0 0 300 400).
Definition tieChildren : list FigmaNode :=
  [boxedNode (mkBox 100 0 100 50); boxedNode (mkBox 0 100 100 50);
   boxedNode (mkBox 50 200 100 50)].

(** ** Example of a node that fails to parse *)

Section FailingExample.
Import JS Parser.

(** An instance of the component "c1". *)
Definition instanceNode : FigmaNode :=
  FNode {| id := "2:1"; name := "Button"; type := INSTANCE;
           absoluteBoundingBox := Some (mkBox 0 60 100 40);
           fills := None; strokes := None; effects := None; opacity := None;
           blendMode := None; layoutMode := None;
           primaryAxisAlignItems := None; counterAxisAlignItems := None;
           paddingLeft := None; paddingRight := None; paddingTop := None;
           paddingBottom := None; itemSpacing := None; constraints := None;
           characters := None; componentId := Some "c1" |} None.

(** The entry of "c1" has no name. *)
Definition namelessComponents : gmap string Component :=
  {[ "c1" := mkComponent None ]}.

(** A frame that holds a box, the instance, and another box. *)
Definition frameWithInstance : FigmaNode :=
  withChildren (boxedNode (mkBox 0 0 100 160))
    [boxedNode (mkBox 0 0 100 50); instanceNode; boxedNode (mkBox 0 110 100 50)].

(** A computation that returns [a] and adds the warnings [W], whatever the
    warnings before it. *)
Definition returns {A} (m : M A) (a : A) (W : list string) : Prop :=
  forall ws, m ws = (inr a, (ws ++ W)%list).

End FailingExample.

(** ** Trees in the store: grafting *)

Section Grafting.
Import JS Parser.

(** The tree [t] with [new] added as the last child of the node at the
    handle [p], if [t] has such a node. *)
Fixpoint graft (p : handle) (new : HTree) (t : HTree) : HTree :=
  match t with
  | HNode h d cs =>
      if (h =? p)%nat then HNode h d (cs ++ [new])
      else HNode h d (map (graft p new) cs)
  end.

(** No child of [node] is visually contained in another child of [node]. *)
Definition settled (s : Store) (node : handle) : Prop :=
  forall i k c q,
    childrenAt s node !! i = Some c -> childrenAt s node !! k = Some q ->
    i <> k -> contained s c q = false.

(** The store [s'] holds what regrouping made of the tree [t] that [s]
    held: a tree at the same root, of nodes of [t], no node twice, the
    children of the root settled; outside [t] the store is as it was, and the
    fields of no object have changed. *)
Definition regrouped (s s' : Store) (t t' : HTree) : Prop :=
  tree_at s' t'
  /\ rootOf t' = rootOf t
  /\ NoDup (handles t')
  /\ (forall k, k ∈ handles t' -> k ∈ handles t)
  /\ (forall k, k ∉ handles t -> s' !! k = s !! k)
  /\ (forall k, o_data <$> s' !! k = o_data <$> s !! k)
  /\ settled s' (rootOf t').

End Grafting.

(** ** Examples of regrouping *)

Section RegroupExamples.
Import JS Parser.

(** The labelling of a list of trees, one after the other. *)
Fixpoint labelAll (l : list ParsedNode) (n : handle) : list HTree * handle :=
  match l with
  | [] => ([], n)
  | c :: l' =>
      let '(c', n1) := label c n in
      let '(l'', n2) := labelAll l' n1 in
      (c' :: l'', n2)
  end.

(** A page with two thin bars, one 10px under the other: each lies within
    the bounds of the other widened by 30. *)
Definition twoBars : ParsedNode :=
  PNode (parsedBox "Page" (mkBox 0 0 400 400) [])
    [PNode (parsedBox "Line 1" (mkBox 0 0 40 4) []) [];
     PNode (parsedBox "Line 2" (mkBox 0 10 40 4) []) []].

(** A page with a filled card that holds a filled panel, and beside the
    card a text that lies inside both the card and the panel. *)
Definition cardAndText : ParsedNode :=
  PNode (parsedBox "Page" (mkBox 0 0 400 400) [])
    [PNode (parsedBox "Card" (mkBox 0 0 200 100) [solidFill])
       [PNode (parsedBox "Panel" (mkBox 10 10 100 60) [solidFill]) []];
     PNode (parsedBox "Text" (mkBox 20 20 50 20) []) []].

End RegroupExamples.

(** A frame 300 by 400 with three children 280 wide and 80 high, stacked
    40px apart and centred. *)
Definition stackedFrame : FigmaNode :=
  withChildren (boxedNode (mkBox 0 0 300 400))
    [boxedNode (mkBox 10 0 280 80); boxedNode (mkBox 10 120 280 80);
     boxedNode (mkBox 10 240 280 80)].

(** ** Vocabulary of the properties of parsing *)

Section ParseVocabulary.
Import JS Parser.



(** An instance of a component that is known by a name. *)
Definition namedComponents : gmap string Component :=
  {[ "c1" := mkComponent (Some "Primary Button") ]}.

End ParseVocabulary.

(** ** Vocabulary of the properties of regrouping *)

Section RegroupVocabulary.
Import JS Parser.

(** The first of the siblings, other than the child itself, that visually
    contains the child. *)
Definition firstContainer (s : Store) (siblings : list handle) (child : handle)
  : option handle :=
  List.find (fun q => (negb (q =? child)%nat && contained s child q)%bool) siblings.

(** The siblings that no other sibling visually contains. *)
Definition uncontained (s : Store) (siblings : list handle) : list handle :=
  List.filter (fun c => bool_decide (firstContainer s siblings c = None)) siblings.

(** The siblings whose first container is [p]. *)
Definition movedInto (s : Store) (siblings : list handle) (p : handle) : list handle :=
  List.filter (fun c => bool_decide (firstContainer s siblings c = Some p)) siblings.

(** The closed form of the store [s'] after the regrouping of the tree [t]
    that [s] held: the root keeps the children that none of the others
    contains, and a child [k] of a node [p] keeps those of its own and is
    given, after them, the children of [p] whose first container it is. *)
Definition described (s s' : Store) (t : HTree) : Prop :=
  childrenAt s' (rootOf t) = uncontained s (childrenAt s (rootOf t))
  /\ forall p k, p ∈ handles t -> k ∈ childrenAt s p ->
       childrenAt s' k
       = (uncontained s (childrenAt s k) ++ movedInto s (childrenAt s p) k)%list.

End RegroupVocabulary.

(** ** Further example nodes *)

Section FurtherExamples.
Import JS Parser.

(** A card whose only fill is hidden. *)
Definition hiddenCard : FigmaNode :=
  FNode {| id := "3:1"; name := "Card"; type := RECTANGLE;
           absoluteBoundingBox := Some (mkBox 0 0 200 100);
           fills := Some [mkFill "SOLID" (Some false)];
           strokes := None; effects := None; opacity := None;
           blendMode := None; layoutMode := None;
           primaryAxisAlignItems := None; counterAxisAlignItems := None;
           paddingLeft := None; paddingRight := None; paddingTop := None;
           paddingBottom := None; itemSpacing := None; constraints := None;
           characters := None; componentId := None |} None.

(** The fields of a frame that declares a vertical auto-layout with a
    spacing of 12 and a left padding of 8. *)
Definition declaredColumn : FigmaFields :=
  {| id := "4:1"; name := "List"; type := FRAME;
     absoluteBoundingBox := Some (mkBox 0 0 100 150);
     fills := None; strokes := None; effects := None; opacity := None;
     blendMode := None; layoutMode := Some LM_VERTICAL;
     primaryAxisAlignItems := None; counterAxisAlignItems := None;
     paddingLeft := Some 8; paddingRight := None; paddingTop := None;
     paddingBottom := None; itemSpacing := Some 12; constraints := None;
     characters := None; componentId := None |}.

(** A page with two filled cards side by side, 20px apart. *)
Definition sideBySide : ParsedNode :=
  PNode (parsedBox "Page" (mkBox 0 0 400 400) [])
    [PNode (parsedBox "Left" (mkBox 0 0 100 100) [solidFill]) [];
     PNode (parsedBox "Right" (mkBox 120 0 100 100) [solidFill]) []].

End FurtherExamples.

(** The names that only the strategy step of the layout engine writes. *)
Definition containerKey (k : string) : Prop :=
  k = "display" \/ k = "overflow" \/ k = "flexDirection" \/ k = "gap"
  \/ k = "alignItems" \/ k = "justifyContent".

Section EngineVocabulary.
Import JS LayoutEngine.
Variable numToString : Q -> string.

(** The width and the height that the steps before the constraints write:
    the rounded size where it is greater than 0, the height of a Flexbox node
    going to [minHeight]. *)
Definition sizedWidth (l : LayoutProperties) : option string :=
  match l_width l with
  | Some w => if gtb w 0 then Some (px numToString (round2 w)) else None
  | None => None
  end.

Definition sizedHeight (l : LayoutProperties) : option string :=
  match l_height l with
  | Some h => if gtb h 0 then Some (px numToString (round2 h)) else None
  | None => None
  end.

End EngineVocabulary.

(** ** Vocabulary of the conservation of nodes *)

Section PlainVocabulary.
Import JS Parser.

(** The object at [k] is not decorative and its width is not negative. *)
Definition plain (s : Store) (k : handle) : Prop :=
  forall o, s !! k = Some o ->
            isDecorative (o_data o) = false /\ 0 <= width (bounds (o_data o)).

(** The width of the object at [k]. *)
Definition widthAt (s : Store) (k : handle) : Q :=
  match s !! k with Some o => width (bounds (o_data o)) | None => 0 end.

(** How many of the siblings are wider than [k]. *)
Definition widerThan (s : Store) (siblings : list handle) (k : handle) : nat :=
  length (List.filter (fun c => ltb (widthAt s k) (widthAt s c)) siblings).

End PlainVocabulary.

(** ** The entry point of the parser *)

Section ParseEntry.
Import JS Parser.


End ParseEntry.

(** ** The choice of the HTML tag ([Transformer]) *)

Module Transformer.
Import JS.

(** [/^h[1-6]/.test(name)]. *)
Definition startsWithHeadingLevel (name : string) : bool :=
  match name with
  | String "h" (String c _) =>
      (Nat.leb 49 (nat_of_ascii c) && Nat.leb (nat_of_ascii c) 54)%bool
  | _ => false
  end.

Definition determineTextTag (node : NodeData) : string :=
  let name := toLowerCase (p_name node) in
  if (includes "input" name || includes "field" name || includes "textbox" name)%bool then
    if includes "email" name then "input-email"
    else if includes "password" name then "input-password"
    else "input-text"
  else if (includes "heading" name || includes "title" name
           || startsWithHeadingLevel name)%bool then
    if (includes "1" name || includes "main" name)%bool then "h1"
    else if includes "2" name then "h2"
    else if includes "3" name then "h3"
    else if includes "4" name then "h4"
    else if includes "5" name then "h5"
    else if includes "6" name then "h6"
    else "h2"
  else if (includes "paragraph" name || includes "body" name
           || includes "description" name)%bool then "p"
  else if (includes "label" name || includes "placeholder" name)%bool then "label"
  else "span".

Definition determineFrameTag (node : NodeData) : string :=
  let name := toLowerCase (p_name node) in
  if (includes "input" name || includes "field" name || includes "textbox" name
      || includes "text field" name)%bool then
    if includes "email" name then "input-email"
    else if includes "password" name then "input-password"
    else "input-text"
  else if (includes "button" name || includes "btn" name)%bool then "button"
  else if includes "header" name then "header"
  else if includes "footer" name then "footer"
  else if (includes "nav" name || includes "menu" name)%bool then "nav"
  else if (includes "article" name || includes "post" name)%bool then "article"
  else if (includes "aside" name || includes "sidebar" name)%bool then "aside"
  else if (includes "card" name || includes "container" name
           || includes "wrapper" name)%bool then "div"
  else "div".

(** The [switch] on [node.componentType]; [None] when no [case] is taken. *)
Definition componentTag (componentType : string) : option string :=
  if String.eqb componentType "button" then Some "button"
  else if String.eqb componentType "input" then Some "input-text"
  else if String.eqb componentType "card" then Some "article"
  else if String.eqb componentType "modal" then Some "dialog"
  else if String.eqb componentType "nav" then Some "nav"
  else None.

(** The [switch] on [node.type]. *)
Definition typeTag (node : NodeData) : string :=
  match p_type node with
  | TEXT => determineTextTag node
  | FRAME => determineFrameTag node
  | INSTANCE => determineFrameTag node
  | GROUP => "div"
  | RECTANGLE | ELLIPSE => "div"
  | VECTOR => "svg"
  | CANVAS => "section"
  | DOCUMENT => "main"
  | _ => "div"
  end.

Definition determineHTMLTag (node : NodeData) : string :=
  if truthy_str (componentType node) then
    match componentTag (default "" (componentType node)) with
    | Some tag => tag
    | None => typeTag node
    end
  else typeTag node.

End Transformer.

(** ** Retrying a request ([FigmaAPIClient]) *)

Module FigmaAPIClient.
Import JS.

(** What a rejected request is rejected with: an error of axios, with the
    status of the response when there is one, or some other error. *)
Inductive Failure :=
| AxiosError (statusCode : option Z)
| OtherError.

(** How one call of [requestFn] ends. *)
Inductive Outcome (T : Type) :=
| Resolved (value : T)
| Rejected (error : Failure).
Arguments Resolved {T} value.
Arguments Rejected {T} error.

(** [statusCode && statusCode >= 400 && statusCode < 500 && statusCode !== 429]. *)
Definition isClientError (statusCode : option Z) : bool :=
  match statusCode with
  | Some c => (negb (c =? 0) && (400 <=? c) && (c <? 500) && negb (c =? 429))%Z%bool
  | None => false
  end.

(** [getRetryDelay(attempt)], [random] being the value of [Math.random()]. *)
Definition getRetryDelay (attempt : nat) (random : Q) : Q :=
  let baseDelay := 2 ^ (Z.of_nat attempt - 1) * 1000 in
  let jitter := random * 1000 in
  baseDelay + jitter.

(** A run of [retryRequest]: what it returns ([inr]) or throws ([inl], and
    [inl None] is [undefined] thrown), how many times [requestFn] was
    called, and the delays slept, in order. *)
Record Run (T : Type) := mkRun {
  result : option Failure + T;
  calls : nat;
  sleeps : list Q
}.
Arguments mkRun {T} result calls sleeps.
Arguments result {T} r.
Arguments calls {T} r.
Arguments sleeps {T} r.

Section Retry.
Context {T : Type}.

(** The outcome of the call of [requestFn] made at each attempt, and the
    value of [Math.random()] at each attempt. *)
Variable requestFn : nat -> Outcome T.
Variable random : nat -> Q.

(** The [for] loop from [attempt] on, [remaining] being the number of
    attempts from [attempt] to [maxRetries]. *)
Fixpoint retryLoop (maxRetries remaining attempt : nat) (lastError : option Failure)
  (slept : list Q) : Run T :=
  match remaining with
  | O => mkRun (inl lastError) (attempt - 1) slept
  | S remaining' =>
      match requestFn attempt with
      | Resolved value => mkRun (inr value) attempt slept
      | Rejected error =>
          match error with
          | AxiosError statusCode =>
              if isClientError statusCode then mkRun (inl (Some error)) attempt slept
              else if (attempt <? maxRetries)%nat then
                retryLoop maxRetries remaining' (S attempt) (Some error)
                  (slept ++ [getRetryDelay attempt (random attempt)])%list
              else mkRun (inl (Some error)) attempt slept
          | OtherError => mkRun (inl (Some error)) attempt slept
          end
      end
  end.

Definition retryRequest (maxRetries : nat) : Run T :=
  retryLoop maxRetries maxRetries 1 None [].

End Retry.

End FigmaAPIClient.

(** ** Vocabulary of the properties of retrying *)

Section RetryVocabulary.
Import FigmaAPIClient.

(** An outcome after which the request is made again, attempts permitting:
    an error of axios that is not a client error other than 429. *)
Definition retryable {T} (o : Outcome T) : bool :=
  match o with
  | Rejected (AxiosError statusCode) => negb (isClientError statusCode)
  | _ => false
  end.

(** What [retryRequest] makes of the outcome of its last call. *)
Definition settle {T} (o : Outcome T) : option Failure + T :=
  match o with
  | Resolved value => inr value
  | Rejected error => inl (Some error)
  end.

(** Outcomes for an example: a server error, a rate limit, then a value. *)
Definition thirdTimeLucky (attempt : nat) : Outcome string :=
  match attempt with
  | 1%nat => Rejected (AxiosError (Some 503%Z))
  | 2%nat => Rejected (AxiosError (Some 429%Z))
  | _ => Resolved "file"
  end.

End RetryVocabulary.

(** ** Class names and escaping ([helpers], [HTMLGenerator]) *)

Module Helpers.
Import JS.

(** A character of [[a-z0-9]]. *)
Definition isLowerAlnum (c : ascii) : bool :=
  let n := nat_of_ascii c in
  ((Nat.leb 97 n && Nat.leb n 122) || (Nat.leb 48 n && Nat.leb n 57))%bool.

(** [.replace(/[^a-z0-9]+/g, '-')]: every run of other characters becomes
    one dash.  [inRun] tells that the character before belongs to such a
    run. *)
Fixpoint dashRuns (inRun : bool) (s : string) : string :=
  match s with
  | EmptyString => EmptyString
  | String c s' =>
      if isLowerAlnum c then String c (dashRuns false s')
      else if inRun then dashRuns true s'
      else String "-" (dashRuns true s')
  end.

(** [.replace(/^-+|-+$/g, '')]: the dashes at the start and those at the
    end are removed. *)
Fixpoint dropLeadingDashes (s : string) : string :=
  match s with
  | String c s' => if Ascii.eqb c "-" then dropLeadingDashes s' else s
  | EmptyString => EmptyString
  end.

Fixpoint dropTrailingDashes (s : string) : string :=
  match s with
  | EmptyString => EmptyString
  | String c s' =>
      match dropTrailingDashes s' with
      | EmptyString => if Ascii.eqb c "-" then EmptyString else String c EmptyString
      | rest => String c rest
      end
  end.

(** [sanitizeClassName(name)], on names of ASCII characters. *)
Definition sanitizeClassName (name : string) : string :=
  dropTrailingDashes (dropLeadingDashes (dashRuns false (toLowerCase name))).

(** The entity that [escapeHTML] puts for a character. *)
Definition escapeChar (c : ascii) : string :=
  if Ascii.eqb c "&" then "&amp;"
  else if Ascii.eqb c "<" then "&lt;"
  else if Ascii.eqb c ">" then "&gt;"
  else if Ascii.eqb c "034" then "&quot;"
  else if Ascii.eqb c "'" then "&#39;"
  else String c EmptyString.

(** [text.replace] of each of the five characters of the map, the
    ampersand, the two angle brackets and the two quotes, by its entity. *)
Fixpoint escapeHTML (text : string) : string :=
  match text with
  | EmptyString => EmptyString
  | String c text' => escapeChar c +:+ escapeHTML text'
  end.

End Helpers.

(** ** Vocabulary of the properties of class names *)

Section ClassNameVocabulary.
Import JS Helpers.

(** The characters of [s] are of [[a-z0-9]] or dashes, and no two dashes
    are next to each other; [afterDash] tells that a dash comes before
    [s]. *)
Fixpoint tidy (afterDash : bool) (s : string) : bool :=
  match s with
  | EmptyString => true
  | String c s' =>
      if isLowerAlnum c then tidy false s'
      else (Ascii.eqb c "-" && negb afterDash && tidy true s')%bool
  end.

Definition startsWithDash (s : string) : bool :=
  match s with String c _ => Ascii.eqb c "-" | EmptyString => false end.

Fixpoint endsWithDash (s : string) : bool :=
  match s with
  | EmptyString => false
  | String c EmptyString => Ascii.eqb c "-"
  | String _ s' => endsWithDash s'
  end.

(** A class name as [sanitizeClassName] gives them: words of [[a-z0-9]]
    with one dash between two words. *)
Definition dashed (s : string) : bool :=
  (tidy false s && negb (startsWithDash s) && negb (endsWithDash s))%bool.

(** The character [c] occurs in [s]. *)
Fixpoint occurs (c : ascii) (s : string) : bool :=
  match s with
  | EmptyString => false
  | String d s' => (Ascii.eqb c d || occurs c s')%bool
  end.

End ClassNameVocabulary.

(** ** Example nodes of the engine and of the transformer *)

Section LaterExamples.
Import JS Parser.

(** A badge 40 by 40, kept centred both ways by its constraints. *)
Definition centredBadge : NodeData :=
  {| p_id := "5:1"; p_name := "Badge"; p_type := FRAME;
     bounds := mkBox 130 180 40 40;
     styles := getDefaultStyles;
     layout := {| strategy := Absolute;
                  position := Some (mkPosition 130 180);
                  l_width := Some 40; l_height := Some 40;
                  flexDirection := None; gap := None; padding := None;
                  alignItems := None; justifyContent := None;
                  l_constraints := Some (mkConstraints "CENTER" "CENTER") |};
     textContent := None; componentName := None; componentType := None |}.

(** A text named as a heading. *)
Definition headingText : NodeData :=
  {| p_id := "6:1"; p_name := "Heading 2"; p_type := TEXT;
     bounds := mkBox 0 0 200 32;
     styles := getDefaultStyles;
     layout := getDefaultLayout;
     textContent := Some "Welcome"; componentName := None; componentType := None |}.

End LaterExamples.

(** The names that only the centring step of the layout engine writes. *)
Definition itemKey (k : string) : Prop :=
  k = "alignSelf" \/ k = "order" \/ k = "marginTop".

(** * Properties *)

(** ** Comparisons, rounding and sorting *)

Section JSFacts.
Import JS.

Lemma ltb_lt (a b : Q) : ltb a b = true <-> a < b.
Proof.
  unfold ltb. rewrite negb_true_iff, <- not_true_iff_false, Qle_bool_iff.
  split; [apply Qnot_le_lt | apply Qlt_not_le].
Qed.

Lemma ltb_ge (a b : Q) : ltb a b = false <-> b <= a.
Proof. unfold ltb. rewrite negb_false_iff. apply Qle_bool_iff. Qed.

Lemma leb_le (a b : Q) : leb a b = true <-> a <= b.
Proof. apply Qle_bool_iff. Qed.

Lemma leb_gt (a b : Q) : leb a b = false <-> b < a.
Proof.
  unfold leb. rewrite <- not_true_iff_false, Qle_bool_iff.
  split; [apply Qnot_le_lt | apply Qlt_not_le].
Qed.

Lemma gtb_gt (a b : Q) : gtb a b = true <-> b < a.
Proof. apply ltb_lt. Qed.

Lemma geb_ge (a b : Q) : geb a b = true <-> b <= a.
Proof. apply leb_le. Qed.

Lemma geb_lt (a b : Q) : geb a b = false <-> a < b.
Proof. apply leb_gt. Qed.



Lemma append_cons (c : ascii) (s t : string) : String c s +:+ t = String c (s +:+ t).
Proof. reflexivity. Qed.

Lemma prefix_spec (needle hay : string) :
  String.prefix needle hay = true <-> exists post, hay = needle +:+ post.
Proof.
  revert hay. induction needle as [| c needle IH]; intros hay.
  - split; [intros _; now exists hay | intros _; now destruct hay].
  - destruct hay as [| d hay]; cbn.
    + split; [discriminate | intros [post E]; discriminate].
    + setoid_rewrite append_cons. destruct (ascii_dec c d) as [-> | Hne].
      * rewrite IH. split; intros [post E]; exists post; congruence.
      * split; [discriminate | intros [post E]; congruence].
Qed.

(** The text [needle] occurs in [hay]: [hay] is some prefix, [needle], some
    suffix. *)
Lemma includes_spec (needle hay : string) :
  includes needle hay = true <-> exists pre post, hay = pre +:+ needle +:+ post.
Proof.
  induction hay as [| c hay IH]; cbn [includes].
  - rewrite orb_false_r, prefix_spec. split.
    + intros [post E]. now exists "", post.
    + intros (pre & post & E). destruct pre; [| discriminate]. now exists post.
  - rewrite orb_true_iff, IH, prefix_spec. split.
    + intros [[post E] | (pre & post & E)].
      * now exists "", post.
      * exists (String c pre), post. rewrite append_cons. now rewrite E.
    + intros (pre & post & E). destruct pre as [| d pre].
      * left. now exists post.
      * right. rewrite append_cons in E. injection E as _ E. now exists pre, post.
Qed.

Section SortFacts.
Context {A : Type} (key : A -> Q).

Lemma insert_sorted_perm (a : A) (l : list A) : insert_sorted key a l ≡ₚ a :: l.
Proof.
  induction l as [| b l IH]; cbn; [reflexivity |].
  destruct (leb (key a) (key b)); [reflexivity |].
  rewrite IH. apply Permutation_swap.
Qed.

Lemma sort_by_perm (l : list A) : sort_by key l ≡ₚ l.
Proof.
  induction l as [| a l IH]; cbn; [reflexivity |].
  now rewrite insert_sorted_perm, IH.
Qed.

Lemma sort_by_length (l : list A) : length (sort_by key l) = length l.
Proof. apply Permutation_length, sort_by_perm. Qed.

Lemma ascending_cons (a : A) (l : list A) :
  ascending key (a :: l) <->
  (match l with [] => True | b :: _ => key a <= key b end) /\ ascending key l.
Proof.
  unfold ascending. split.
  - intros H. split.
    + destruct l as [| b l]; [exact I |]. now apply (H 0%nat a b).
    + intros i x z Hx Hz. now apply (H (S i)).
  - intros [H0 H] [| i] x z Hx Hz; cbn in *.
    + destruct l as [| b l]; simplify_eq/=. exact H0.
    + now apply (H i).
Qed.

Lemma insert_sorted_ascending (a : A) (l : list A) :
  ascending key l -> ascending key (insert_sorted key a l).
Proof.
  induction l as [| b l IH]; intros Hl; cbn.
  - apply ascending_cons. split; [exact I | intros [|?] ? ? ? ?; discriminate].
  - destruct (leb (key a) (key b)) eqn:E.
    + apply ascending_cons. split; [now apply leb_le | exact Hl].
    + apply leb_gt in E. apply ascending_cons in Hl as [Hb Hl].
      apply ascending_cons. split; [| now apply IH].
      destruct l as [| c l]; cbn.
      * now apply Qlt_le_weak.
      * destruct (leb (key a) (key c)); [now apply Qlt_le_weak | exact Hb].
Qed.

Lemma sort_by_ascending (l : list A) : ascending key (sort_by key l).
Proof.
  induction l as [| a l IH]; cbn.
  - intros [|?] ? ? ? ?; discriminate.
  - now apply insert_sorted_ascending.
Qed.

End SortFacts.
End JSFacts.

(** ** Arrangement of the children *)

Section ArrangementFacts.
Import JS Parser.
Lemma no_overlap_stacked (start size : BoundingBox -> Q) (l : list BoundingBox) :
  no_overlap start size l = true <-> stacked start size l.
Proof.
  unfold stacked. induction l as [| cur l IH].
  - split; [intros _ [|?] ? ? ?; discriminate | reflexivity].
  - destruct l as [| next l].
    + split; [intros _ [|?] ? ? ? ?; discriminate | reflexivity].
    + change (no_overlap start size (cur :: next :: l))
        with (if ltb (start next) (start cur + size cur - 5) then false
              else no_overlap start size (next :: l)).
      destruct (ltb (start next) (start cur + size cur - 5)) eqn:E.
      * split; [discriminate |]. intros H. apply ltb_lt in E.
        specialize (H 0%nat cur next eq_refl eq_refl). lra.
      * apply ltb_ge in E. rewrite IH. split.
        -- intros H [| i] a b Ha Hb; simplify_eq/=; [exact E | eauto].
        -- intros H i a b Ha Hb. exact (H (S i) a b Ha Hb).
Qed.

Lemma detectChildArrangement_few (children : list FigmaNode) :
  (length (childrenWithBounds children) < 2)%nat ->
  detectChildArrangement children = complex_arr.
Proof.
  intros Hlt. unfold detectChildArrangement. apply Nat.ltb_lt in Hlt. now rewrite Hlt.
Qed.

(** C6.  With fewer than two boxed children the arrangement is complex.
    Otherwise it is vertical exactly when, the boxed children sorted by [y],
    every box starts no more than 5px before the end of the one before it;
    failing that it is horizontal exactly when the same holds for [x] and
    the widths after sorting by [x]; and complex when neither holds. *)
Theorem detectChildArrangement_classifies (children : list FigmaNode) :
  let boxes := childrenWithBounds children in
  let v := stacked y height (sort_by y boxes) in
  let h := stacked x width (sort_by x boxes) in
  ((length boxes < 2)%nat -> detectChildArrangement children = complex_arr)
  /\ ((2 <= length boxes)%nat ->
      (detectChildArrangement children = vertical_arr <-> v)
      /\ (detectChildArrangement children = horizontal_arr <-> ~ v /\ h)
      /\ (detectChildArrangement children = complex_arr <-> ~ v /\ ~ h)).
Proof.
  intros boxes v h.
  split.
  - apply detectChildArrangement_few.
  - unfold detectChildArrangement. fold boxes.
    intros Hge. apply Nat.ltb_ge in Hge. rewrite Hge.
    pose proof (no_overlap_stacked y height (sort_by y boxes)) as Hv.
    pose proof (no_overlap_stacked x width (sort_by x boxes)) as Hh.
    fold v in Hv. fold h in Hh.
    destruct (no_overlap y height (sort_by y boxes)).
    + assert (v) by now apply Hv. repeat split; try discriminate; tauto.
    + assert (~ v) by (intros Hc; apply Hv in Hc; discriminate).
      destruct (no_overlap x width (sort_by x boxes)).
      * assert (h) by now apply Hh. repeat split; try discriminate; tauto.
      * assert (~ h) by (intros Hc; apply Hh in Hc; discriminate).
        repeat split; try discriminate; tauto.
Qed.

Lemma detectChildArrangement_stacked_witness :
  detectChildArrangement threeStacked = vertical_arr.
Proof.
  apply (proj2 (detectChildArrangement_classifies threeStacked)).
  - vm_compute. lia.
  - apply no_overlap_stacked. vm_compute. reflexivity.
Defined.

Example threeOverlapping_complex :
  detectChildArrangement threeOverlapping = complex_arr.
Proof. vm_compute. reflexivity. Qed.

End ArrangementFacts.

(** ** Choice of the layout strategy *)

Section StrategyFacts.
Import JS Parser.

Lemma detectChildArrangement_flow_boxed (children : list FigmaNode) :
  detectChildArrangement children <> complex_arr ->
  (2 <= length (childrenWithBounds children))%nat.
Proof.
  intros H. destruct (Nat.ltb_spec (length (childrenWithBounds children)) 2) as [Hlt | Hge].
  - exfalso. apply H. now apply detectChildArrangement_few.
  - exact Hge.
Qed.

Lemma hasAutoLayout_declares (node : FigmaNode) :
  hasAutoLayout (fields_of node) = true <-> declaresAutoLayout node.
Proof.
  unfold hasAutoLayout, declaresAutoLayout.
  destruct (layoutMode (fields_of node)) as [[]|]; intuition congruence.
Qed.

Lemma hasChildren_childList (node : FigmaNode) :
  hasChildren node = true <-> childList node <> [].
Proof.
  unfold hasChildren, childList. destruct (children_of node) as [[]|]; cbn; intuition congruence.
Qed.

(** The claim C2 fails on a node that has children and no bounding box of
    its own: nothing is declared, the three children are boxed and stacked,
    and the strategy is neither Flexbox nor Absolute. *)
Lemma determineLayoutStrategy_page_counterexample :
  ~ declaresAutoLayout pageOfThree
  /\ childrenInFlow pageOfThree
  /\ determineLayoutStrategy pageOfThree = Static.
Proof.
  split; [| split].
  - intros [H | H]; discriminate H.
  - split; [vm_compute; lia | vm_compute; discriminate].
  - vm_compute. reflexivity.
Qed.

(** C2, amended.  A declared auto-layout gives Flexbox.  Otherwise a node
    that has a bounding box and at least one child is Flexbox when two or
    more boxed children are arranged in a column or a row, and Absolute when
    they are not.  Every other node (no child, or no bounding box) is
    Static. *)
Theorem determineLayoutStrategy_cascade (node : FigmaNode) :
  (declaresAutoLayout node -> determineLayoutStrategy node = Flexbox)
  /\ (~ declaresAutoLayout node -> is_Some (bbox_of node) ->
      childrenInFlow node -> determineLayoutStrategy node = Flexbox)
  /\ (~ declaresAutoLayout node -> is_Some (bbox_of node) ->
      childList node <> [] -> ~ childrenInFlow node ->
      determineLayoutStrategy node = Absolute)
  /\ (~ declaresAutoLayout node ->
      childList node = [] \/ bbox_of node = None ->
      determineLayoutStrategy node = Static).
Proof.
  unfold determineLayoutStrategy, childrenInFlow.
  pose proof (hasAutoLayout_declares node) as Hd.
  pose proof (hasChildren_childList node) as Hc.
  pose proof (detectChildArrangement_flow_boxed (childList node)) as Hf.
  destruct (hasAutoLayout (fields_of node)).
  { assert (declaresAutoLayout node) by now apply Hd. repeat split; tauto. }
  assert (~ declaresAutoLayout node) as Hnd by (intros D; apply Hd in D; discriminate).
  split; [tauto |].
  destruct (hasChildren node).
  - assert (childList node <> []) as Hne by now apply Hc.
    destruct (bbox_of node) as [b |] eqn:Hb.
    + rewrite bool_decide_eq_true_2 by eauto. cbn [andb].
      destruct (detectChildArrangement (childList node)) eqn:Ha.
      * repeat split; try tauto; intros; exfalso; intuition congruence.
      * repeat split; try tauto; intros; exfalso; intuition congruence.
      * repeat split; try tauto; intros; exfalso; intuition congruence.
    + rewrite bool_decide_eq_false_2 by (intros [? ?]; discriminate). cbn [andb].
      repeat split; try tauto; intros _ [? ?]; discriminate.
  - assert (childList node = []) as He.
    { destruct (childList node); [reflexivity |]. exfalso.
      assert (false = true) by (apply Hc; discriminate). discriminate. }
    cbn [andb]. rewrite He. repeat split; try tauto.
Qed.

Lemma determineLayoutStrategy_cascade_witness :
  determineLayoutStrategy frameOfThree = Flexbox.
Proof.
  apply (proj1 (proj2 (determineLayoutStrategy_cascade frameOfThree))).
  - intros [H | H]; discriminate H.
  - eexists. reflexivity.
  - split; [vm_compute; lia | vm_compute; discriminate].
Defined.

End StrategyFacts.

(** ** The containment test *)

Section ContainmentFacts.
Import JS Parser.

Lemma isDecorative_decorative (child : NodeData) :
  isDecorative child = true <-> decorative child.
Proof.
  unfold isDecorative, isDecorativeLine, isDecorativeContainer, decorative.
  rewrite orb_true_iff, !andb_true_iff, !ltb_lt, gtb_gt. reflexivity.
Qed.

Lemma isInside_within (tol : Q) (c p : BoundingBox) :
  (isInsideX tol c p && isInsideY tol c p)%bool = true <-> within tol c p.
Proof.
  unfold isInsideX, isInsideY, within.
  rewrite !andb_true_iff, !geb_ge, !leb_le. tauto.
Qed.

Lemma hasBackground_fills (p : NodeData) :
  hasBackground p = true <-> s_fills (styles p) <> [].
Proof. unfold hasBackground. destruct (s_fills (styles p)); intuition congruence. Qed.

Lemma isSmaller_lt (c p : BoundingBox) :
  isSmaller c p = true <->
  width c < width p * (95 # 100) /\ height c < height p * (95 # 100).
Proof. unfold isSmaller. now rewrite andb_true_iff, !ltb_lt. Qed.

(** C3.  A decorative child is regrouped into a candidate exactly when it
    lies within the bounds of the candidate widened by 30, whatever the
    fills of the candidate.  A child that is not decorative is regrouped
    exactly when it lies within the bounds widened by 10, the candidate has
    a visible fill, and its width and its height are each less than 95% of
    those of the candidate. *)
Theorem isVisuallyContained_rule (child cand : NodeData) :
  (decorative child ->
   (isVisuallyContained child cand = true <-> within 30 (bounds child) (bounds cand)))
  /\ (~ decorative child ->
      (isVisuallyContained child cand = true <->
       within 10 (bounds child) (bounds cand)
       /\ s_fills (styles cand) <> []
       /\ width (bounds child) < width (bounds cand) * (95 # 100)
       /\ height (bounds child) < height (bounds cand) * (95 # 100))).
Proof.
  unfold isVisuallyContained.
  pose proof (isDecorative_decorative child) as Hd.
  destruct (isDecorative child).
  - assert (decorative child) as D by now apply Hd.
    split; [intros _ | tauto].
    pose proof (isInside_within 30 (bounds child) (bounds cand)) as Hin.
    cbn [andb].
    destruct (isInsideX 30 (bounds child) (bounds cand) &&
              isInsideY 30 (bounds child) (bounds cand))%bool.
    + tauto.
    + cbn [andb]. split; [discriminate | intros W; apply Hin in W; discriminate].
  - assert (~ decorative child) as D by (intros D; apply Hd in D; discriminate).
    split; [tauto | intros _]. cbn [andb].
    rewrite <- isInside_within, <- hasBackground_fills, <- isSmaller_lt.
    rewrite <- !andb_true_iff, !andb_assoc. reflexivity.
Qed.

Lemma isVisuallyContained_rule_witness :
  isVisuallyContained thinBar plainCard = true
  /\ isVisuallyContained textLabel plainCard = false
  /\ isVisuallyContained textLabel filledCard = true.
Proof.
  split; [| split].
  - apply (proj1 (isVisuallyContained_rule thinBar plainCard)).
    + left. vm_compute. split; reflexivity.
    + vm_compute. repeat split; discriminate.
  - vm_compute. reflexivity.
  - apply (proj2 (isVisuallyContained_rule textLabel filledCard)).
    + intros [[H _] | [_ H]]; vm_compute in H; discriminate H.
    + vm_compute. repeat split; discriminate.
Defined.

End ContainmentFacts.

(** ** Gap estimation *)

Section GapFacts.
Import JS Parser.

Lemma consecutiveGaps_nonneg (start size : BoundingBox -> Q) (sorted : list BoundingBox) :
  Forall (fun g => 0 <= g) (consecutiveGaps start size sorted).
Proof.
  induction sorted as [| cur l IH]; [constructor |].
  destruct l as [| next l]; [constructor |].
  change (consecutiveGaps start size (cur :: next :: l))
    with ((if geb (start next - (start cur + size cur)) 0
           then [start next - (start cur + size cur)] else [])
          ++ consecutiveGaps start size (next :: l))%list.
  apply Forall_app. split; [| exact IH].
  destruct (geb _ 0) eqn:E; [| constructor].
  constructor; [now apply geb_ge | constructor].
Qed.

Lemma collectGaps_nonneg (children : list FigmaNode) (arrangement : Arrangement) :
  Forall (fun g => 0 <= g) (collectGaps children arrangement).
Proof.
  unfold collectGaps. destruct arrangement;
    [apply consecutiveGaps_nonneg | apply consecutiveGaps_nonneg | constructor].
Qed.

Lemma consecutiveGaps_short (start size : BoundingBox -> Q) (sorted : list BoundingBox) :
  (length sorted < 2)%nat -> consecutiveGaps start size sorted = [].
Proof. destruct sorted as [| a [| b l]]; cbn; intros; [reflexivity | reflexivity | lia]. Qed.

Lemma childrenWithBounds_length (children : list FigmaNode) :
  (length (childrenWithBounds children) <= length children)%nat.
Proof.
  unfold childrenWithBounds. induction children as [| c l IH]; cbn; [lia |].
  destruct (bbox_of c); cbn; lia.
Qed.

(** [calculateChildGaps] is the estimate over the collected samples. *)
Lemma calculateChildGaps_averageGapOf (children : list FigmaNode) (arrangement : Arrangement) :
  calculateChildGaps children arrangement
  = averageGapOf (collectGaps children arrangement).
Proof.
  unfold calculateChildGaps. destruct (Nat.ltb_spec (length children) 2) as [Hlt | Hge];
    [| reflexivity].
  pose proof (childrenWithBounds_length children) as Hb.
  unfold collectGaps. destruct arrangement; [| | reflexivity];
    rewrite consecutiveGaps_short; try reflexivity; rewrite sort_by_length; lia.
Qed.

Lemma geb_negb_ltb (a b : Q) : geb a b = negb (ltb a b).
Proof. unfold geb, ltb, leb. now rewrite negb_involutive. Qed.

Lemma averageGapOf_many (gaps : list Q) :
  (2 <= length gaps)%nat ->
  averageGapOf gaps =
    let preciseGap := round2 (mean (retained gaps)) in
    if ltb preciseGap 0 then 0 else if gtb preciseGap 200 then 24 else preciseGap.
Proof.
  intros Hlen. destruct gaps as [| a [| b l]]; [cbn in Hlen; lia | cbn in Hlen; lia |].
  unfold averageGapOf, retained, mean, medianOf.
  rewrite sort_by_length.
  set (kept := List.filter _ _).
  rewrite (geb_negb_ltb (lengthQ kept)).
  destruct (ltb (lengthQ kept) (lengthQ (a :: b :: l) * (1 # 2))); reflexivity.
Qed.



End GapFacts.

(** ** The gap of a detected flexbox *)

Section DetectedGapFacts.
Import JS Parser.

Lemma childrenInFlow_dec (node : FigmaNode) : childrenInFlow node \/ ~ childrenInFlow node.
Proof.
  unfold childrenInFlow.
  destruct (le_dec 2 (length (childrenWithBounds (childList node)))) as [H | H];
    [| right; tauto].
  destruct (detectChildArrangement (childList node));
    [left | left | right]; intuition congruence.
Qed.

Lemma extractLayout_strategy (node : FigmaNode) :
  strategy (extractLayout node) = determineLayoutStrategy node.
Proof.
  unfold extractLayout. cbn [strategy].
  destruct (hasAutoLayout (fields_of node)); [reflexivity |].
  match goal with |- context [if ?c then _ else _] => destruct c end; reflexivity.
Qed.

Lemma detected_flexbox_children (node : FigmaNode) :
  ~ declaresAutoLayout node -> determineLayoutStrategy node = Flexbox ->
  (2 <= length (childList node))%nat.
Proof.
  intros Hnd. unfold determineLayoutStrategy.
  destruct (hasAutoLayout (fields_of node)) eqn:Ha.
  { exfalso. apply Hnd. now apply hasAutoLayout_declares. }
  destruct (hasChildren node && _)%bool; [| discriminate].
  destruct (detectChildArrangement (childList node)) eqn:Harr; [| | discriminate];
    intros _;
    pose proof (childrenWithBounds_length (childList node));
    assert (2 <= length (childrenWithBounds (childList node)))%nat
      by (apply detectChildArrangement_flow_boxed; rewrite Harr; discriminate);
    lia.
Qed.

(** C9.  On a node whose Flexbox strategy was detected from the arrangement
    of its children, [gap] is the estimated average gap when the estimate is
    greater than 0.5, and is absent when the estimate is 0.5 or less. *)
Theorem extractLayout_detected_gap (node : FigmaNode) :
  ~ declaresAutoLayout node ->
  strategy (extractLayout node) = Flexbox ->
  let estimate :=
    calculateChildGaps (childList node) (detectChildArrangement (childList node)) in
  (1 # 2 < estimate -> gap (extractLayout node) = Some estimate)
  /\ (estimate <= 1 # 2 -> gap (extractLayout node) = None).
Proof.
  intros Hnd Hs estimate.
  rewrite extractLayout_strategy in Hs.
  pose proof (detected_flexbox_children node Hnd Hs) as Hlen.
  unfold extractLayout. cbn [gap strategy].
  destruct (hasAutoLayout (fields_of node)) eqn:Ha.
  { exfalso. apply Hnd. now apply hasAutoLayout_declares. }
  rewrite Hs. cbn [eq_strategy andb].
  assert ((1 <? length (childList node))%nat = true) as -> by (apply Nat.ltb_lt; lia).
  unfold detectedFlexLayout. cbn [gap]. fold estimate.
  split; intros H.
  - apply gtb_gt in H. now rewrite H.
  - assert (gtb estimate (1 # 2) = false) as -> by now apply ltb_ge.
    reflexivity.
Qed.

Lemma extractLayout_detected_gap_witness :
  calculateChildGaps (childList tightFrame) (detectChildArrangement (childList tightFrame))
  == 4 # 10
  /\ gap (extractLayout tightFrame) = None.
Proof.
  split; [vm_compute; reflexivity |].
  apply (extractLayout_detected_gap tightFrame).
  - intros [H | H]; discriminate H.
  - vm_compute. reflexivity.
  - vm_compute. discriminate.
Defined.

End DetectedGapFacts.

(** ** The layout engine *)

Section EngineFacts.
Import JS Parser LayoutEngine.
Variable numToString : Q -> string.

Local Ltac other_key :=
  repeat first [ rewrite lookup_insert_ne by discriminate
               | rewrite lookup_delete_ne by discriminate ].

Local Ltac split_cases :=
  repeat first
    [ progress other_key
    | match goal with
      | |- context [if ?c then _ else _] => destruct c
      | |- context [match ?o with Some _ => _ | None => _ end] => destruct o
      end ].

Lemma applyHeight_flexbox (l : LayoutProperties) (css : CSSProperties) (h : Q) :
  l_height l = Some h -> 0 < h -> strategy l = Flexbox ->
  applyHeight numToString l css !! "minHeight" = Some (px numToString (round2 h))
  /\ applyHeight numToString l css !! "height" = css !! "height".
Proof.
  intros Hh Hpos Hs. unfold applyHeight. rewrite Hh, Hs.
  apply gtb_gt in Hpos. rewrite Hpos.
  split; [apply lookup_insert_eq | now other_key].
Qed.



Lemma applyFlexboxLayout_heights (l : LayoutProperties) (css : CSSProperties) (k : string) :
  k = "height" \/ k = "minHeight" ->
  applyFlexboxLayout numToString css l !! k = css !! k.
Proof.
  intros [-> | ->]; unfold applyFlexboxLayout, flexPadding, setIf; now split_cases.
Qed.

Lemma applyWidth_heights (l : LayoutProperties) (css : CSSProperties) (k : string) :
  k = "height" \/ k = "minHeight" ->
  applyWidth numToString l css !! k = css !! k.
Proof. intros [-> | ->]; unfold applyWidth, setIf; now split_cases. Qed.

Lemma applyCentering_heights (node : NodeData) (parentNode : option NodeData)
  (css : CSSProperties) (k : string) :
  k = "height" \/ k = "minHeight" ->
  applyCentering node parentNode css !! k = css !! k.
Proof.
  intros Hk. unfold applyCentering.
  destruct parentNode as [parent |]; [| reflexivity].
  destruct (position (layout node)); [| reflexivity].
  destruct (position (layout parent)); [| reflexivity].
  destruct (_ && _ && _)%bool; [| reflexivity].
  cbv zeta.
  destruct Hk as [-> | ->];
    repeat match goal with
           | |- context [if ?c then _ else _] => destruct c
           end;
    now other_key.
Qed.

Lemma applyConstraints_minHeight (c : Constraints) (css : CSSProperties) :
  applyConstraints css c !! "minHeight" = css !! "minHeight".
Proof.
  unfold applyConstraints, applyVerticalConstraint, applyHorizontalConstraint, setIf.
  now split_cases.
Qed.

Lemma applyConstraints_no_height (c : Constraints) (css : CSSProperties) :
  css !! "height" = None -> applyConstraints css c !! "height" = None.
Proof.
  intros H. unfold applyConstraints.
  assert (applyHorizontalConstraint (horizontal c) css !! "height" = None) as Hh.
  { unfold applyHorizontalConstraint, setIf. now split_cases. }
  revert Hh. generalize (applyHorizontalConstraint (horizontal c) css). intros css' Hh.
  unfold applyVerticalConstraint, setIf. rewrite Hh. cbn [truthy_str].
  split_cases; rewrite ?lookup_delete_eq; auto.
Qed.

(** On the whole of [generateLayoutCSS], a Flexbox node with a height
    greater than 0 ends with that height as [minHeight] and with no
    [height]. *)
Lemma generateLayoutCSS_flexbox_height (node : NodeData) (parentNode : option NodeData)
  (h : Q) :
  strategy (layout node) = Flexbox -> l_height (layout node) = Some h -> 0 < h ->
  generateLayoutCSS numToString node parentNode !! "minHeight"
  = Some (px numToString (round2 h))
  /\ generateLayoutCSS numToString node parentNode !! "height" = None.
Proof.
  intros Hs Hh Hpos.
  assert (effectiveStrategy node parentNode = Flexbox) as He.
  { unfold effectiveStrategy. rewrite Hs. cbn [eq_strategy]. now rewrite andb_false_r. }
  unfold generateLayoutCSS, applyStrategy. rewrite He.
  set (css := applyCentering _ _ _).
  assert (css !! "height" = None) as Hc.
  { unfold css. rewrite applyCentering_heights, applyWidth_heights,
      applyFlexboxLayout_heights by now left. apply lookup_empty. }
  destruct (applyHeight_flexbox (layout node) css h Hh Hpos Hs) as [F1 F2].
  rewrite Hc in F2.
  destruct (l_constraints (layout node)).
  - now rewrite applyConstraints_minHeight, applyConstraints_no_height.
  - now split.
Qed.

Lemma fourPadding_position (l : LayoutProperties) (css : CSSProperties) :
  fourPadding numToString l css !! "position" = css !! "position".
Proof. unfold fourPadding. now split_cases. Qed.

Lemma applyWidth_position (l : LayoutProperties) (css : CSSProperties) :
  applyWidth numToString l css !! "position" = css !! "position".
Proof. unfold applyWidth, setIf. now split_cases. Qed.

Lemma applyHeight_position (l : LayoutProperties) (css : CSSProperties) :
  applyHeight numToString l css !! "position" = css !! "position".
Proof. unfold applyHeight. destruct (l_height l); [| reflexivity].
  destruct (gtb q 0); [| reflexivity]. destruct (strategy l); now other_key. Qed.

Lemma applyConstraints_position (c : Constraints) (css : CSSProperties) :
  applyConstraints css c !! "position" = css !! "position".
Proof.
  unfold applyConstraints, applyVerticalConstraint, applyHorizontalConstraint, setIf.
  now split_cases.
Qed.

Lemma applyCentering_position (node : NodeData) (parentNode : option NodeData)
  (css : CSSProperties) :
  css !! "position" = None ->
  applyCentering node parentNode css !! "position" = None.
Proof.
  intros H. unfold applyCentering.
  destruct parentNode as [parent |]; [| exact H].
  destruct (position (layout node)); [| exact H].
  destruct (position (layout parent)); [| exact H].
  destruct (_ && _ && _)%bool; [| exact H].
  cbv zeta.
  repeat match goal with
         | |- context [if ?c then _ else _] => destruct c
         end;
    other_key; rewrite ?lookup_delete_eq; auto.
Qed.

(** The override as the engine does it: a node that the engine takes for
    decorative, laid out
    absolutely inside a flexbox, is rendered by the static branch, and no
    [position] is written for it. *)
Lemma generateLayoutCSS_decorative_static (node parent : NodeData) :
  (isDecorativeLine (layout node) || isDecorativeContainer node)%bool = true ->
  strategy (layout node) = Absolute ->
  strategy (layout parent) = Flexbox ->
  effectiveStrategy node (Some parent) = Static
  /\ generateLayoutCSS numToString node (Some parent) !! "position" = None.
Proof.
  intros Hd Ha Hp.
  assert (effectiveStrategy node (Some parent) = Static) as He.
  { unfold effectiveStrategy, parentIsFlexbox. now rewrite Hd, Ha, Hp. }
  split; [exact He |].
  unfold generateLayoutCSS, applyStrategy. rewrite He. unfold applyStaticLayout.
  assert (applyHeight numToString (layout node)
            (applyCentering node (Some parent)
               (applyWidth numToString (layout node)
                  (fourPadding numToString (layout node) ∅))) !! "position" = None) as H.
  { rewrite applyHeight_position. apply applyCentering_position.
    rewrite applyWidth_position, fourPadding_position. apply lookup_empty. }
  destruct (l_constraints (layout node)); [| exact H].
  now rewrite applyConstraints_position.
Qed.

(** C7, on two nodes that the claim takes for decorative, each laid out
    absolutely inside a flexbox column.  A line of height 0 and width 40 is
    not taken for decorative by the engine, whose test of the height gives
    false at 0: it keeps the Absolute strategy and is given [position],
    [left] and [top].  A bar of height 4 and width 40 is rendered by the
    static branch, and the centring step then gives it a [left] and a
    [transform], its own strategy being Absolute. *)
Theorem generateLayoutCSS_decorative_in_column :
  (height (bounds absoluteHairline) < 10 /\ 20 < width (bounds absoluteHairline)
   /\ strategy (layout absoluteHairline) = Absolute
   /\ strategy (layout flexColumn) = Flexbox
   /\ effectiveStrategy absoluteHairline (Some flexColumn) = Absolute
   /\ generateLayoutCSS numToString absoluteHairline (Some flexColumn) !! "position"
      = Some "absolute"
   /\ generateLayoutCSS numToString absoluteHairline (Some flexColumn) !! "left"
      = Some (px numToString (round2 130))
   /\ generateLayoutCSS numToString absoluteHairline (Some flexColumn) !! "top"
      = Some (px numToString (round2 300)))
  /\ (height (bounds absoluteBar) < 10 /\ 20 < width (bounds absoluteBar)
      /\ strategy (layout absoluteBar) = Absolute
      /\ effectiveStrategy absoluteBar (Some flexColumn) = Static
      /\ generateLayoutCSS numToString absoluteBar (Some flexColumn) !! "position" = None
      /\ generateLayoutCSS numToString absoluteBar (Some flexColumn) !! "left"
         = Some "50%"
      /\ generateLayoutCSS numToString absoluteBar (Some flexColumn) !! "transform"
         = Some "translateX(-50%)").
Proof.
  repeat split; vm_compute; reflexivity.
Qed.

End EngineFacts.

Section EngineWitness.
Import JS Parser LayoutEngine.


End EngineWitness.

(** ** The alignment vote *)

Section VoteFacts.
Import JS Parser.

Section Counting.
Variables (start size : BoundingBox -> Q) (parentBounds : BoundingBox).

Lemma countChild_fold (boxes : list BoundingBox) (v : Votes) :
  fold_left (countChild start size parentBounds) boxes v
  = mkVotes
      (centeredCount v + length (List.filter (votesCenter start size parentBounds) boxes))
      (startCount v + length (List.filter (votesStart start size parentBounds) boxes))
      (endCount v + length (List.filter (votesEnd start size parentBounds) boxes)).
Proof.
  revert v. induction boxes as [| b l IH]; intros v.
  - destruct v. cbn. now rewrite !Nat.add_0_r.
  - cbn [fold_left]. rewrite IH. unfold countChild, votesEnd, votesStart.
    cbn [List.filter]. unfold Math_abs.
    change (ltb (Qabs (start b + size b / 2 - (start parentBounds + size parentBounds / 2))) 2)
      with (votesCenter start size parentBounds b).
    destruct (votesCenter start size parentBounds b); cbn [negb andb centeredCount startCount endCount length].
    + f_equal; lia.
    + destruct (ltb (Qabs (start b - start parentBounds)) 5);
        cbn [negb andb centeredCount startCount endCount length].
      * f_equal; lia.
      * destruct (ltb (Qabs (start b + size b - (start parentBounds + size parentBounds))) 5);
          cbn [negb andb centeredCount startCount endCount length]; f_equal; lia.
Qed.

(** The three counts are the numbers of children in the three categories. *)
Lemma countVotes_counts (boxes : list BoundingBox) :
  countVotes start size parentBounds boxes
  = mkVotes (length (List.filter (votesCenter start size parentBounds) boxes))
            (length (List.filter (votesStart start size parentBounds) boxes))
            (length (List.filter (votesEnd start size parentBounds) boxes)).
Proof. unfold countVotes. now rewrite countChild_fold. Qed.

Lemma allFullSize_allStretched (boxes : list BoundingBox) :
  allFullSize size parentBounds boxes = true <-> allStretched size parentBounds boxes.
Proof.
  unfold allFullSize, allStretched. rewrite forallb_forall, List.Forall_forall.
  unfold Math_abs. split; intros H b Hb; apply ltb_lt, H, Hb.
Qed.

End Counting.

Lemma meetsThreshold_geb (total count : nat) :
  geb (natQ count) (natQ total * (if (3 <=? total)%nat then 6 # 10 else 5 # 10)) = true
  <-> meetsThreshold total count.
Proof. unfold meetsThreshold. apply geb_ge. Qed.

(** The claim C5 fails on a tie: one child is centred, one is at the start,
    none at the end, no category has 0.6 of the three children, and the
    result is the start, not the centre. *)
Lemma detectAlignment_tie_counterexample :
  let v := countVotes x width (mkBox 0 0 300 400) (childrenWithBounds tieChildren) in
  centeredCount v = 1%nat /\ startCount v = 1%nat /\ endCount v = 0%nat
  /\ ~ meetsThreshold 3 1
  /\ a_alignItems (detectAlignment tieFrame tieChildren vertical_arr) = Some "flex-start".
Proof.
  cbv zeta. repeat split; try (vm_compute; reflexivity).
  vm_compute. intros H. now apply H.
Qed.

Lemma crossAxisAlignItems_cascade (start size : BoundingBox -> Q)
  (parentBounds : BoundingBox) (boxes : list BoundingBox) :
  let c := length (List.filter (votesCenter start size parentBounds) boxes) in
  let s := length (List.filter (votesStart start size parentBounds) boxes) in
  let e := length (List.filter (votesEnd start size parentBounds) boxes) in
  let meets := meetsThreshold (length boxes) in
  let result := crossAxisAlignItems start size parentBounds boxes in
  (meets c -> result = "center")
  /\ (~ meets c -> meets s -> result = "flex-start")
  /\ (~ meets c -> ~ meets s -> meets e -> result = "flex-end")
  /\ (~ meets c -> ~ meets s -> ~ meets e ->
      ((s < c)%nat /\ (e < c)%nat -> result = "center")
      /\ (~ ((s < c)%nat /\ (e < c)%nat) -> (e < s)%nat -> result = "flex-start")
      /\ (~ ((s < c)%nat /\ (e < c)%nat) -> (s < e)%nat -> result = "flex-end")
      /\ (~ ((s < c)%nat /\ (e < c)%nat) -> s = e ->
          (allStretched size parentBounds boxes -> result = "stretch")
          /\ (~ allStretched size parentBounds boxes -> result = "flex-start"))).
Proof.
  intros c s e meets result.
  unfold result, crossAxisAlignItems, decideAlignItems.
  rewrite countVotes_counts. cbn [centeredCount startCount endCount].
  fold c s e.
  pose proof (meetsThreshold_geb (length boxes) c) as Hc.
  pose proof (meetsThreshold_geb (length boxes) s) as Hs.
  pose proof (meetsThreshold_geb (length boxes) e) as He.
  pose proof (allFullSize_allStretched size parentBounds boxes) as Hst.
  fold meets in Hc, Hs, He.
  destruct (geb (natQ c) _).
  { assert (meets c) by now apply Hc. repeat split; tauto. }
  assert (~ meets c) by (intros M; apply Hc in M; discriminate).
  destruct (geb (natQ s) _).
  { assert (meets s) by now apply Hs. repeat split; tauto. }
  assert (~ meets s) by (intros M; apply Hs in M; discriminate).
  destruct (geb (natQ e) _).
  { assert (meets e) by now apply He. repeat split; tauto. }
  assert (~ meets e) by (intros M; apply He in M; discriminate).
  destruct (Nat.ltb_spec s c) as [Hsc | Hsc]; destruct (Nat.ltb_spec e c) as [Hec | Hec];
    cbn [andb];
    destruct (Nat.ltb_spec e s) as [Hes | Hes]; destruct (Nat.ltb_spec s e) as [Hse | Hse];
    try lia;
    destruct (allFullSize size parentBounds boxes);
    repeat split; intros; try tauto; try lia;
    try (exfalso; intuition (discriminate || lia)).
Qed.

Lemma detectAlignment_alignItems (parent : FigmaNode) (children : list FigmaNode)
  (parentBounds : BoundingBox) :
  bbox_of parent = Some parentBounds -> childrenWithBounds children <> [] ->
  a_alignItems (detectAlignment parent children vertical_arr)
  = Some (crossAxisAlignItems x width parentBounds (childrenWithBounds children))
  /\ a_alignItems (detectAlignment parent children horizontal_arr)
     = Some (crossAxisAlignItems y height parentBounds (childrenWithBounds children)).
Proof.
  intros Hb Hne. unfold detectAlignment. rewrite Hb.
  destruct (childrenWithBounds children); [congruence | now split].
Qed.

(** C5, amended.  The children of a column vote on [x] and the widths,
    those of a row on [y] and the heights.  The counts are those of the centred children, of the
    others at the start, and of the rest at the end.  The first of centre,
    start and end whose count is at least the threshold share of the
    children wins.  When none is, the centre wins if its count is greater
    than both others; failing that the start wins if its count is greater
    than that of the end, and the end if its count is greater than that of
    the start; with the counts of start and end equal the result is stretch
    when every child is within 10px of the size of the parent, and the start
    otherwise. *)
Theorem detectAlignment_vote (parent : FigmaNode) (children : list FigmaNode)
  (parentBounds : BoundingBox) (inColumn : bool) :
  bbox_of parent = Some parentBounds -> childrenWithBounds children <> [] ->
  let start := if inColumn then x else y in
  let size := if inColumn then width else height in
  let boxes := childrenWithBounds children in
  let c := length (List.filter (votesCenter start size parentBounds) boxes) in
  let s := length (List.filter (votesStart start size parentBounds) boxes) in
  let e := length (List.filter (votesEnd start size parentBounds) boxes) in
  let meets := meetsThreshold (length boxes) in
  let result :=
    a_alignItems (detectAlignment parent children
                    (if inColumn then vertical_arr else horizontal_arr)) in
  (meets c -> result = Some "center")
  /\ (~ meets c -> meets s -> result = Some "flex-start")
  /\ (~ meets c -> ~ meets s -> meets e -> result = Some "flex-end")
  /\ (~ meets c -> ~ meets s -> ~ meets e ->
      ((s < c)%nat /\ (e < c)%nat -> result = Some "center")
      /\ (~ ((s < c)%nat /\ (e < c)%nat) -> (e < s)%nat -> result = Some "flex-start")
      /\ (~ ((s < c)%nat /\ (e < c)%nat) -> (s < e)%nat -> result = Some "flex-end")
      /\ (~ ((s < c)%nat /\ (e < c)%nat) -> s = e ->
          (allStretched size parentBounds boxes -> result = Some "stretch")
          /\ (~ allStretched size parentBounds boxes -> result = Some "flex-start"))).
Proof.
  intros Hb Hne start size boxes c s e meets result.
  destruct (detectAlignment_alignItems parent children parentBounds Hb Hne) as [Hv Hh].
  assert (result = Some (crossAxisAlignItems start size parentBounds boxes)) as ->.
  { unfold result, start, size. now destruct inColumn. }
  pose proof (crossAxisAlignItems_cascade start size parentBounds boxes) as H.
  cbv zeta in H. fold c s e meets in H.
  destruct H as (H1 & H2 & H3 & H4).
  split; [| split; [| split]].
  - intros M. now rewrite H1.
  - intros M1 M2. now rewrite H2.
  - intros M1 M2 M3. now rewrite H3.
  - intros M1 M2 M3. destruct (H4 M1 M2 M3) as (G1 & G2 & G3 & G4).
    split; [| split; [| split]].
    + intros G. now rewrite G1.
    + intros N G. now rewrite G2.
    + intros N G. now rewrite G3.
    + intros N G. destruct (G4 N G) as [S1 S2]. split; intros A.
      * now rewrite S1.
      * now rewrite S2.
Qed.

Lemma detectAlignment_vote_witness :
  a_alignItems (detectAlignment tieFrame tieChildren vertical_arr) = Some "flex-start".
Proof.
  pose proof (detectAlignment_vote tieFrame tieChildren (mkBox 0 0 300 400) true eq_refl)
    as H.
  cbv zeta in H.
  destruct H as (_ & _ & _ & H); [discriminate |].
  destruct H as (_ & H & _).
  - vm_compute. intros M. now apply M.
  - vm_compute. intros M. now apply M.
  - vm_compute. intros M. now apply M.
  - apply H.
    + vm_compute. lia.
    + vm_compute. lia.
Defined.

End VoteFacts.

(** ** Isolation of a node that fails to parse *)

Section IsolationFacts.
Import JS Parser.

Lemma FigmaNode_nested_ind (P : FigmaNode -> Prop) :
  (forall f, P (FNode f None)) ->
  (forall f cs, Forall P cs -> P (FNode f (Some cs))) ->
  forall n, P n.
Proof.
  intros Hleaf Hnode.
  fix IH 1. intros [f [cs |]]; [| apply Hleaf].
  apply Hnode. induction cs as [| c cs IHcs]; constructor; [apply IH | exact IHcs].
Qed.

Lemma componentInfo_pure (components : gmap string Component) (f : FigmaFields) :
  (exists info, returns (componentInfo components f) info [])
  \/ (exists e, forall ws, componentInfo components f ws = (inl e, ws)).
Proof.
  unfold componentInfo, returns.
  destruct (isInstance (type f) && truthy_str (componentId f))%bool.
  - destruct (components !! default "" (componentId f)) as [[[nm |]] |].
    + left. eexists. intros ws. cbn. now rewrite app_nil_r.
    + right. eexists. intros ws. reflexivity.
    + left. eexists. intros ws. cbn. now rewrite app_nil_r.
  - left. eexists. intros ws. cbn. now rewrite app_nil_r.
Qed.

Lemma mapM_returns {A B} (f : A -> M B) (l : list A) :
  Forall (fun a => exists b W, returns (f a) b W) l ->
  exists bs W, returns (mapM f l) bs W
               /\ Forall2 (fun a b => exists W', returns (f a) b W') l bs.
Proof.
  induction 1 as [| a l (b & W & Hb) _ (bs & Ws & Hbs & Hall)].
  - exists [], []. split; [| constructor]. intros ws. cbn. now rewrite app_nil_r.
  - exists (b :: bs), (W ++ Ws)%list. split.
    + intros ws. cbn [mapM]. unfold bind. rewrite Hb.
      change ((fix go (l0 : list A) : M (list B) :=
                 match l0 with
                 | [] => ret []
                 | a0 :: l' => bind (f a0) (fun b0 => bind (go l') (fun bs0 => ret (b0 :: bs0)))
                 end) l) with (mapM f l).
      rewrite Hbs. cbn. now rewrite app_assoc.
    + constructor; [now exists W | exact Hall].
Qed.

(** [parseNode] returns on every node, adding warnings and never throwing. *)
Lemma parseNode_returns (components : gmap string Component) (node : FigmaNode) :
  exists p W, returns (parseNode components node) p W.
Proof.
  induction node as [f | f cs IH] using FigmaNode_nested_ind.
  - destruct (componentInfo_pure components f) as [[info Hi] | [e He]].
    + eexists _, []. intros ws. cbn [parseNode]. unfold tryCatch, parseBody, bind.
      cbn [fields_of children_of]. rewrite Hi. cbn. reflexivity.
    + eexists _, [_]. intros ws. cbn [parseNode]. unfold tryCatch, parseBody, bind.
      cbn [fields_of children_of]. rewrite He. cbn. reflexivity.
  - destruct (componentInfo_pure components f) as [[info Hi] | [e He]].
    + destruct (mapM_returns (parseNode components) cs IH) as (kids & W & Hk & _).
      eexists _, W. intros ws. cbn [parseNode]. unfold tryCatch, parseBody, bind.
      cbn [fields_of children_of]. rewrite Hi, app_nil_r, Hk. reflexivity.
    + eexists _, [_]. intros ws. cbn [parseNode]. unfold tryCatch, parseBody, bind.
      cbn [fields_of children_of]. rewrite He. cbn. reflexivity.
Qed.

Lemma parseNode_unfold (components : gmap string Component) (node : FigmaNode) :
  parseNode components node
  = tryCatch (parseBody components (parseNode components) node)
             (fun error => _ <- pushWarning (errorMsg (fields_of node) error) ;;
                           ret (minimalNode (fields_of node))).
Proof. now destruct node. Qed.

(** C8.  [parseNode] returns a node for every input and throws nothing; the
    warnings it leaves extend the warnings it found.  When the [try] block of
    a node throws, the node returned is the leaf of size zero with the Static
    strategy and the default styles, and the warning of the failure is in the
    list that [getWarnings] gives.  A node whose own fields parse has one
    parsed child for each of its children, each what [parseNode] returns for
    that child, failed or not. *)
Theorem parseNode_isolates (components : gmap string Component) (node : FigmaNode)
  (ws : list string) :
  (exists p W, parseNode components node ws = (inr p, (ws ++ W)%list))
  /\ (forall e ws1,
        parseBody components (parseNode components) node ws = (inl e, ws1) ->
        let failed := minimalNode (fields_of node) in
        parseNode components node ws
        = (inr failed, (ws1 ++ [errorMsg (fields_of node) e])%list)
        /\ bounds (data_of failed) = mkBox 0 0 0 0
        /\ pchildren failed = []
        /\ strategy (layout (data_of failed)) = Static
        /\ styles (data_of failed) = getDefaultStyles
        /\ errorMsg (fields_of node) e
           ∈ getWarnings (snd (parseNode components node ws)))
  /\ (forall cs info,
        children_of node = Some cs ->
        componentInfo components (fields_of node) ws = (inr info, ws) ->
        exists p ws',
          parseNode components node ws = (inr p, ws')
          /\ Forall2 (fun c k => forall w, fst (parseNode components c w) = inr k)
                     cs (pchildren p)).
Proof.
  split; [| split].
  - destruct (parseNode_returns components node) as (p & W & H). now exists p, W.
  - intros e ws1 Hbody failed.
    assert (parseNode components node ws
            = (inr failed, (ws1 ++ [errorMsg (fields_of node) e])%list)) as Hp.
    { rewrite parseNode_unfold. unfold tryCatch. rewrite Hbody. reflexivity. }
    repeat split; try reflexivity; [exact Hp |].
    rewrite Hp. unfold getWarnings. cbn [snd].
    apply elem_of_app. right. apply list_elem_of_singleton. reflexivity.
  - intros cs info Hcs Hinfo.
    assert (Forall (fun c => exists p W, returns (parseNode components c) p W) cs) as Hall.
    { apply List.Forall_forall. intros c _. apply parseNode_returns. }
    destruct (mapM_returns (parseNode components) cs Hall) as (kids & W & Hk & H2).
    eexists _, _. split.
    + rewrite parseNode_unfold. unfold tryCatch, parseBody, bind.
      rewrite Hinfo, Hcs, Hk. reflexivity.
    + cbn [pchildren]. eapply Forall2_impl; [exact H2 |].
      intros c k [W' Hr] w. now rewrite Hr.
Qed.

Lemma parseNode_isolates_witness :
  parseNode namelessComponents instanceNode []
  = (inr (minimalNode (fields_of instanceNode)),
     [errorMsg (fields_of instanceNode)
        "TypeError: Cannot read properties of undefined (reading 'toLowerCase')"])
  /\ exists p ws',
      parseNode namelessComponents frameWithInstance [] = (inr p, ws')
      /\ Forall2 (fun c k => forall w, fst (parseNode namelessComponents c w) = inr k)
                 (childList frameWithInstance) (pchildren p).
Proof.
  split.
  - apply (proj1 (proj2 (parseNode_isolates namelessComponents instanceNode []))
             "TypeError: Cannot read properties of undefined (reading 'toLowerCase')" []).
    vm_compute. reflexivity.
  - apply (proj2 (proj2 (parseNode_isolates namelessComponents frameWithInstance []))
             (childList frameWithInstance) (None, None)).
    + reflexivity.
    + vm_compute. reflexivity.
Defined.

(** The frame of the example: the instance fails, the frame and the two
    boxes beside the instance are parsed, and one warning is left. *)
Example frameWithInstance_parsed :
  exists frame a b c w,
    parseNode namelessComponents frameWithInstance [] = (inr (PNode frame [a; b; c]), [w])
    /\ strategy (layout frame) = Flexbox
    /\ bounds (data_of a) = mkBox 0 0 100 50
    /\ b = minimalNode (fields_of instanceNode)
    /\ bounds (data_of c) = mkBox 0 110 100 50.
Proof.
  do 5 eexists. split; [vm_compute; reflexivity |].
  repeat split; vm_compute; reflexivity.
Qed.

End IsolationFacts.

(** ** Regrouping keeps the tree below the root a tree *)

Section RegroupFacts.
Import JS Parser.

Lemma HTree_nested_ind (P : HTree -> Prop) :
  (forall h d cs, Forall P cs -> P (HNode h d cs)) ->
  forall t, P t.
Proof.
  intros Hnode. fix IH 1. intros [h d cs]. apply Hnode.
  induction cs as [| c cs IHcs]; constructor; [apply IH | exact IHcs].
Qed.

Lemma tree_at_node (s : Store) (h : handle) (d : NodeData) (cs : list HTree) :
  tree_at s (HNode h d cs)
  <-> s !! h = Some (mkObj d (map rootOf cs)) /\ Forall (tree_at s) cs.
Proof.
  cbn [tree_at]. split; intros [H1 H2]; (split; [exact H1 |]); clear H1.
  - induction cs as [| c cs IH]; constructor; [apply H2 | apply IH, H2].
  - induction H2 as [| c cs Hc _ IH]; [exact I | split; [exact Hc | exact IH]].
Qed.

Lemma handles_node (h : handle) (d : NodeData) (cs : list HTree) :
  handles (HNode h d cs) = h :: flat_map handles cs.
Proof. reflexivity. Qed.

Lemma elem_of_flat_map {A B} (f : A -> list B) (l : list A) (b : B) :
  b ∈ flat_map f l <-> exists a, a ∈ l /\ b ∈ f a.
Proof.
  rewrite list_elem_of_In, in_flat_map. setoid_rewrite list_elem_of_In. reflexivity.
Qed.

Lemma elem_of_map {A B} (f : A -> B) (l : list A) (b : B) :
  b ∈ map f l <-> exists a, b = f a /\ a ∈ l.
Proof.
  rewrite list_elem_of_In, in_map_iff. setoid_rewrite list_elem_of_In.
  split; intros (a & H1 & H2); exists a; split; congruence.
Qed.

Lemma rootOf_in_handles (t : HTree) : rootOf t ∈ handles t.
Proof. destruct t. rewrite handles_node. cbn. apply list_elem_of_here. Qed.

Lemma childrenAt_tree (s : Store) (t : HTree) :
  tree_at s t -> childrenAt s (rootOf t) = map rootOf (kidsOf t).
Proof.
  destruct t as [h d cs]. rewrite tree_at_node. intros [H _].
  unfold childrenAt. cbn. now rewrite H.
Qed.

(** A tree is held by every store that agrees on its handles. *)
Lemma tree_at_frame (s s' : Store) (t : HTree) :
  tree_at s t -> (forall k, k ∈ handles t -> s' !! k = s !! k) -> tree_at s' t.
Proof.
  induction t as [h d cs IH] using HTree_nested_ind.
  rewrite !tree_at_node, handles_node. intros [Hh Hcs] Hsame. split.
  - rewrite Hsame; [exact Hh | apply list_elem_of_here].
  - rewrite List.Forall_forall in *. intros c Hc. apply IH; [exact Hc | now apply Hcs |].
    intros k Hk. apply Hsame. apply list_elem_of_further, elem_of_flat_map.
    exists c. split; [now apply list_elem_of_In | exact Hk].
Qed.

Lemma Forall_tree_at_frame (s s' : Store) (ts : list HTree) :
  Forall (tree_at s) ts ->
  (forall k, k ∈ flat_map handles ts -> s' !! k = s !! k) ->
  Forall (tree_at s') ts.
Proof.
  intros H Hsame. rewrite List.Forall_forall in *. intros t Ht.
  apply (tree_at_frame s); [now apply H |].
  intros k Hk. apply Hsame, elem_of_flat_map. exists t.
  split; [now apply list_elem_of_In | exact Hk].
Qed.

(** What lies below the root of a tree is in the trees of its children. *)
Lemma below_in_kids (s : Store) (p k : handle) :
  below s p k ->
  forall t, rootOf t = p -> tree_at s t -> k ∈ flat_map handles (kidsOf t).
Proof.
  induction 1 as [p c Hc | p c k Hc _ IH]; intros t <- Ht;
    rewrite (childrenAt_tree s t Ht) in Hc;
    apply elem_of_map in Hc as (tc & -> & Htc).
  - apply elem_of_flat_map. exists tc. split; [exact Htc | apply rootOf_in_handles].
  - destruct t as [h d cs]. apply tree_at_node in Ht as [_ Hall]. cbn [kidsOf] in *.
    assert (tree_at s tc) as Hc' by (rewrite List.Forall_forall in Hall; now apply Hall, list_elem_of_In).
    specialize (IH tc eq_refl Hc').
    apply elem_of_flat_map. exists tc. split; [exact Htc |].
    destruct tc as [h' d' cs']. rewrite handles_node. now apply list_elem_of_further.
Qed.

(** Every node of a tree is the root of a tree that the store holds, with
    handles among those of the tree and no handle twice. *)
Lemma subtree_at (s : Store) (t : HTree) (k : handle) :
  tree_at s t -> NoDup (handles t) -> k ∈ handles t ->
  exists tk, rootOf tk = k /\ tree_at s tk /\ NoDup (handles tk).
Proof.
  induction t as [h d cs IH] using HTree_nested_ind.
  intros Ht Hnd Hk. rewrite handles_node in Hnd, Hk.
  apply elem_of_cons in Hk as [-> | Hk].
  - now exists (HNode h d cs).
  - apply elem_of_flat_map in Hk as (c & Hc & Hk).
    apply tree_at_node in Ht as [_ Hall].
    rewrite List.Forall_forall in IH, Hall.
    apply (IH c); [now apply list_elem_of_In | now apply Hall, list_elem_of_In | | exact Hk].
    apply NoDup_cons in Hnd as [_ Hnd].
    clear -Hnd Hc. induction cs as [| c' cs IHcs]; [inversion Hc |].
    cbn in Hnd. apply NoDup_app in Hnd as (H1 & _ & H2).
    apply elem_of_cons in Hc as [-> | Hc]; [exact H1 | now apply IHcs].
Qed.

(** In a store that holds a tree with no handle twice, no node of the tree
    is below itself, and all that the root reaches is in the tree. *)
Lemma tree_at_acyclic (s : Store) (t : HTree) :
  tree_at s t -> NoDup (handles t) ->
  forall k, reachable s (rootOf t) k -> k ∈ handles t /\ ~ ownAncestor s k.
Proof.
  intros Ht Hnd k Hr.
  assert (k ∈ handles t) as Hk.
  { destruct Hr as [-> | Hb]; [apply rootOf_in_handles |].
    pose proof (below_in_kids s _ _ Hb t eq_refl Ht) as H.
    destruct t. rewrite handles_node. now apply list_elem_of_further. }
  split; [exact Hk |].
  destruct (subtree_at s t k Ht Hnd Hk) as (tk & <- & Htk & Hndk).
  intros Hself. pose proof (below_in_kids s _ _ Hself tk eq_refl Htk) as H.
  destruct tk as [h d cs]. rewrite handles_node in Hndk. cbn [rootOf kidsOf] in H.
  apply NoDup_cons in Hndk as [Hnot _]. now apply Hnot.
Qed.

End RegroupFacts.

Section GraftFacts.
Import JS Parser.

Lemma rootOf_graft (p : handle) (new t : HTree) : rootOf (graft p new t) = rootOf t.
Proof. destruct t as [h d cs]. cbn. now destruct (h =? p)%nat. Qed.

Lemma map_rootOf_graft (p : handle) (new : HTree) (ts : list HTree) :
  map rootOf (map (graft p new) ts) = map rootOf ts.
Proof.
  rewrite map_map. apply map_ext. intros t. apply rootOf_graft.
Qed.

(** Grafting at a handle that the tree does not have changes nothing. *)
Lemma graft_absent (p : handle) (new t : HTree) :
  p ∉ handles t -> graft p new t = t.
Proof.
  induction t as [h d cs IH] using HTree_nested_ind.
  rewrite handles_node. intros Hp. apply not_elem_of_cons in Hp as [Hne Hp].
  cbn [graft]. destruct (Nat.eqb_spec h p) as [-> | _]; [congruence |].
  f_equal. rewrite <- (map_id cs) at 2. apply map_ext_in.
  intros c Hc. rewrite List.Forall_forall in IH. apply IH; [exact Hc |].
  intros Hin. apply Hp, elem_of_flat_map. exists c.
  split; [now apply list_elem_of_In | exact Hin].
Qed.

Lemma map_graft_absent (p : handle) (new : HTree) (ts : list HTree) :
  p ∉ flat_map handles ts -> map (graft p new) ts = ts.
Proof.
  intros Hp. rewrite <- (map_id ts) at 2. apply map_ext_in. intros t Ht.
  apply graft_absent. intros Hin. apply Hp, elem_of_flat_map. exists t.
  split; [now apply list_elem_of_In | exact Hin].
Qed.

Lemma NoDup_flat_map_handles (c : HTree) (cs : list HTree) :
  NoDup (flat_map handles cs) -> c ∈ cs -> NoDup (handles c).
Proof.
  induction cs as [| c' cs IH]; intros Hnd Hc; [inversion Hc |].
  cbn in Hnd. apply NoDup_app in Hnd as (H1 & _ & H2).
  apply elem_of_cons in Hc as [-> | Hc]; [exact H1 | now apply IH].
Qed.

Lemma pushChild_other (p c k : handle) (s : Store) :
  k <> p -> pushChild p c s !! k = s !! k.
Proof. intros H. unfold pushChild. now apply lookup_alter_ne. Qed.

Lemma pushChild_at (p c : handle) (s : Store) (o : Obj) :
  s !! p = Some o ->
  pushChild p c s !! p = Some (mkObj (o_data o) (o_children o ++ [c])).
Proof. intros H. unfold pushChild. now rewrite lookup_alter_eq, H. Qed.

Lemma pushChild_data (p c k : handle) (s : Store) :
  o_data <$> pushChild p c s !! k = o_data <$> s !! k.
Proof.
  unfold pushChild. destruct (decide (k = p)) as [-> | Hne].
  - rewrite lookup_alter_eq. now destruct (s !! p).
  - now rewrite lookup_alter_ne.
Qed.

(** Pushing the root of [new] into the object at [p] turns a tree into the
    tree with [new] grafted at [p]. *)
Lemma graft_tree_at (s : Store) (p : handle) (new t : HTree) :
  tree_at s t -> NoDup (handles t) ->
  (p ∈ handles t -> tree_at (pushChild p (rootOf new) s) new) ->
  tree_at (pushChild p (rootOf new) s) (graft p new t).
Proof.
  induction t as [h d cs IH] using HTree_nested_ind.
  rewrite tree_at_node, handles_node. intros [Hh Hcs] Hnd Hnew.
  apply NoDup_cons in Hnd as [Hroot Hnd].
  cbn [graft]. destruct (Nat.eqb_spec h p) as [-> | Hne].
  - apply tree_at_node. split.
    + rewrite (pushChild_at _ _ _ _ Hh). cbn. now rewrite map_app.
    + apply Forall_app. split.
      * apply (Forall_tree_at_frame s); [exact Hcs |].
        intros k Hk. apply pushChild_other. intros ->. now apply Hroot.
      * constructor; [| constructor]. apply Hnew, list_elem_of_here.
  - apply tree_at_node. split.
    + rewrite pushChild_other by exact Hne. rewrite Hh. now rewrite map_rootOf_graft.
    + rewrite List.Forall_forall in *. intros c' Hc'.
      apply in_map_iff in Hc' as (c & <- & Hc).
      apply IH; [exact Hc | now apply Hcs | |].
      * apply (NoDup_flat_map_handles c cs Hnd). now apply list_elem_of_In.
      * intros Hp. apply Hnew. apply list_elem_of_further, elem_of_flat_map.
        exists c. split; [now apply list_elem_of_In | exact Hp].
Qed.

(** The handles of a grafted tree. *)
Lemma handles_graft (p : handle) (new t : HTree) :
  NoDup (handles t) -> p ∈ handles t ->
  handles (graft p new t) ≡ₚ handles t ++ handles new.
Proof.
  induction t as [h d cs IH] using HTree_nested_ind.
  rewrite handles_node. intros Hnd Hp.
  apply NoDup_cons in Hnd as [Hroot Hnd].
  cbn [graft]. destruct (Nat.eqb_spec h p) as [-> | Hne].
  - rewrite handles_node, flat_map_app. cbn. now rewrite app_nil_r.
  - apply elem_of_cons in Hp as [-> | Hp]; [congruence |].
    rewrite handles_node. cbn. constructor.
    clear Hroot Hne. induction cs as [| c cs IHcs]; [inversion Hp |].
    cbn in *. apply NoDup_app in Hnd as (Hc & Hdisj & Hrest).
    apply List.Forall_cons_iff in IH as [IHc IHrest].
    apply elem_of_app in Hp as [Hp | Hp].
    + rewrite (IHc Hc Hp). rewrite map_graft_absent by (intros Hin; exact (Hdisj p Hp Hin)).
      rewrite <- !app_assoc. apply Permutation_app_head, Permutation_app_comm.
    + rewrite graft_absent by (intros Hin; exact (Hdisj p Hin Hp)).
      rewrite (IHcs IHrest Hrest Hp). now rewrite app_assoc.
Qed.

Lemma flat_map_handles_graft (p : handle) (new : HTree) (ts : list HTree) :
  NoDup (flat_map handles ts) ->
  flat_map handles (map (graft p new) ts)
  ≡ₚ flat_map handles ts ++ (if decide (p ∈ flat_map handles ts) then handles new else []).
Proof.
  intros Hnd. destruct (decide (p ∈ flat_map handles ts)) as [Hp | Hp].
  - induction ts as [| t ts IH]; [inversion Hp |].
    cbn in *. apply NoDup_app in Hnd as (Ht & Hdisj & Hrest).
    apply elem_of_app in Hp as [Hp | Hp].
    + rewrite (handles_graft p new t Ht Hp).
      rewrite map_graft_absent by (intros Hin; exact (Hdisj p Hp Hin)).
      rewrite <- !app_assoc. apply Permutation_app_head, Permutation_app_comm.
    + rewrite graft_absent by (intros Hin; exact (Hdisj p Hin Hp)).
      rewrite (IH Hrest Hp). now rewrite app_assoc.
  - rewrite map_graft_absent by exact Hp. now rewrite app_nil_r.
Qed.

End GraftFacts.

Section LoopFacts.
Import JS Parser.

Lemma findContainer_some (s : Store) (child : handle) (i j : nat) (rest : list handle)
  (p : handle) :
  findContainer s child i j rest = Some p ->
  exists k, rest !! k = Some p /\ i <> (j + k)%nat /\ contained s child p = true.
Proof.
  revert j. induction rest as [| q rest IH]; intros j; cbn [findContainer]; [discriminate |].
  destruct (Nat.eqb_spec i j) as [-> | Hne].
  - intros H. destruct (IH _ H) as (k & Hk & Hi & Hc).
    exists (S k). split; [exact Hk | split; [lia | exact Hc]].
  - destruct (contained s child q) eqn:Hc.
    + intros [= ->]. exists 0%nat. split; [reflexivity | split; [lia | exact Hc]].
    + intros H. destruct (IH _ H) as (k & Hk & Hi & Hc').
      exists (S k). split; [exact Hk | split; [lia | exact Hc']].
Qed.

Lemma findContainer_none (s : Store) (child : handle) (i j : nat) (rest : list handle) :
  findContainer s child i j rest = None ->
  forall k q, rest !! k = Some q -> i <> (j + k)%nat -> contained s child q = false.
Proof.
  revert j. induction rest as [| q' rest IH]; intros j; cbn [findContainer];
    [intros _ k q Hk; destruct k; discriminate |].
  destruct (Nat.eqb_spec i j) as [-> | Hne].
  - intros H [| k] q Hk Hi; [lia |]. cbn in Hk.
    apply (IH _ H k q Hk). lia.
  - destruct (contained s child q') eqn:Hc; [discriminate |].
    intros H [| k] q Hk Hi; cbn in Hk.
    + now injection Hk as <-.
    + apply (IH _ H k q Hk). lia.
Qed.

Lemma contained_data (s s' : Store) (a b : handle) :
  (forall k, o_data <$> s' !! k = o_data <$> s !! k) ->
  contained s' a b = contained s a b.
Proof.
  intros H. unfold contained. pose proof (H a) as Ha. pose proof (H b) as Hb.
  destruct (s' !! a), (s !! a), (s' !! b), (s !! b); cbn in *; congruence.
Qed.

Lemma findContainer_data (s s' : Store) (child : handle) (i : nat) (rest : list handle) :
  (forall k, o_data <$> s' !! k = o_data <$> s !! k) ->
  forall j, findContainer s' child i j rest = findContainer s child i j rest.
Proof.
  intros H. induction rest as [| q rest IH]; intros j; cbn [findContainer]; [reflexivity |].
  now rewrite (contained_data s s' child q H), !IH.
Qed.

Lemma findContainer_none_intro (s : Store) (child : handle) (i : nat) (rest : list handle) :
  forall j,
    (forall k q, rest !! k = Some q -> i <> (j + k)%nat -> contained s child q = false) ->
    findContainer s child i j rest = None.
Proof.
  induction rest as [| q rest IH]; intros j H; cbn [findContainer]; [reflexivity |].
  assert (findContainer s child i (S j) rest = None) as Hrest.
  { apply IH. intros k q' Hk Hi. apply (H (S k) q' Hk). lia. }
  destruct (Nat.eqb_spec i j) as [-> | Hne]; [exact Hrest |].
  rewrite (H 0%nat q eq_refl) by lia. exact Hrest.
Qed.

(** The inner loop gives the first sibling, other than the child itself,
    for which the containment test holds. *)
Lemma findContainer_first (s : Store) (child : handle) (i : nat) (siblings : list handle)
  (p : handle) :
  findContainer s child i 0 siblings = Some p <->
  exists k, siblings !! k = Some p /\ i <> k /\ contained s child p = true
            /\ forall k' q, (k' < k)%nat -> siblings !! k' = Some q -> i <> k' ->
                            contained s child q = false.
Proof.
  change (i <> ?k) with (i <> (0 + k)%nat).
  generalize 0%nat as j.
  induction siblings as [| q0 rest IH]; intros j; cbn [findContainer].
  { split; [discriminate | intros (k & Hk & _); destruct k; discriminate]. }
  destruct (Nat.eqb_spec i j) as [-> | Hne].
  - rewrite IH. split.
    + intros (k & Hk & Hi & Hc & Hfirst). exists (S k).
      split; [exact Hk |]. split; [lia |]. split; [exact Hc |].
      intros [| k'] q Hlt Hq Hne; [lia |]. apply (Hfirst k' q); [lia | exact Hq | lia].
    + intros ([| k] & Hk & Hi & Hc & Hfirst); [lia |]. exists k.
      split; [exact Hk |]. split; [lia |]. split; [exact Hc |].
      intros k' q Hlt Hq Hne. apply (Hfirst (S k') q); [lia | exact Hq | lia].
  - destruct (contained s child q0) eqn:Hq0.
    + split.
      * intros [= <-]. exists 0%nat. split; [reflexivity |]. split; [lia |].
        split; [exact Hq0 |]. intros k' q Hlt. lia.
      * intros ([| k] & Hk & Hi & Hc & Hfirst); [now injection Hk as -> |].
        rewrite (Hfirst 0%nat q0) in Hq0; [discriminate | lia | reflexivity | lia].
    + rewrite IH. split.
      * intros (k & Hk & Hi & Hc & Hfirst). exists (S k).
        split; [exact Hk |]. split; [lia |]. split; [exact Hc |].
        intros [| k'] q Hlt Hq Hne'; [now injection Hq as <- |].
        apply (Hfirst k' q); [lia | exact Hq | lia].
      * intros ([| k] & Hk & Hi & Hc & Hfirst); [injection Hk as ->; congruence |].
        exists k. split; [exact Hk |]. split; [lia |]. split; [exact Hc |].
        intros k' q Hlt Hq Hne'. apply (Hfirst (S k') q); [lia | exact Hq | lia].
Qed.

(** The loop of the regrouping on a forest.  The trees of [F] are the
    children not yet examined and those kept so far, each held by the store,
    no handle twice.  The loop ends with a forest of the children kept, each
    held by the store, no handle twice; and a child is kept only when no
    other sibling visually contains it. *)
Lemma regroupLoop_forest (siblings : list handle) (todo : list handle) :
  forall (examined : list handle) (s : Store) (R : list handle) (F : list HTree),
    siblings = (examined ++ todo)%list ->
    NoDup siblings ->
    Forall (tree_at s) F ->
    NoDup (flat_map handles F) ->
    map rootOf F = (R ++ todo)%list ->
    exists s' R' F',
      regroupLoop siblings (length examined) todo s R = (s', R')
      /\ Forall (tree_at s') F'
      /\ NoDup (flat_map handles F')
      /\ map rootOf F' = R'
      /\ (forall k, k ∈ flat_map handles F' -> k ∈ flat_map handles F)
      /\ (forall k, k ∉ siblings -> s' !! k = s !! k)
      /\ (forall k, o_data <$> s' !! k = o_data <$> s !! k)
      /\ (forall c, c ∈ R' ->
            c ∈ R \/ (c ∈ todo
                      /\ forall q, q ∈ siblings -> q <> c -> contained s c q = false)).
Proof.
  induction todo as [| child todo IH]; intros examined s R F Hsib Hnds Hall Hnd Hroots.
  - exists s, R, F. rewrite app_nil_r in Hroots. cbn.
    refine (conj eq_refl (conj Hall (conj Hnd (conj Hroots (conj _ (conj _ (conj _ _))))))); auto.
  - cbn [regroupLoop].
    assert (siblings = ((examined ++ [child]) ++ todo)%list) as Hsib'
        by now rewrite <- app_assoc.
    assert (length (examined ++ [child]) = S (length examined)) as Hlen
        by (rewrite length_app; cbn; lia).
    assert (siblings !! length examined = Some child) as Hchild.
    { rewrite Hsib. now apply list_lookup_middle. }
    destruct (findContainer s child (length examined) 0 siblings) as [p |] eqn:Hfind.
    + (* the child is moved into [p] *)
      apply findContainer_some in Hfind as (j & Hj & _ & _).
      assert (p ∈ siblings) as Hp by (eapply list_elem_of_lookup_2; exact Hj).
      apply map_eq_app in Hroots as (FR & Frest & -> & HR & Hrest).
      apply map_eq_cons in Hrest as (Tc & Ftodo & -> & Hc & Htodo).
      set (s1 := pushChild p child s).
      set (F1 := map (graft p Tc) (FR ++ Ftodo)).
      assert (flat_map handles (FR ++ Tc :: Ftodo)
              ≡ₚ flat_map handles (FR ++ Ftodo) ++ handles Tc) as Hperm.
      { rewrite !flat_map_app. cbn. rewrite <- !app_assoc.
        apply Permutation_app_head, Permutation_app_comm. }
      rewrite Hperm in Hnd. apply NoDup_app in Hnd as (Hnd1 & Hdisj & HndTc).
      assert (Forall (tree_at s) (FR ++ Ftodo) /\ tree_at s Tc) as [Hall1 HTc].
      { apply Forall_app in Hall as [HA HB]. apply List.Forall_cons_iff in HB as [HB HC].
        split; [apply Forall_app; now split | exact HB]. }
      assert (forall k, o_data <$> s1 !! k = o_data <$> s !! k) as Hdat1
          by (intros k; apply pushChild_data).
      destruct (IH (examined ++ [child])%list s1 R F1)
        as (s' & R' & F' & Hrun & Hall' & Hnd' & Hroots' & Hin' & Hfr & Hdat & Hkept).
      * exact Hsib'.
      * exact Hnds.
      * unfold F1. rewrite List.Forall_forall in *. intros T' HT'.
        apply in_map_iff in HT' as (T & <- & HT).
        unfold s1. rewrite <- Hc. apply graft_tree_at.
        -- now apply Hall1.
        -- apply (NoDup_flat_map_handles T (FR ++ Ftodo) Hnd1). now apply list_elem_of_In.
        -- intros HpT. apply (tree_at_frame s); [exact HTc |].
           intros k Hk. apply pushChild_other. intros ->.
           apply (Hdisj p); [| exact Hk].
           apply elem_of_flat_map. exists T. split; [now apply list_elem_of_In | exact HpT].
      * unfold F1. rewrite flat_map_handles_graft by exact Hnd1.
        destruct (decide (p ∈ flat_map handles (FR ++ Ftodo))).
        -- apply NoDup_app. repeat split; assumption.
        -- now rewrite app_nil_r.
      * unfold F1. rewrite map_rootOf_graft, map_app. now rewrite HR, Htodo.
      * rewrite Hlen in Hrun. exists s', R', F'. rewrite Hrun.
        refine (conj eq_refl (conj Hall' (conj Hnd' (conj Hroots' (conj _ (conj _ (conj _ _))))))).
        -- intros k Hk. apply Hin' in Hk. unfold F1 in Hk.
           rewrite flat_map_handles_graft in Hk by exact Hnd1.
           rewrite Hperm.
           destruct (decide (p ∈ flat_map handles (FR ++ Ftodo))); [exact Hk |].
           rewrite app_nil_r in Hk. apply elem_of_app. now left.
        -- intros k Hk. rewrite Hfr by exact Hk. apply pushChild_other.
           intros ->. now apply Hk.
        -- intros k. now rewrite Hdat.
        -- intros c Hc'. destruct (Hkept c Hc') as [HcR | [Hct Hno]]; [now left | right].
           split; [now apply list_elem_of_further |].
           intros q Hq Hne. rewrite <- (contained_data s s1 c q Hdat1). now apply Hno.
    + (* the child is kept *)
      pose proof (findContainer_none _ _ _ _ _ Hfind) as Hnone.
      destruct (IH (examined ++ [child])%list s (R ++ [child])%list F)
        as (s' & R' & F' & Hrun & Hall' & Hnd' & Hroots' & Hin' & Hfr & Hdat & Hkept); auto.
      * now rewrite <- app_assoc.
      * rewrite Hlen in Hrun. exists s', R', F'. rewrite Hrun.
        refine (conj eq_refl (conj Hall' (conj Hnd' (conj Hroots' (conj Hin' (conj Hfr (conj Hdat _))))))).
        intros c Hc'. destruct (Hkept c Hc') as [HcR | [Hct Hno]].
        -- apply elem_of_app in HcR as [HcR | HcR]; [now left | right].
           apply list_elem_of_singleton in HcR as ->.
           split; [apply list_elem_of_here |].
           intros q Hq Hne. apply list_elem_of_lookup_1 in Hq as [k Hk].
           apply (Hnone k q Hk). cbn. intros Heq. subst k.
           rewrite Hchild in Hk. congruence.
        -- right. split; [now apply list_elem_of_further | exact Hno].
Qed.

(** When no child has a container among its siblings, the loop keeps them
    all and writes nothing. *)
Lemma regroupLoop_settled (siblings : list handle) (s : Store) (todo : list handle) :
  forall i R,
    (forall idx c, todo !! idx = Some c ->
                   findContainer s c (i + idx) 0 siblings = None) ->
    regroupLoop siblings i todo s R = (s, (R ++ todo)%list).
Proof.
  induction todo as [| child todo IH]; intros i R H; cbn [regroupLoop].
  - now rewrite app_nil_r.
  - pose proof (H 0%nat child eq_refl) as H0. rewrite Nat.add_0_r in H0. rewrite H0.
    rewrite IH.
    + now rewrite <- app_assoc.
    + intros idx c Hc. specialize (H (S idx) c Hc).
      now replace (S i + idx)%nat with (i + S idx)%nat by lia.
Qed.

End LoopFacts.

Section RegroupSpec.
Import JS Parser.

Lemma depth_kid (h : handle) (d : NodeData) (cs : list HTree) (c : HTree) :
  c ∈ cs -> (S (depth c) <= depth (HNode h d cs))%nat.
Proof.
  cbn [depth]. intros Hc. apply le_n_S.
  induction cs as [| c' cs IH]; [inversion Hc |].
  cbn. apply elem_of_cons in Hc as [-> | Hc]; [lia | specialize (IH Hc); lia].
Qed.

Lemma setChildren_other (h k : handle) (cs : list handle) (s : Store) :
  k <> h -> setChildren h cs s !! k = s !! k.
Proof. intros H. unfold setChildren. now apply lookup_alter_ne. Qed.

Lemma setChildren_data (h k : handle) (cs : list handle) (s : Store) :
  o_data <$> setChildren h cs s !! k = o_data <$> s !! k.
Proof.
  unfold setChildren. destruct (decide (k = h)) as [-> | Hne].
  - rewrite lookup_alter_eq. now destruct (s !! h).
  - now rewrite lookup_alter_ne.
Qed.

Lemma NoDup_roots (ts : list HTree) :
  NoDup (flat_map handles ts) -> NoDup (map rootOf ts).
Proof.
  induction ts as [| t ts IH]; cbn; [constructor |].
  intros Hnd. apply NoDup_app in Hnd as (_ & Hdisj & Hrest).
  apply NoDup_cons. split; [| now apply IH].
  intros Hin. apply elem_of_map in Hin as (t' & Hr & Ht').
  apply (Hdisj (rootOf t)); [apply rootOf_in_handles |].
  apply elem_of_flat_map. exists t'. split; [exact Ht' |].
  rewrite Hr. apply rootOf_in_handles.
Qed.

Lemma settled_data (s s' : Store) (node : handle) :
  (forall k, o_data <$> s' !! k = o_data <$> s !! k) ->
  childrenAt s' node = childrenAt s node ->
  settled s node -> settled s' node.
Proof.
  intros Hdat Hch H i k c q Hc Hq Hne. rewrite Hch in Hc, Hq.
  rewrite (contained_data s s' c q Hdat). now apply (H i k).
Qed.

Lemma regrouped_leaf (s : Store) (h : handle) (d : NodeData) :
  tree_at s (HNode h d []) -> regrouped s s (HNode h d []) (HNode h d []).
Proof.
  intros Ht. unfold regrouped.
  refine (conj Ht (conj eq_refl (conj _ (conj _ (conj _ (conj _ _)))))); auto.
  - rewrite handles_node. cbn. apply NoDup_singleton.
  - intros i k c q Hc. rewrite (childrenAt_tree s _ Ht) in Hc. destruct i; discriminate.
Qed.

(** The calls on the children, given what one call does. *)
Lemma forEachChild_trees (f : handle -> Store -> option Store) (bound : nat) :
  (forall t s, (depth t <= bound)%nat -> tree_at s t -> NoDup (handles t) ->
               exists s' t', f (rootOf t) s = Some s' /\ regrouped s s' t t') ->
  forall cs s,
    Forall (fun c => (depth c <= bound)%nat) cs ->
    Forall (tree_at s) cs ->
    NoDup (flat_map handles cs) ->
    exists s' cs',
      forEachChild f (map rootOf cs) s = Some s'
      /\ Forall (tree_at s') cs'
      /\ map rootOf cs' = map rootOf cs
      /\ NoDup (flat_map handles cs')
      /\ (forall k, k ∈ flat_map handles cs' -> k ∈ flat_map handles cs)
      /\ (forall k, k ∉ flat_map handles cs -> s' !! k = s !! k)
      /\ (forall k, o_data <$> s' !! k = o_data <$> s !! k).
Proof.
  intros Hf. induction cs as [| c cs IH]; intros s Hdep Hall Hnd.
  - exists s, []. cbn. repeat split; auto.
  - apply List.Forall_cons_iff in Hdep as [Hdc Hdep].
    apply List.Forall_cons_iff in Hall as [Hc Hall].
    cbn [flat_map] in Hnd. apply NoDup_app in Hnd as (Hndc & Hdisj & Hndcs).
    destruct (Hf c s Hdc Hc Hndc) as (s1 & c' & Hrun & Hc' & Hroot & Hndc' & Hsub & Hfr & Hdat & _).
    assert (Forall (tree_at s1) cs) as Hall1.
    { apply (Forall_tree_at_frame s); [exact Hall |].
      intros k Hk. apply Hfr. intros Hin. exact (Hdisj k Hin Hk). }
    destruct (IH s1 Hdep Hall1 Hndcs)
      as (s2 & cs' & Hrun2 & Hall2 & Hroots2 & Hnd2 & Hsub2 & Hfr2 & Hdat2).
    exists s2, (c' :: cs'). cbn [map forEachChild flat_map]. rewrite Hrun, Hrun2.
    repeat split.
    + constructor; [| exact Hall2].
      apply (tree_at_frame s1); [exact Hc' |].
      intros k Hk. apply Hfr2. intros Hin. exact (Hdisj k (Hsub k Hk) Hin).
    + now rewrite Hroot, Hroots2.
    + apply NoDup_app. repeat split; [exact Hndc' | | exact Hnd2].
      intros k Hk Hin. exact (Hdisj k (Hsub k Hk) (Hsub2 k Hin)).
    + intros k Hk. apply elem_of_app in Hk as [Hk | Hk]; apply elem_of_app;
        [left; now apply Hsub | right; now apply Hsub2].
    + intros k Hk. apply not_elem_of_app in Hk as [Hk1 Hk2].
      rewrite Hfr2 by exact Hk2. now apply Hfr.
    + intros k. now rewrite Hdat2, Hdat.
Qed.

(** Regrouping a tree that the store holds, no handle twice, ends and leaves
    a tree at the same root, no handle twice. *)
Lemma regroup_tree (fuel : nat) :
  forall t s, (depth t <= fuel)%nat -> tree_at s t -> NoDup (handles t) ->
  exists s' t',
    regroupByVisualContainment fuel (rootOf t) s = Some s' /\ regrouped s s' t t'.
Proof.
  induction fuel as [| fuel IH]; intros [h d cs] s Hdep Ht Hnd.
  { cbn in Hdep. lia. }
  pose proof Ht as Ht0. apply tree_at_node in Ht as [Hh Hcs].
  pose proof Hnd as Hnd0. rewrite handles_node in Hnd. apply NoDup_cons in Hnd as [Hroot Hndcs].
  cbn [regroupByVisualContainment rootOf].
  unfold childrenAt at 1. rewrite Hh. cbn [o_children].
  destruct cs as [| c0 cs0]; cbn [map].
  { exists s, (HNode h d []). split; [reflexivity | now apply regrouped_leaf]. }
  set (cs := c0 :: cs0) in *.
  change (rootOf c0 :: map rootOf cs0) with (map rootOf cs).
  destruct (forEachChild_trees (regroupByVisualContainment fuel) fuel IH cs s)
    as (s1 & cs1 & Hrun & Hall1 & Hroots1 & Hnd1 & Hsub1 & Hfr1 & Hdat1).
  { apply List.Forall_forall. intros c Hc.
    pose proof (depth_kid h d cs c) as Hk. rewrite list_elem_of_In in Hk.
    specialize (Hk Hc). lia. }
  { exact Hcs. }
  { exact Hndcs. }
  rewrite Hrun.
  assert (s1 !! h = Some (mkObj d (map rootOf cs))) as Hh1 by (rewrite Hfr1; auto).
  assert (childrenAt s1 h = map rootOf cs1) as Hsib.
  { unfold childrenAt. rewrite Hh1. cbn. now rewrite Hroots1. }
  rewrite Hsib.
  destruct (regroupLoop_forest (map rootOf cs1) (map rootOf cs1) [] s1 [] cs1)
    as (s2 & R & F & Hloop & Hall2 & Hnd2 & Hroots2 & Hsub2 & Hfr2 & Hdat2 & Hkept); auto.
  { now apply NoDup_roots. }
  cbn [length] in Hloop. rewrite Hloop.
  assert (forall k, k ∈ map rootOf cs1 -> k ∈ flat_map handles cs1) as Hrootsin.
  { intros k Hk. apply elem_of_map in Hk as (c & -> & Hc).
    apply elem_of_flat_map. exists c. split; [exact Hc | apply rootOf_in_handles]. }
  assert (h ∉ flat_map handles cs1) as Hroot1 by (intros Hin; apply Hroot, Hsub1, Hin).
  assert (s2 !! h = Some (mkObj d (map rootOf cs))) as Hh2.
  { rewrite Hfr2; [exact Hh1 |]. intros Hin. apply Hroot1, Hrootsin, Hin. }
  assert (setChildren h R s2 !! h = Some (mkObj d R)) as Hh3.
  { unfold setChildren. now rewrite lookup_alter_eq, Hh2. }
  exists (setChildren h R s2), (HNode h d F). split; [reflexivity |].
  unfold regrouped.
  refine (conj _ (conj eq_refl (conj _ (conj _ (conj _ (conj _ _)))))).
  - apply tree_at_node. split.
    + rewrite Hh3. now rewrite Hroots2.
    + apply (Forall_tree_at_frame s2); [exact Hall2 |].
      intros k Hk. apply setChildren_other. intros ->. apply Hroot1, Hsub2, Hk.
  - rewrite handles_node. apply NoDup_cons. split; [| exact Hnd2].
    intros Hin. apply Hroot1, Hsub2, Hin.
  - intros k. rewrite !handles_node, !elem_of_cons. intros [-> | Hk]; [now left | right].
    apply Hsub1, Hsub2, Hk.
  - intros k Hk. rewrite handles_node in Hk. apply not_elem_of_cons in Hk as [Hne Hk].
    rewrite setChildren_other by exact Hne.
    rewrite Hfr2; [now apply Hfr1 |].
    intros Hin. apply Hk, Hsub1, Hrootsin, Hin.
  - intros k. now rewrite setChildren_data, Hdat2, Hdat1.
  - (* the children kept have no container among them *)
    assert (NoDup R) as HndR by (rewrite <- Hroots2; now apply NoDup_roots).
    intros i k c q Hc Hq Hne. cbn [rootOf] in Hc, Hq.
    unfold childrenAt in Hc, Hq. rewrite Hh3 in Hc, Hq. cbn [o_children] in Hc, Hq.
    assert (forall k0, o_data <$> setChildren h R s2 !! k0 = o_data <$> s1 !! k0) as Hd
        by (intros k0; now rewrite setChildren_data, Hdat2).
    rewrite (contained_data s1 _ c q Hd).
    destruct (Hkept c) as [Hin | [_ Hno]].
    + eapply list_elem_of_lookup_2; exact Hc.
    + inversion Hin.
    + apply Hno.
      * destruct (Hkept q) as [Hin | [Hin _]];
          [eapply list_elem_of_lookup_2; exact Hq | inversion Hin | exact Hin].
      * intros ->. apply Hne. eapply NoDup_lookup; eassumption.
Qed.

(** A second run on a tree whose root is settled leaves the children of the
    root as they are. *)
Lemma regroup_settled_root (fuel : nat) (t : HTree) (s : Store) :
  (depth t <= fuel)%nat -> tree_at s t -> NoDup (handles t) -> settled s (rootOf t) ->
  exists s',
    regroupByVisualContainment fuel (rootOf t) s = Some s'
    /\ childrenAt s' (rootOf t) = childrenAt s (rootOf t).
Proof.
  destruct fuel as [| fuel]; destruct t as [h d cs]; intros Hdep Ht Hnd Hset.
  { cbn in Hdep. lia. }
  pose proof (childrenAt_tree s _ Ht) as Hch. cbn [rootOf kidsOf] in *.
  apply tree_at_node in Ht as [Hh Hcs].
  rewrite handles_node in Hnd. apply NoDup_cons in Hnd as [Hroot Hndcs].
  cbn [regroupByVisualContainment]. rewrite Hch.
  destruct cs as [| c0 cs0]; cbn [map].
  { now exists s. }
  set (cs := c0 :: cs0) in *.
  change (rootOf c0 :: map rootOf cs0) with (map rootOf cs) in *.
  destruct (forEachChild_trees (regroupByVisualContainment fuel) fuel
              (regroup_tree fuel) cs s)
    as (s1 & cs1 & Hrun & Hall1 & Hroots1 & Hnd1 & Hsub1 & Hfr1 & Hdat1).
  { apply List.Forall_forall. intros c Hc.
    pose proof (depth_kid h d cs c) as Hk. rewrite list_elem_of_In in Hk.
    specialize (Hk Hc). lia. }
  { exact Hcs. }
  { exact Hndcs. }
  rewrite Hrun.
  assert (s1 !! h = Some (mkObj d (map rootOf cs))) as Hh1 by (rewrite Hfr1; auto).
  assert (childrenAt s1 h = map rootOf cs) as Hsib.
  { unfold childrenAt. now rewrite Hh1. }
  rewrite Hsib.
  rewrite (regroupLoop_settled (map rootOf cs) s1 (map rootOf cs) 0 []).
  - eexists. split; [reflexivity |]. cbn [app].
    unfold childrenAt, setChildren. now rewrite lookup_alter_eq, Hh1.
  - intros idx c Hc. cbn [Nat.add]. apply findContainer_none_intro.
    intros k q Hq Hne. cbn in Hne. rewrite (contained_data s s1 c q Hdat1).
    apply (Hset idx k); [now rewrite Hch | now rewrite Hch | exact Hne].
Qed.

End RegroupSpec.

Section AllocFacts.
Import JS Parser.

Lemma ParsedNode_nested_ind (P : ParsedNode -> Prop) :
  (forall d cs, Forall P cs -> P (PNode d cs)) ->
  forall t, P t.
Proof.
  intros Hnode. fix IH 1. intros [d cs]. apply Hnode.
  induction cs as [| c cs IHcs]; constructor; [apply IH | exact IHcs].
Qed.

Lemma label_node (d : NodeData) (cs : list ParsedNode) (n : handle) :
  label (PNode d cs) n
  = (HNode n d (fst (labelAll cs (S n))), snd (labelAll cs (S n))).
Proof.
  cbn [label].
  change ((fix go (l : list ParsedNode) (n0 : handle) : list HTree * handle :=
             match l with
             | [] => ([], n0)
             | c :: l' =>
                 let '(c', n1) := label c n0 in
                 let '(l'', n2) := go l' n1 in (c' :: l'', n2)
             end) cs (S n)) with (labelAll cs (S n)).
  now destruct (labelAll cs (S n)).
Qed.

(** The handles that the labelling gives are the numbers from [n] on, in
    order. *)
Lemma label_handles (t : ParsedNode) :
  forall n, exists m,
    snd (label t n) = (n + S m)%nat
    /\ handles (fst (label t n)) = seq n (S m)
    /\ rootOf (fst (label t n)) = n.
Proof.
  induction t as [d cs IH] using ParsedNode_nested_ind. intros n.
  rewrite label_node. cbn [fst snd rootOf]. rewrite handles_node.
  assert (exists m, snd (labelAll cs (S n)) = (S n + m)%nat
                    /\ flat_map handles (fst (labelAll cs (S n))) = seq (S n) m)
    as (m & Hm & Hh).
  { generalize (S n). clear n. induction IH as [| c cs Hc _ IHcs]; intros n.
    - exists 0%nat. cbn. split; [lia | reflexivity].
    - cbn [labelAll]. destruct (Hc n) as (m1 & Hs1 & Hh1 & _).
      destruct (label c n) as [c' n1]. cbn [fst snd] in *. subst n1.
      destruct (IHcs (n + S m1)%nat) as (m2 & Hs2 & Hh2).
      destruct (labelAll cs (n + S m1)%nat) as [cs' n2]. cbn [fst snd] in *. subst n2.
      exists (S m1 + m2)%nat. split; [lia |].
      cbn [flat_map]. rewrite Hh1, Hh2. now rewrite <- seq_app. }
  exists m. rewrite Hm, Hh. split; [lia | split; reflexivity].
Qed.

Lemma store_of_node (h : handle) (d : NodeData) (cs : list HTree) (s : Store) :
  store_of (HNode h d cs) s
  = fold_right store_of (<[h := mkObj d (map rootOf cs)]> s) cs.
Proof. reflexivity. Qed.

Lemma store_of_other (t : HTree) :
  forall s k, k ∉ handles t -> store_of t s !! k = s !! k.
Proof.
  induction t as [h d cs IH] using HTree_nested_ind. intros s k.
  rewrite handles_node, store_of_node, not_elem_of_cons. intros [Hne Hk].
  generalize (mkObj d (map rootOf cs)). intros o.
  induction IH as [| c cs Hc _ IHcs]; cbn [fold_right].
  - now apply lookup_insert_ne.
  - cbn [flat_map] in Hk. apply not_elem_of_app in Hk as [Hk1 Hk2].
    rewrite Hc by exact Hk1. now apply IHcs.
Qed.

Lemma store_of_tree (t : HTree) :
  forall s, NoDup (handles t) -> tree_at (store_of t s) t.
Proof.
  induction t as [h d cs IH] using HTree_nested_ind. intros s.
  rewrite handles_node, store_of_node, NoDup_cons. intros [Hroot Hnd].
  apply tree_at_node.
  generalize (mkObj d (map rootOf cs)). intros o.
  revert Hroot Hnd. induction IH as [| c cs Hc _ IHcs]; intros Hroot Hnd; cbn [fold_right].
  - split; [apply lookup_insert_eq | constructor].
  - cbn [flat_map] in Hroot, Hnd. apply not_elem_of_app in Hroot as [Hr1 Hr2].
    apply NoDup_app in Hnd as (Hndc & Hdisj & Hndcs).
    destruct (IHcs Hr2 Hndcs) as [Hh Hall]. split.
    + rewrite store_of_other by exact Hr1. exact Hh.
    + constructor; [now apply Hc |].
      apply (Forall_tree_at_frame (fold_right store_of (<[h:=o]> s) cs)); [exact Hall |].
      intros k Hk. apply store_of_other. intros Hin. exact (Hdisj k Hin Hk).
Qed.

(** The store of a parsed tree holds it, no handle twice, the root at 0. *)
Lemma alloc_tree (t : ParsedNode) :
  tree_at (alloc t) (fst (label t 0%nat))
  /\ NoDup (handles (fst (label t 0%nat)))
  /\ rootOf (fst (label t 0%nat)) = 0%nat.
Proof.
  destruct (label_handles t 0%nat) as (m & _ & Hh & Hr).
  assert (NoDup (handles (fst (label t 0%nat)))) as Hnd by (rewrite Hh; apply NoDup_seq).
  split; [| split; [exact Hnd | exact Hr]].
  unfold alloc. now apply store_of_tree.
Qed.

(** The claim C1 fails on both counts.  Of two bars that each lie within
    the widened bounds of the other, each becomes the child of the other
    and the page is left with no child: the first bar is below itself.  And a second run moves a text, that the
    first run put into a card, on into a panel of the card. *)
Lemma regroup_counterexample :
  (exists s',
      regroupByVisualContainment 2 0%nat (alloc twoBars) = Some s'
      /\ childrenAt s' 0%nat = []
      /\ childrenAt s' 1%nat = [2%nat] /\ childrenAt s' 2%nat = [1%nat]
      /\ ownAncestor s' 1%nat)
  /\ (exists s1 s2 once twice,
        regroupByVisualContainment 3 0%nat (alloc cardAndText) = Some s1
        /\ regroupByVisualContainment 3 0%nat s1 = Some s2
        /\ readTree 4 s1 0%nat = Some once
        /\ readTree 4 s2 0%nat = Some twice
        /\ once <> twice).
Proof.
  split.
  - eexists. split; [vm_compute; reflexivity |].
    split; [vm_compute; reflexivity |].
    split; [vm_compute; reflexivity |].
    split; [vm_compute; reflexivity |].
    apply below_step with (c := 2%nat).
    + vm_compute. apply list_elem_of_here.
    + apply below_child. vm_compute. apply list_elem_of_here.
  - do 4 eexists. split; [vm_compute; reflexivity |].
    split; [vm_compute; reflexivity |].
    split; [vm_compute; reflexivity |].
    split; [vm_compute; reflexivity |].
    discriminate.
Qed.

(** C1, amended.  On every parsed tree the regrouping ends, and the store
    then holds a tree at the root in which no handle is twice: all that the
    root reaches is in that tree, and no object that the root reaches is
    below itself.  A second run, given the depth of that tree, ends and
    leaves the children of the root as the first run left them. *)
Theorem regroup_keeps_tree (t : ParsedNode) :
  exists s' t',
    regroupByVisualContainment (depth (fst (label t 0%nat))) 0%nat (alloc t) = Some s'
    /\ tree_at s' t' /\ rootOf t' = 0%nat /\ NoDup (handles t')
    /\ (forall k, reachable s' 0%nat k -> k ∈ handles t' /\ ~ ownAncestor s' k)
    /\ (forall fuel, (depth t' <= fuel)%nat ->
        exists s'', regroupByVisualContainment fuel 0%nat s' = Some s''
                    /\ childrenAt s'' 0%nat = childrenAt s' 0%nat).
Proof.
  destruct (alloc_tree t) as (Ht & Hnd & Hr).
  destruct (regroup_tree (depth (fst (label t 0%nat))) (fst (label t 0%nat)) (alloc t)
              (le_n _) Ht Hnd) as (s' & t' & Hrun & Ht' & Hr' & Hnd' & _ & _ & _ & Hset).
  rewrite Hr in Hrun, Hr'.
  exists s', t'. split; [exact Hrun |]. split; [exact Ht' |].
  split; [exact Hr' |]. split; [exact Hnd' |]. split.
  - intros k Hk. rewrite <- Hr' in Hk. now apply tree_at_acyclic.
  - intros fuel Hfuel. rewrite <- Hr'. now apply regroup_settled_root.
Qed.

Lemma regroup_keeps_tree_witness :
  exists s' t' s'',
    regroupByVisualContainment (depth (fst (label cardAndText 0%nat))) 0%nat
                               (alloc cardAndText) = Some s'
    /\ NoDup (handles t')
    /\ regroupByVisualContainment (depth t') 0%nat s' = Some s''
    /\ childrenAt s'' 0%nat = childrenAt s' 0%nat.
Proof.
  destruct (regroup_keeps_tree cardAndText) as (s' & t' & Hrun & _ & _ & Hnd & _ & Hagain).
  destruct (Hagain (depth t') (le_n _)) as (s'' & Hrun2 & Hsame).
  exists s', t', s''. split; [exact Hrun |]. split; [exact Hnd |].
  split; [exact Hrun2 | exact Hsame].
Defined.

End AllocFacts.

(** ** The layout of a stacked frame *)

Section ScenarioFacts.
Import JS Parser.

(** The frame is a column with a gap of 40, its children centred. *)
Example stackedFrame_layout :
  strategy (extractLayout stackedFrame) = Flexbox
  /\ flexDirection (extractLayout stackedFrame) = Some column
  /\ (exists g, gap (extractLayout stackedFrame) = Some g /\ g == 40)
  /\ alignItems (extractLayout stackedFrame) = Some "center"
  /\ justifyContent (extractLayout stackedFrame) = Some "flex-start".
Proof.
  split; [vm_compute; reflexivity |].
  split; [vm_compute; reflexivity |].
  split; [eexists; split; [vm_compute; reflexivity | reflexivity] |].
  split; vm_compute; reflexivity.
Qed.

End ScenarioFacts.

(** ** Padding and gap estimates: bounds *)

Section EstimateBounds.
Import JS Parser.

Lemma Math_round_mono (a b : Q) : a <= b -> Math_round a <= Math_round b.
Proof.
  intros H. unfold Math_round. rewrite <- Zle_Qle. apply Qfloor_resp_le. lra.
Qed.

Lemma round2_mono (a b : Q) : a <= b -> round2 a <= round2 b.
Proof.
  intros H. unfold round2.
  assert (Math_round (a * 100) <= Math_round (b * 100)) by (apply Math_round_mono; lra).
  unfold Qdiv. apply Qmult_le_compat_r; [assumption | discriminate].
Qed.

Lemma round2_zero : round2 0 == 0.
Proof. reflexivity. Qed.

Lemma round2_nonneg (a : Q) : 0 <= a -> 0 <= round2 a.
Proof. intros H. rewrite <- round2_zero. now apply round2_mono. Qed.

Lemma round2_nonpos (a : Q) : a <= 0 -> round2 a <= 0.
Proof. intros H. rewrite <- round2_zero. now apply round2_mono. Qed.

(** A rounded number is a whole number of hundredths. *)
Lemma round2_hundredths (a : Q) : exists z : Z, round2 a == inject_Z z / 100.
Proof. exists (Qfloor (a * 100 + (1 # 2))). reflexivity. Qed.

Lemma Math_max_le (a b : Q) : a <= Math_max a b /\ b <= Math_max a b.
Proof.
  unfold Math_max. destruct (ltb a b) eqn:E.
  - apply ltb_lt in E. split; lra.
  - apply ltb_ge in E. split; lra.
Qed.

Lemma pad_nonneg (v : Q) : 0 <= pad v.
Proof. apply Math_max_le. Qed.

Lemma pad_mono (a b : Q) : a <= b -> pad a <= pad b.
Proof.
  intros H. apply round2_mono in H. unfold pad, Math_max.
  destruct (ltb 0 (round2 a)) eqn:Ea; destruct (ltb 0 (round2 b)) eqn:Eb;
    rewrite ?ltb_lt, ?ltb_ge in *; lra.
Qed.

Lemma pad_nonpos (v : Q) : v <= 0 -> pad v = 0.
Proof.
  intros H. apply round2_nonpos in H. unfold pad, Math_max.
  assert (ltb 0 (round2 v) = false) as -> by now apply ltb_ge.
  reflexivity.
Qed.

Section Extremes.
Context {A : Type} (f : A -> Q).

(** The running minimum is below the start and every element, and is one of
    them. *)
Lemma fold_min_spec (l : list A) (init : Q) :
  let m := fold_left (fun m c => Math_min m (f c)) l init in
  m <= init /\ (forall c, In c l -> m <= f c)
  /\ (m = init \/ exists c, In c l /\ m = f c).
Proof.
  revert init. induction l as [| a l IH]; intros init; cbn.
  - split; [lra | split; [tauto | now left]].
  - destruct (IH (Math_min init (f a))) as (H1 & H2 & H3).
    assert (Math_min init (f a) <= init /\ Math_min init (f a) <= f a
            /\ (Math_min init (f a) = init \/ Math_min init (f a) = f a)) as (M1 & M2 & M3).
    { unfold Math_min. destruct (ltb (f a) init) eqn:E.
      - apply ltb_lt in E. repeat split; try lra. now right.
      - apply ltb_ge in E. repeat split; try lra. now left. }
    split; [lra |]. split.
    + intros c [<- | Hc]; [lra | now apply H2].
    + destruct H3 as [H3 | (c & Hc & H3)].
      * destruct M3 as [M3 | M3]; [left; congruence | right].
        exists a. split; [now left | congruence].
      * right. exists c. split; [now right | exact H3].
Qed.

Lemma fold_max_spec (l : list A) (init : Q) :
  let m := fold_left (fun m c => Math_max m (f c)) l init in
  init <= m /\ (forall c, In c l -> f c <= m)
  /\ (m = init \/ exists c, In c l /\ m = f c).
Proof.
  revert init. induction l as [| a l IH]; intros init; cbn.
  - split; [lra | split; [tauto | now left]].
  - destruct (IH (Math_max init (f a))) as (H1 & H2 & H3).
    assert (init <= Math_max init (f a) /\ f a <= Math_max init (f a)
            /\ (Math_max init (f a) = init \/ Math_max init (f a) = f a)) as (M1 & M2 & M3).
    { unfold Math_max. destruct (ltb init (f a)) eqn:E.
      - apply ltb_lt in E. repeat split; try lra. now right.
      - apply ltb_ge in E. repeat split; try lra. now left. }
    split; [lra |]. split.
    + intros c [<- | Hc]; [lra | now apply H2].
    + destruct H3 as [H3 | (c & Hc & H3)].
      * destruct M3 as [M3 | M3]; [left; congruence | right].
        exists a. split; [now left | congruence].
      * right. exists c. split; [now right | exact H3].
Qed.

End Extremes.

(** [calculatePadding] gives nothing exactly when the parent has no box or
    no child has one; what it gives is never negative on any side. *)
Theorem calculatePadding_nonneg (parent : FigmaNode) (children : list FigmaNode) :
  (calculatePadding parent children = None
   <-> bbox_of parent = None \/ childrenWithBounds children = [])
  /\ (forall p, calculatePadding parent children = Some p ->
        0 <= top p /\ 0 <= right p /\ 0 <= bottom p /\ 0 <= left p).
Proof.
  unfold calculatePadding.
  destruct (bbox_of parent) as [pb |]; [| split; [tauto | discriminate]].
  destruct (childrenWithBounds children) as [| b rest];
    [split; [tauto | discriminate] |].
  split.
  - split; [discriminate | intros [H | H]; discriminate].
  - intros p [= <-]. cbn. repeat split; apply pad_nonneg.
Qed.

(** Each side of the padding is the padding that the child nearest to that
    side of the parent leaves: no more than what any boxed child leaves, and
    what one of them leaves. *)
Theorem calculatePadding_nearest (parent : FigmaNode) (children : list FigmaNode)
  (pb : BoundingBox) (p : Spacing) :
  bbox_of parent = Some pb ->
  calculatePadding parent children = Some p ->
  let boxes := childrenWithBounds children in
  let leftOf c := pad (x c - x pb) in
  let topOf c := pad (y c - y pb) in
  let rightOf c := pad ((x pb + width pb) - (x c + width c)) in
  let bottomOf c := pad ((y pb + height pb) - (y c + height c)) in
  (forall c, In c boxes ->
     left p <= leftOf c /\ top p <= topOf c
     /\ right p <= rightOf c /\ bottom p <= bottomOf c)
  /\ (exists c, In c boxes /\ left p = leftOf c)
  /\ (exists c, In c boxes /\ top p = topOf c)
  /\ (exists c, In c boxes /\ right p = rightOf c)
  /\ (exists c, In c boxes /\ bottom p = bottomOf c).
Proof.
  intros Hpb. unfold calculatePadding. rewrite Hpb.
  destruct (childrenWithBounds children) as [| b rest]; [discriminate |].
  intros [= <-]. cbn [top right bottom left].
  destruct (fold_min_spec x rest (x b)) as (X1 & X2 & X3).
  destruct (fold_min_spec y rest (y b)) as (Y1 & Y2 & Y3).
  destruct (fold_max_spec (fun c => x c + width c) rest (x b + width b)) as (R1 & R2 & R3).
  destruct (fold_max_spec (fun c => y c + height c) rest (y b + height b)) as (B1 & B2 & B3).
  cbv zeta in *.
  split; [| split; [| split; [| split]]].
  - intros c [<- | Hc]; repeat split; apply pad_mono;
      try specialize (X2 c Hc); try specialize (Y2 c Hc);
      try specialize (R2 c Hc); try specialize (B2 c Hc); lra.
  - destruct X3 as [E | (c & Hc & E)]; [exists b | exists c];
      (split; [(now left) || (now right) | now rewrite E]).
  - destruct Y3 as [E | (c & Hc & E)]; [exists b | exists c];
      (split; [(now left) || (now right) | now rewrite E]).
  - destruct R3 as [E | (c & Hc & E)]; [exists b | exists c];
      (split; [(now left) || (now right) | now rewrite E]).
  - destruct B3 as [E | (c & Hc & E)]; [exists b | exists c];
      (split; [(now left) || (now right) | now rewrite E]).
Qed.

End EstimateBounds.

Section GapBounds.
Import JS Parser.

Lemma sum_fold_nonneg (l : list Q) (acc : Q) :
  0 <= acc -> Forall (fun g => 0 <= g) l -> 0 <= fold_left Qplus l acc.
Proof.
  revert acc. induction l as [| g l IH]; intros acc Hacc Hl; cbn; [exact Hacc |].
  apply List.Forall_cons_iff in Hl as [Hg Hl]. apply IH; [lra | exact Hl].
Qed.

Lemma lengthQ_nonneg {A} (l : list A) : 0 <= lengthQ l.
Proof. unfold lengthQ. rewrite <- (Zle_Qle 0). lia. Qed.

Lemma mean_nonneg (l : list Q) : Forall (fun g => 0 <= g) l -> 0 <= mean l.
Proof.
  intros H. unfold mean, sum, Qdiv. apply Qmult_le_0_compat.
  - apply sum_fold_nonneg; [lra | exact H].
  - apply Qinv_le_0_compat, lengthQ_nonneg.
Qed.

(** In an ascending list an element is no greater than any later one. *)
Lemma ascending_le {A} (key : A -> Q) (l : list A) :
  ascending key l ->
  forall i j a b, (i <= j)%nat -> l !! i = Some a -> l !! j = Some b -> key a <= key b.
Proof.
  intros Hasc i j a b Hij. revert b. induction Hij as [| j Hij IH]; intros b Ha Hb.
  - assert (a = b) as -> by congruence. lra.
  - destruct (l !! j) as [c |] eqn:Hc.
    + pose proof (IH c Ha eq_refl). pose proof (Hasc j c b Hc Hb). lra.
    + apply lookup_ge_None in Hc. apply lookup_lt_Some in Hb. lia.
Qed.

(** A filter keeps at least the first [k] elements when each of them
    passes. *)
Lemma filter_length_prefix {A} (P : A -> bool) (l : list A) (k : nat) :
  (k <= length l)%nat ->
  (forall i a, (i < k)%nat -> l !! i = Some a -> P a = true) ->
  (k <= length (List.filter P l))%nat.
Proof.
  revert k. induction l as [| a l IH]; intros k Hk Hall; cbn in *; [lia |].
  destruct k as [| k]; [lia |].
  rewrite (Hall 0%nat a) by (lia || reflexivity). cbn.
  apply le_n_S, IH; [lia |]. intros i b Hi Hb. apply (Hall (S i) b); [lia | exact Hb].
Qed.

Lemma half_lengthQ (n m : nat) :
  (n <= 2 * m)%nat ->
  geb (inject_Z (Z.of_nat m)) (inject_Z (Z.of_nat n) * (1 # 2)) = true.
Proof.
  intros H. apply geb_ge. unfold Qle, Qmult, inject_Z. cbn. lia.
Qed.

(** With samples that are not negative, more than half of them pass the
    outlier filter: the unfiltered samples are never fallen back to. *)
Lemma outlier_filter_keeps_half (gaps : list Q) :
  Forall (fun g => 0 <= g) gaps -> (1 <= length gaps)%nat ->
  let sortedGaps := sort_by (fun g => g) gaps in
  let median := medianOf sortedGaps in
  let filteredGaps := List.filter (fun g => leb g (median * (25 # 10))) sortedGaps in
  0 <= median
  /\ (length gaps / 2 < length filteredGaps)%nat
  /\ geb (lengthQ filteredGaps) (lengthQ gaps * (1 # 2)) = true.
Proof.
  intros Hpos Hlen sortedGaps median filteredGaps.
  assert (length sortedGaps = length gaps) as Hsl by apply sort_by_length.
  assert (Forall (fun g => 0 <= g) sortedGaps) as Hpos'.
  { unfold sortedGaps. rewrite List.Forall_forall in *. intros g Hg. apply Hpos.
    rewrite <- list_elem_of_In in *. now rewrite (sort_by_perm (fun g => g) gaps) in Hg. }
  assert (length gaps / 2 < length gaps)%nat as Hhalf by (apply Nat.div_lt; lia).
  destruct (lookup_lt_is_Some_2 sortedGaps (length gaps / 2)) as [m Hm]; [lia |].
  assert (median = m) as Hmed.
  { unfold median, medianOf. rewrite Hsl. apply nth_lookup_Some with (d := 0) in Hm.
    exact Hm. }
  assert (0 <= median) as Hm0.
  { rewrite Hmed. rewrite List.Forall_forall in Hpos'. apply Hpos'.
    apply list_elem_of_In. eapply list_elem_of_lookup_2; exact Hm. }
  assert (S (length gaps / 2) <= length filteredGaps)%nat as Hkeep.
  { apply filter_length_prefix; [lia |]. intros i a Hi Ha. apply leb_le.
    assert (a <= median).
    { rewrite Hmed. apply (ascending_le (fun g => g) sortedGaps
                             (sort_by_ascending _ _) i (length gaps / 2) a m); [lia | exact Ha | exact Hm]. }
    lra. }
  split; [exact Hm0 |]. split; [lia |].
  unfold lengthQ. apply half_lengthQ.
  pose proof (Nat.div_mod_eq (length gaps) 2).
  pose proof (Nat.mod_upper_bound (length gaps) 2). lia.
Qed.

(** The estimate is never negative; from two samples on it is at most 200,
    and it is a whole number of hundredths. *)
Theorem calculateChildGaps_bounds (children : list FigmaNode) (arrangement : Arrangement) :
  let estimate := calculateChildGaps children arrangement in
  0 <= estimate
  /\ ((2 <= length (collectGaps children arrangement))%nat -> estimate <= 200)
  /\ exists z : Z, estimate == inject_Z z / 100.
Proof.
  cbv zeta. rewrite calculateChildGaps_averageGapOf.
  pose proof (collectGaps_nonneg children arrangement) as Hpos.
  destruct (collectGaps children arrangement) as [| a [| b l]] eqn:Hg.
  - cbn. split; [lra |]. split; [intros; lra |]. exists 0%Z. reflexivity.
  - cbn [averageGapOf]. apply List.Forall_cons_iff in Hpos as [Ha _].
    split; [now apply round2_nonneg |]. split; [cbn; lia |]. apply round2_hundredths.
  - rewrite averageGapOf_many by (cbn; lia). cbv zeta.
    set (r := round2 _). destruct (round2_hundredths (mean (retained (a :: b :: l)))) as [z Hz].
    fold r in Hz.
    destruct (ltb r 0) eqn:E0.
    + split; [lra |]. split; [intros; lra |]. exists 0%Z. reflexivity.
    + apply ltb_ge in E0. destruct (gtb r 200) eqn:E2.
      * split; [lra |]. split; [intros; lra |]. exists 2400%Z. reflexivity.
      * apply ltb_ge in E2. split; [exact E0 |]. split; [intros; exact E2 |].
        now exists z.
Qed.

(** With samples that are not negative, two or more, the estimate is the
    rounded mean of the sorted samples no greater than 2.5 times the median,
    24 standing for a value above 200: neither the unfiltered samples nor
    the clamp of a negative value is ever used. *)
Theorem averageGapOf_filtered (gaps : list Q) :
  Forall (fun g => 0 <= g) gaps -> (2 <= length gaps)%nat ->
  let sortedGaps := sort_by (fun g => g) gaps in
  let filteredGaps :=
    List.filter (fun g => leb g (medianOf sortedGaps * (25 # 10))) sortedGaps in
  let preciseGap := round2 (sum filteredGaps / lengthQ filteredGaps) in
  (length gaps / 2 < length filteredGaps)%nat
  /\ averageGapOf gaps = if gtb preciseGap 200 then 24 else preciseGap.
Proof.
  intros Hpos Hlen sortedGaps filteredGaps preciseGap.
  destruct (outlier_filter_keeps_half gaps Hpos) as (Hm & Hkeep & Hgeb); [lia |].
  fold sortedGaps filteredGaps in Hkeep, Hgeb. split; [exact Hkeep |].
  destruct gaps as [| a [| b l]]; [cbn in Hlen; lia | cbn in Hlen; lia |].
  unfold averageGapOf. fold sortedGaps filteredGaps. rewrite Hgeb. fold preciseGap.
  assert (0 <= preciseGap) as H0.
  { apply round2_nonneg. apply (mean_nonneg filteredGaps).
    unfold filteredGaps. rewrite List.Forall_forall in *. intros g Hg.
    apply filter_In in Hg as [Hg _]. apply Hpos.
    rewrite <- list_elem_of_In in *. unfold sortedGaps in Hg.
    now rewrite (sort_by_perm (fun g => g) (a :: b :: l)) in Hg. }
  assert (ltb preciseGap 0 = false) as -> by now apply ltb_ge.
  reflexivity.
Qed.

End GapBounds.

(** ** What parsing keeps *)

Section ParseFacts.
Import JS Parser.


(** The two ways [parseNode] ends: with the node built from the fields and
    the parsed children, or with the minimal node and one warning. *)
Lemma parseNode_cases (components : gmap string Component) (node : FigmaNode) :
  (exists info kids W,
      returns (componentInfo components (fields_of node)) info []
      /\ returns (mapM (parseNode components) (childList node)) kids W
      /\ returns (parseNode components node)
           (PNode {| p_id := id (fields_of node); p_name := name (fields_of node);
                     p_type := type (fields_of node);
                     bounds := default (mkBox 0 0 0 0)
                                 (absoluteBoundingBox (fields_of node));
                     styles := extractStyles (fields_of node);
                     layout := extractLayout node;
                     textContent :=
                       if (isText (type (fields_of node))
                           && truthy_str (characters (fields_of node)))%bool
                       then characters (fields_of node) else None;
                     componentName := fst info;
                     componentType := snd info |} kids) W)
  \/ (exists e,
        (forall ws, componentInfo components (fields_of node) ws = (inl e, ws))
        /\ returns (parseNode components node) (minimalNode (fields_of node))
             [errorMsg (fields_of node) e]).
Proof.
  assert (exists kids W, returns (mapM (parseNode components) (childList node)) kids W)
    as (kids & W & Hk).
  { destruct (mapM_returns (parseNode components) (childList node)) as (kids & W & Hk & _).
    - apply List.Forall_forall. intros c _. apply parseNode_returns.
    - now exists kids, W. }
  destruct (componentInfo_pure components (fields_of node)) as [[info Hi] | [e He]].
  - left. exists info, kids, W. split; [exact Hi |]. split; [exact Hk |].
    intros ws. rewrite parseNode_unfold. unfold tryCatch, parseBody, bind.
    rewrite Hi, app_nil_r. destruct node as [f [cs |]]; cbn [children_of fields_of].
    + unfold childList in Hk. cbn in Hk. rewrite Hk. reflexivity.
    + unfold childList in Hk. cbn in Hk. specialize (Hk ws). cbn in Hk.
      injection Hk as <- HW. cbn. now rewrite <- HW.
  - right. exists e. split; [exact He |].
    intros ws. rewrite parseNode_unfold. unfold tryCatch, parseBody, bind.
    rewrite He. reflexivity.
Qed.

(** The parsed node has the id, the name and the type of the node it was
    parsed from, whether parsing failed or not. *)
Theorem parseNode_identity (components : gmap string Component) (node : FigmaNode)
  (ws : list string) :
  exists p ws',
    parseNode components node ws = (inr p, ws')
    /\ p_id (data_of p) = id (fields_of node)
    /\ p_name (data_of p) = name (fields_of node)
    /\ p_type (data_of p) = type (fields_of node).
Proof.
  destruct (parseNode_cases components node) as [(info & kids & W & _ & _ & H) | (e & _ & H)];
    eexists _, _; (split; [apply H |]); repeat split.
Qed.

(** The fills of a parsed node are the fills of the node that are not
    hidden. *)
Lemma extractStyles_fills (f : FigmaFields) (fill : Fill) :
  In fill (s_fills (extractStyles f))
  <-> In fill (default [] (fills f)) /\ fill_visible fill <> Some false.
Proof.
  unfold extractStyles. cbn [s_fills]. rewrite filter_In. unfold shown.
  destruct (fill_visible fill) as [[|] |]; intuition congruence.
Qed.

(** A node all of whose fills are hidden is a background for nothing: once
    parsed, no child that is not decorative is visually contained in it. *)
Theorem hidden_fills_contain_nothing (components : gmap string Component)
  (node : FigmaNode) (ws ws' : list string) (p : ParsedNode) (child : NodeData) :
  Forall (fun fill => fill_visible fill = Some false) (default [] (fills (fields_of node))) ->
  parseNode components node ws = (inr p, ws') ->
  isDecorative child = false ->
  isVisuallyContained child (data_of p) = false.
Proof.
  intros Hhidden Hp Hd.
  assert (s_fills (styles (data_of p)) = []) as Hfills.
  { destruct (parseNode_cases components node)
      as [(info & kids & W & _ & _ & H) | (e & _ & H)];
      rewrite H in Hp; injection Hp as <- _; cbn; [| reflexivity].
    destruct (List.filter _ _) as [| fill l] eqn:Hf; [reflexivity | exfalso].
    assert (In fill (s_fills (extractStyles (fields_of node)))) as Hin
        by (unfold extractStyles; cbn [s_fills]; rewrite Hf; now left).
    apply extractStyles_fills in Hin as [Hin Hvis].
    rewrite List.Forall_forall in Hhidden. now apply Hvis, Hhidden. }
  unfold isVisuallyContained, hasBackground. rewrite Hd, Hfills. cbn [andb].
  now rewrite !andb_false_r.
Qed.


End ParseFacts.

(** ** The layout record of a node *)

Section LayoutRecordFacts.
Import JS Parser.

Lemma determineLayoutStrategy_declared (node : FigmaNode) :
  hasAutoLayout (fields_of node) = true -> determineLayoutStrategy node = Flexbox.
Proof. intros H. unfold determineLayoutStrategy. now rewrite H. Qed.

(** The flex fields belong to Flexbox: [flexDirection] is present exactly on
    the nodes whose strategy is Flexbox, and a node of another strategy has
    no [gap], [padding], [alignItems] or [justifyContent]. *)
Theorem extractLayout_flex_fields (node : FigmaNode) :
  let l := extractLayout node in
  (strategy l = Flexbox <-> is_Some (flexDirection l))
  /\ (strategy l <> Flexbox ->
      gap l = None /\ padding l = None /\ alignItems l = None
      /\ justifyContent l = None).
Proof.
  cbv zeta. rewrite extractLayout_strategy.
  destruct (hasAutoLayout (fields_of node)) eqn:Ha.
  - rewrite (determineLayoutStrategy_declared node Ha).
    split; [| congruence].
    unfold extractLayout. rewrite Ha. cbn. split; [eauto | reflexivity].
  - assert (~ declaresAutoLayout node) as Hnd
        by (intros D; apply hasAutoLayout_declares in D; congruence).
    destruct (determineLayoutStrategy node) eqn:Hd.
    + unfold extractLayout. rewrite Ha, Hd. cbn.
      split; [split; [discriminate | intros [? ?]; discriminate] | repeat split].
    + pose proof (detected_flexbox_children node Hnd Hd) as Hlen.
      split; [| congruence].
      unfold extractLayout. rewrite Ha, Hd. cbn [eq_strategy andb].
      assert ((1 <? length (childList node))%nat = true) as -> by (apply Nat.ltb_lt; lia).
      cbn. split; [eauto | reflexivity].
    + unfold extractLayout. rewrite Ha, Hd. cbn.
      split; [split; [discriminate | intros [? ?]; discriminate] | repeat split].
    + unfold extractLayout. rewrite Ha, Hd. cbn.
      split; [split; [discriminate | intros [? ?]; discriminate] | repeat split].
Qed.

(** A declared auto-layout is taken as it is declared: the layout record
    does not depend on the children of the node, and it has the declared
    spacing as [gap] and the declared paddings as [padding], an absent one
    being 0. *)
Theorem extractLayout_declared (f : FigmaFields) (cs cs' : option (list FigmaNode)) :
  hasAutoLayout f = true ->
  extractLayout (FNode f cs) = extractLayout (FNode f cs')
  /\ strategy (extractLayout (FNode f cs)) = Flexbox
  /\ flexDirection (extractLayout (FNode f cs))
     = Some (match layoutMode f with Some LM_HORIZONTAL => row | _ => column end)
  /\ gap (extractLayout (FNode f cs)) = Some (or0 (itemSpacing f))
  /\ padding (extractLayout (FNode f cs))
     = Some (mkSpacing (or0 (paddingTop f)) (or0 (paddingRight f))
                       (or0 (paddingBottom f)) (or0 (paddingLeft f))).
Proof.
  intros Ha. unfold extractLayout, determineLayoutStrategy. cbn [fields_of].
  rewrite Ha. cbn. repeat split.
Qed.

(** [detectAlignment] gives nothing exactly when the parent has no box, no
    child has one, or the arrangement is complex.  Otherwise [alignItems] is
    one of four values; in a column [justifyContent] is present and one of
    three, in a row it is one of four when present. *)
Theorem detectAlignment_values (parent : FigmaNode) (children : list FigmaNode)
  (arrangement : Arrangement) :
  let r := detectAlignment parent children arrangement in
  let nothing :=
    bbox_of parent = None \/ childrenWithBounds children = []
    \/ arrangement = complex_arr in
  (nothing -> a_alignItems r = None /\ a_justifyContent r = None)
  /\ (~ nothing ->
      (exists a, a_alignItems r = Some a
                 /\ In a ["center"; "flex-start"; "flex-end"; "stretch"])
      /\ (arrangement = vertical_arr ->
          exists j, a_justifyContent r = Some j
                    /\ In j ["flex-start"; "center"; "flex-end"])
      /\ (forall j, a_justifyContent r = Some j ->
                    In j ["flex-start"; "center"; "flex-end"; "space-between"])).
Proof.
  cbv zeta. unfold detectAlignment.
  destruct (bbox_of parent) as [pb |]; [| split; [now split | tauto]].
  destruct (childrenWithBounds children) as [| b l] eqn:Hb; [split; [now split | tauto] |].
  assert (forall start size,
             In (crossAxisAlignItems start size pb (b :: l))
                ["center"; "flex-start"; "flex-end"; "stretch"]) as Hcross.
  { intros start size. unfold crossAxisAlignItems, decideAlignItems.
    repeat match goal with |- context [if ?c then _ else _] => destruct c end;
      cbn; tauto. }
  assert (In (justifyVertical pb (b :: l)) ["flex-start"; "center"; "flex-end"]) as Hv.
  { unfold justifyVertical. cbv zeta.
    repeat match goal with |- context [if ?c then _ else _] => destruct c end;
      cbn; tauto. }
  assert (forall j, justifyHorizontal pb (b :: l) = Some j ->
                    In j ["flex-start"; "center"; "flex-end"; "space-between"]) as Hh.
  { intros j. unfold justifyHorizontal. cbv zeta.
    repeat match goal with |- context [if ?c then _ else _] => destruct c end;
      intros [= <-] || discriminate; cbn; tauto. }
  destruct arrangement; cbn [a_alignItems a_justifyContent].
  - split; [intros [H | [H | H]]; discriminate |]. intros _.
    split; [eexists; split; [reflexivity | apply Hcross] |].
    split; [intros _; eexists; split; [reflexivity | exact Hv] |].
    intros j [= <-]. cbn in Hv |- *. tauto.
  - split; [intros [H | [H | H]]; discriminate |]. intros _.
    split; [eexists; split; [reflexivity | apply Hcross] |].
    split; [discriminate | exact Hh].
  - split; [now split | intros H; exfalso; apply H; tauto].
Qed.

End LayoutRecordFacts.

(** ** What regrouping does to the children arrays *)

Section RegroupEffects.
Import JS Parser.

Lemma regroupLoop_data (siblings : list handle) (todo : list handle) :
  forall i s R s' R',
    regroupLoop siblings i todo s R = (s', R') ->
    forall k, o_data <$> s' !! k = o_data <$> s !! k.
Proof.
  induction todo as [| child todo IH]; intros i s R s' R'; cbn [regroupLoop].
  - now intros [= <- _].
  - destruct (findContainer s child i 0 siblings) as [p |]; intros H k.
    + rewrite (IH _ _ _ _ _ H k). apply pushChild_data.
    + apply (IH _ _ _ _ _ H k).
Qed.

Lemma forEachChild_data (f : handle -> Store -> option Store) :
  (forall c s s', f c s = Some s' -> forall k, o_data <$> s' !! k = o_data <$> s !! k) ->
  forall cs s s', forEachChild f cs s = Some s' ->
                  forall k, o_data <$> s' !! k = o_data <$> s !! k.
Proof.
  intros Hf. induction cs as [| c cs IH]; intros s s'; cbn [forEachChild].
  - now intros [= <-].
  - destruct (f c s) as [s1 |] eqn:H1; [| discriminate].
    intros H k. rewrite (IH _ _ H k). now apply (Hf c s s1).
Qed.

Lemma regroup_data (fuel : nat) :
  forall node s s',
    regroupByVisualContainment fuel node s = Some s' ->
    forall k, o_data <$> s' !! k = o_data <$> s !! k.
Proof.
  induction fuel as [| fuel IH]; intros node s s';
    cbn [regroupByVisualContainment]; [discriminate |].
  destruct (childrenAt s node) as [| c cs]; [now intros [= <-] |].
  destruct (forEachChild _ _ s) as [s1 |] eqn:H1; [| discriminate].
  destruct (regroupLoop _ _ _ s1 []) as [s2 R] eqn:H2.
  intros [= <-] k. rewrite setChildren_data.
  rewrite (regroupLoop_data _ _ _ _ _ _ _ H2 k).
  apply (forEachChild_data _ IH _ _ _ H1 k).
Qed.

Lemma same_data_dom (s s' : Store) :
  (forall k, o_data <$> s' !! k = o_data <$> s !! k) -> dom s' = dom s.
Proof.
  intros Hdat. apply set_eq. intros k. rewrite !elem_of_dom. specialize (Hdat k).
  destruct (s' !! k), (s !! k); cbn in Hdat; split; intros [? ?]; eauto; discriminate.
Qed.

(** Regrouping writes the [children] arrays only: every object keeps its
    fields, and no object is made or removed.  This holds of every store. *)
Theorem regroup_keeps_fields (fuel : nat) (node : handle) (s s' : Store) :
  regroupByVisualContainment fuel node s = Some s' ->
  (forall k, o_data <$> s' !! k = o_data <$> s !! k)
  /\ dom s' = dom s.
Proof.
  intros H. pose proof (regroup_data fuel node s s' H) as Hdat.
  split; [exact Hdat | now apply same_data_dom].
Qed.

Lemma firstContainer_data (s s' : Store) (siblings : list handle) (c : handle) :
  (forall k, o_data <$> s' !! k = o_data <$> s !! k) ->
  firstContainer s' siblings c = firstContainer s siblings c.
Proof.
  intros H. unfold firstContainer. induction siblings as [| q l IH]; cbn; [reflexivity |].
  now rewrite (contained_data s s' c q H), IH.
Qed.

(** Where no handle is twice among the siblings, the inner loop finds the
    first container. *)
Lemma findContainer_firstContainer (s : Store) (siblings : list handle) (i : nat)
  (child : handle) :
  NoDup siblings -> siblings !! i = Some child ->
  findContainer s child i 0 siblings = firstContainer s siblings child.
Proof.
  intros Hnd Hi. unfold firstContainer.
  assert (forall j rest,
             (forall k q, rest !! k = Some q -> (q = child <-> i = (j + k)%nat)) ->
             findContainer s child i j rest
             = List.find (fun q => (negb (q =? child)%nat && contained s child q)%bool) rest)
    as Hgen.
  { intros j rest. revert j. induction rest as [| q rest IH]; intros j Hrest; cbn; [reflexivity |].
    assert (findContainer s child i (S j) rest
            = List.find (fun q => (negb (q =? child)%nat && contained s child q)%bool) rest)
      as Htail.
    { apply IH. intros k q' Hk. rewrite (Hrest (S k) q' Hk). lia. }
    pose proof (Hrest 0%nat q eq_refl) as H0. rewrite Nat.add_0_r in H0.
    destruct (Nat.eqb_spec i j) as [Hij | Hij].
    - assert (q = child) as -> by now apply H0. rewrite Nat.eqb_refl. exact Htail.
    - destruct (Nat.eqb_spec q child) as [Hq | Hq]; [now apply H0 in Hq |].
      cbn [negb andb]. now rewrite Htail. }
  apply Hgen. intros k q Hk. cbn. split.
  - intros ->. eapply NoDup_lookup; eassumption.
  - intros ->. congruence.
Qed.

(** The loop as a whole: the children kept are those with no container, in
    order, and each sibling is given, after the children it had, the
    children whose first container it is, in order. *)
Lemma regroupLoop_partition (siblings : list handle) (s0 : Store) (todo : list handle) :
  forall examined s R s' R',
    siblings = (examined ++ todo)%list -> NoDup siblings ->
    (forall k, o_data <$> s !! k = o_data <$> s0 !! k) ->
    regroupLoop siblings (length examined) todo s R = (s', R') ->
    R' = (R ++ List.filter
                 (fun c => bool_decide (firstContainer s0 siblings c = None)) todo)%list
    /\ forall p,
        childrenAt s' p
        = (childrenAt s p
           ++ List.filter
                (fun c => bool_decide (firstContainer s0 siblings c = Some p)) todo)%list.
Proof.
  induction todo as [| child todo IH]; intros examined s R s' R' Hsib Hnd Hdat;
    cbn [regroupLoop List.filter].
  - intros [= <- <-]. split; [now rewrite app_nil_r |]. intros p. now rewrite app_nil_r.
  - assert (siblings !! length examined = Some child) as Hchild
        by (rewrite Hsib; now apply list_lookup_middle).
    rewrite (findContainer_firstContainer s siblings _ child Hnd Hchild).
    rewrite (firstContainer_data s0 s siblings child Hdat).
    assert (siblings = ((examined ++ [child]) ++ todo)%list) as Hsib'
        by now rewrite <- app_assoc.
    assert (S (length examined) = length (examined ++ [child])) as ->
        by (rewrite length_app; cbn; lia).
    destruct (firstContainer s0 siblings child) as [p0 |] eqn:Hfc.
    + intros Hrun.
      destruct (IH _ _ _ _ _ Hsib' Hnd
                  (fun k => eq_trans (pushChild_data p0 child k s) (Hdat k)) Hrun)
        as [HR Hch].
      rewrite bool_decide_eq_false_2 by discriminate.
      split; [exact HR |]. intros p. rewrite Hch.
      destruct (decide (p = p0)) as [-> | Hne].
      * rewrite bool_decide_eq_true_2 by reflexivity. cbn [app].
        assert (is_Some (s !! p0)) as [o Ho].
        { apply find_some in Hfc as [_ Hc]. apply andb_true_iff in Hc as [_ Hc].
          rewrite <- (contained_data s0 s child p0 Hdat) in Hc.
          unfold contained in Hc. destruct (s !! child); [| discriminate].
          destruct (s !! p0); [eauto | discriminate]. }
        unfold childrenAt at 1 2. rewrite (pushChild_at _ _ _ _ Ho), Ho. cbn.
        now rewrite <- app_assoc.
      * rewrite bool_decide_eq_false_2 by congruence.
        unfold childrenAt at 1 2. now rewrite pushChild_other.
    + intros Hrun. destruct (IH _ _ _ _ _ Hsib' Hnd Hdat Hrun) as [HR Hch].
      rewrite bool_decide_eq_true_2 by reflexivity.
      split; [rewrite HR; now rewrite <- app_assoc |].
      intros p. rewrite Hch. now rewrite bool_decide_eq_false_2 by discriminate.
Qed.

End RegroupEffects.

Section RegroupClosedForm.
Import JS Parser.

Lemma childrenAt_same (s s' : Store) (k : handle) :
  s' !! k = s !! k -> childrenAt s' k = childrenAt s k.
Proof. intros H. unfold childrenAt. now rewrite H. Qed.

Lemma uncontained_data (s s' : Store) (l : list handle) :
  (forall k, o_data <$> s' !! k = o_data <$> s !! k) ->
  uncontained s' l = uncontained s l.
Proof.
  intros H. unfold uncontained. apply List.filter_ext. intros c.
  now rewrite (firstContainer_data s s' l c H).
Qed.

Lemma movedInto_data (s s' : Store) (l : list handle) (p : handle) :
  (forall k, o_data <$> s' !! k = o_data <$> s !! k) ->
  movedInto s' l p = movedInto s l p.
Proof.
  intros H. unfold movedInto. apply List.filter_ext. intros c.
  now rewrite (firstContainer_data s s' l c H).
Qed.

Lemma movedInto_outside (s : Store) (l : list handle) (p : handle) :
  p ∉ l -> movedInto s l p = [].
Proof.
  intros Hp. unfold movedInto.
  assert (forall l', List.filter
                       (fun c => bool_decide (firstContainer s l c = Some p)) l' = [])
    as H; [| apply H].
  induction l' as [| c l' IH]; cbn; [reflexivity |].
  rewrite bool_decide_eq_false_2; [exact IH |].
  intros Hfc. apply find_some in Hfc as [Hin _]. now apply Hp, list_elem_of_In.
Qed.

(** In a tree with no handle twice, a child of a node is a node other than
    the root. *)
Lemma kid_in_tree (s : Store) (t : HTree) :
  tree_at s t -> NoDup (handles t) ->
  forall p k, p ∈ handles t -> k ∈ childrenAt s p ->
              k ∈ handles t /\ k <> rootOf t.
Proof.
  induction t as [h d cs IH] using HTree_nested_ind.
  intros Ht Hnd p k Hp Hk. pose proof (childrenAt_tree s _ Ht) as Hch.
  cbn [rootOf kidsOf] in *.
  apply tree_at_node in Ht as [Hh Hall].
  rewrite handles_node in *. apply NoDup_cons in Hnd as [Hroot Hnd].
  assert (k ∈ flat_map handles cs) as Hin.
  { apply elem_of_cons in Hp as [-> | Hp].
    - rewrite Hch in Hk. apply elem_of_map in Hk as (c & -> & Hc).
      apply elem_of_flat_map. exists c. split; [exact Hc | apply rootOf_in_handles].
    - apply elem_of_flat_map in Hp as (c & Hc & Hp).
      apply elem_of_flat_map. exists c. split; [exact Hc |].
      rewrite List.Forall_forall in IH, Hall.
      assert (NoDup (handles c)) as Hndc.
      { clear - Hnd Hc. induction cs as [| c' cs IHcs]; [inversion Hc |].
        cbn [flat_map] in Hnd. apply NoDup_app in Hnd as (H1 & _ & H2).
        apply elem_of_cons in Hc as [-> | Hc]; [exact H1 | now apply IHcs]. }
      apply list_elem_of_In in Hc.
      exact (proj1 (IH c Hc (Hall c Hc) Hndc p k Hp Hk)). }
  split; [now apply list_elem_of_further |]. intros ->. now apply Hroot.
Qed.

Lemma NoDup_part (cs : list HTree) (c : HTree) :
  NoDup (flat_map handles cs) -> c ∈ cs -> NoDup (handles c).
Proof.
  induction cs as [| c' cs IH]; intros Hnd Hc; [inversion Hc |].
  cbn [flat_map] in Hnd. apply NoDup_app in Hnd as (H1 & _ & H2).
  apply elem_of_cons in Hc as [-> | Hc]; [exact H1 | now apply IH].
Qed.

(** A node below the root of one of the trees is the root of none. *)
Lemma inner_not_root (cs : list HTree) (c : HTree) (k : handle) :
  NoDup (flat_map handles cs) -> c ∈ cs -> k ∈ handles c -> k <> rootOf c ->
  k ∉ map rootOf cs.
Proof.
  induction cs as [| c' cs IH]; intros Hnd Hc Hk Hne; [inversion Hc |].
  cbn [flat_map map] in *. apply NoDup_app in Hnd as (H1 & Hdisj & H2).
  assert (forall x, x ∈ map rootOf cs -> x ∈ flat_map handles cs) as Hroots.
  { intros x Hx. apply elem_of_map in Hx as (c0 & -> & Hc0).
    apply elem_of_flat_map. exists c0. split; [exact Hc0 | apply rootOf_in_handles]. }
  apply elem_of_cons in Hc as [-> | Hc].
  - apply not_elem_of_cons. split; [exact Hne |].
    intros Hin. exact (Hdisj k Hk (Hroots k Hin)).
  - apply not_elem_of_cons. split; [| now apply IH].
    intros ->. apply (Hdisj (rootOf c') (rootOf_in_handles c')).
    apply elem_of_flat_map. now exists c.
Qed.

Lemma described_frame (a b s s' : Store) (t : HTree) :
  tree_at a t -> NoDup (handles t) ->
  (forall k, k ∈ handles t -> s !! k = a !! k) ->
  (forall k, o_data <$> s !! k = o_data <$> a !! k) ->
  (forall k, k ∈ handles t -> s' !! k = b !! k) ->
  described a b t -> described s s' t.
Proof.
  intros Ht Hnd Hs Hdat Hs' [Hroot Hkids]. split.
  - rewrite (childrenAt_same b s') by apply Hs', rootOf_in_handles.
    rewrite (childrenAt_same a s) by apply Hs, rootOf_in_handles.
    now rewrite (uncontained_data a s _ Hdat).
  - intros p k Hp Hk. rewrite (childrenAt_same a s p (Hs p Hp)) in *.
    destruct (kid_in_tree a t Ht Hnd p k Hp Hk) as [Hkin _].
    rewrite (childrenAt_same b s' k (Hs' k Hkin)).
    rewrite (childrenAt_same a s k (Hs k Hkin)).
    rewrite (uncontained_data a s _ Hdat), (movedInto_data a s _ _ Hdat).
    now apply Hkids.
Qed.

Lemma forEachChild_described (f : handle -> Store -> option Store) (bound : nat) :
  (forall t s, (depth t <= bound)%nat -> tree_at s t -> NoDup (handles t) ->
               exists s' t', f (rootOf t) s = Some s' /\ regrouped s s' t t'
                             /\ described s s' t) ->
  forall cs s,
    Forall (fun c => (depth c <= bound)%nat) cs ->
    Forall (tree_at s) cs ->
    NoDup (flat_map handles cs) ->
    exists s',
      forEachChild f (map rootOf cs) s = Some s'
      /\ (forall k, k ∉ flat_map handles cs -> s' !! k = s !! k)
      /\ (forall k, o_data <$> s' !! k = o_data <$> s !! k)
      /\ Forall (described s s') cs.
Proof.
  intros Hf. induction cs as [| c cs IH]; intros s Hdep Hall Hnd.
  - exists s. cbn. repeat split; auto.
  - apply List.Forall_cons_iff in Hdep as [Hdc Hdep].
    apply List.Forall_cons_iff in Hall as [Hc Hall].
    cbn [flat_map] in Hnd. apply NoDup_app in Hnd as (Hndc & Hdisj & Hndcs).
    destruct (Hf c s Hdc Hc Hndc)
      as (s1 & c' & Hrun & (Hc' & Hroot & Hndc' & Hsub & Hfr & Hdat & _) & Hdesc).
    assert (Forall (tree_at s1) cs) as Hall1.
    { apply (Forall_tree_at_frame s); [exact Hall |].
      intros k Hk. apply Hfr. intros Hin. exact (Hdisj k Hin Hk). }
    destruct (IH s1 Hdep Hall1 Hndcs) as (s2 & Hrun2 & Hfr2 & Hdat2 & Hdesc2).
    exists s2. cbn [map forEachChild flat_map]. rewrite Hrun, Hrun2.
    repeat split.
    + intros k Hk. apply not_elem_of_app in Hk as [Hk1 Hk2].
      rewrite Hfr2 by exact Hk2. now apply Hfr.
    + intros k. now rewrite Hdat2, Hdat.
    + constructor.
      * apply (described_frame s s1 s s2 c Hc Hndc); [reflexivity | reflexivity | | exact Hdesc].
        intros k Hk. apply Hfr2. intros Hin. exact (Hdisj k Hk Hin).
      * rewrite List.Forall_forall in Hdesc2, Hall1. apply List.Forall_forall.
        intros c0 Hc0.
        apply (described_frame s1 s2 s s2 c0 (Hall1 c0 Hc0));
          [| | | reflexivity | now apply Hdesc2].
        -- apply list_elem_of_In in Hc0. now apply (NoDup_part cs).
        -- intros k Hk. symmetry. apply Hfr. intros Hin. apply (Hdisj k Hin).
           apply elem_of_flat_map. exists c0. split; [now apply list_elem_of_In | exact Hk].
        -- intros k. symmetry. apply Hdat.
Qed.

Lemma regroup_described_tree (fuel : nat) :
  forall t s, (depth t <= fuel)%nat -> tree_at s t -> NoDup (handles t) ->
  exists s' t',
    regroupByVisualContainment fuel (rootOf t) s = Some s'
    /\ regrouped s s' t t' /\ described s s' t.
Proof.
  induction fuel as [| fuel IH]; intros t s Hdep Ht Hnd.
  { destruct t. cbn in Hdep. lia. }
  destruct (regroup_tree (S fuel) t s Hdep Ht Hnd) as (s' & t' & Hrun & Hreg).
  exists s', t'. split; [exact Hrun |]. split; [exact Hreg |].
  destruct t as [h d cs].
  pose proof (childrenAt_tree s _ Ht) as Hch.
  pose proof (kid_in_tree s _ Ht Hnd) as Hkid.
  pose proof Ht as Ht0. apply tree_at_node in Ht as [Hh Hcs].
  pose proof Hnd as Hnd0. rewrite handles_node in Hnd. apply NoDup_cons in Hnd as [Hroot Hndcs].
  cbn [rootOf kidsOf] in *.
  cbn [regroupByVisualContainment] in Hrun. rewrite Hch in Hrun.
  destruct cs as [| c0 cs0]; cbn [map] in Hrun.
  { injection Hrun as <-. split.
    - cbn [rootOf]. now rewrite Hch.
    - intros p k Hp Hk. rewrite handles_node in Hp. cbn in Hp.
      apply list_elem_of_singleton in Hp as ->. rewrite Hch in Hk. inversion Hk. }
  set (cs := c0 :: cs0) in *.
  change (rootOf c0 :: map rootOf cs0) with (map rootOf cs) in *.
  destruct (forEachChild_described (regroupByVisualContainment fuel) fuel IH cs s)
    as (s1 & Hrun1 & Hfr1 & Hdat1 & Hdesc1).
  { apply List.Forall_forall. intros c Hc.
    pose proof (depth_kid h d cs c) as Hk. rewrite list_elem_of_In in Hk.
    specialize (Hk Hc). lia. }
  { exact Hcs. }
  { exact Hndcs. }
  rewrite Hrun1 in Hrun.
  assert (s1 !! h = Some (mkObj d (map rootOf cs))) as Hh1 by (rewrite Hfr1; auto).
  assert (childrenAt s1 h = map rootOf cs) as Hsib by (unfold childrenAt; now rewrite Hh1).
  rewrite Hsib in Hrun.
  destruct (regroupLoop (map rootOf cs) 0 (map rootOf cs) s1 []) as [s2 R] eqn:Hloop.
  injection Hrun as <-.
  destruct (regroupLoop_partition (map rootOf cs) s (map rootOf cs) [] s1 [] s2 R)
    as [HR Hpush]; auto.
  { now apply NoDup_roots. }
  cbn [app] in HR.
  assert (h ∉ map rootOf cs) as Hhsib.
  { intros Hin. apply Hroot. apply elem_of_map in Hin as (c & -> & Hc).
    apply elem_of_flat_map. exists c. split; [exact Hc | apply rootOf_in_handles]. }
  assert (is_Some (s2 !! h)) as [o2 Ho2].
  { pose proof (regroupLoop_data _ _ _ _ _ _ _ Hloop h) as Hd. rewrite Hh1 in Hd.
    destruct (s2 !! h); [eauto | discriminate]. }
  split.
  - cbn [rootOf]. unfold childrenAt at 1, setChildren. rewrite lookup_alter_eq, Ho2. cbn.
    rewrite Hch. exact HR.
  - intros p k Hp Hk. destruct (Hkid p k Hp Hk) as [_ Hkh].
    unfold childrenAt at 1. rewrite setChildren_other by exact Hkh.
    fold (childrenAt s2 k). rewrite Hpush.
    fold (movedInto s (map rootOf cs) k).
    rewrite handles_node in Hp. apply elem_of_cons in Hp as [-> | Hp].
    + (* a child of the root *)
      rewrite Hch in *. apply elem_of_map in Hk as (c & -> & Hc).
      rewrite List.Forall_forall in Hdesc1.
      destruct (Hdesc1 c) as [Hown _]; [now apply list_elem_of_In |].
      now rewrite Hown.
    + (* a node further down *)
      apply elem_of_flat_map in Hp as (c & Hc & Hp).
      rewrite List.Forall_forall in Hdesc1, Hcs.
      destruct (Hdesc1 c) as [_ Hin]; [now apply list_elem_of_In |].
      rewrite (Hin p k Hp Hk).
      destruct (kid_in_tree s c) with (p := p) (k := k) as [Hkc Hkr]; auto.
      { now apply Hcs, list_elem_of_In. }
      { now apply (NoDup_part cs). }
      rewrite (movedInto_outside s (map rootOf cs) k); [now rewrite app_nil_r |].
      now apply (inner_not_root cs c).
Qed.

(** Regrouping a tree that the store holds, no handle twice, ends, and the
    [children] arrays it leaves are those of the closed form: at the root
    the children that no other child contains, in order; at a child of a
    node, those of its own children that no other contains and, after them,
    the children of the node whose first container it is, in order. *)
Theorem regroup_closed_form (fuel : nat) (t : HTree) (s : Store) :
  (depth t <= fuel)%nat -> tree_at s t -> NoDup (handles t) ->
  exists s',
    regroupByVisualContainment fuel (rootOf t) s = Some s'
    /\ described s s' t.
Proof.
  intros Hdep Ht Hnd.
  destruct (regroup_described_tree fuel t s Hdep Ht Hnd) as (s' & t' & Hrun & _ & Hd).
  now exists s'.
Qed.

End RegroupClosedForm.

Section RegroupIdentity.
Import JS Parser.

Lemma filter_all {A} (f : A -> bool) (l : list A) :
  (forall x, x ∈ l -> f x = true) -> List.filter f l = l.
Proof.
  induction l as [| a l IH]; intros H; cbn; [reflexivity |].
  rewrite (H a) by apply list_elem_of_here.
  f_equal. apply IH. intros x Hx. now apply H, list_elem_of_further.
Qed.

Lemma filter_none {A} (f : A -> bool) (l : list A) :
  (forall x, x ∈ l -> f x = false) -> List.filter f l = [].
Proof.
  induction l as [| a l IH]; intros H; cbn; [reflexivity |].
  rewrite (H a) by apply list_elem_of_here.
  apply IH. intros x Hx. now apply H, list_elem_of_further.
Qed.

Lemma settled_firstContainer (s : Store) (p c : handle) :
  settled s p -> c ∈ childrenAt s p -> firstContainer s (childrenAt s p) c = None.
Proof.
  intros Hset Hc. apply list_elem_of_lookup_1 in Hc as [i Hi].
  unfold firstContainer.
  assert (forall l, (forall q, q ∈ l -> q <> c -> contained s c q = false) ->
                    List.find (fun q => (negb (q =? c)%nat && contained s c q)%bool) l = None)
    as Hfind.
  { induction l as [| q l IH]; intros H; cbn; [reflexivity |].
    destruct (Nat.eqb_spec q c) as [-> | Hne]; cbn [negb andb].
    - apply IH. intros q' Hq'. now apply H, list_elem_of_further.
    - rewrite (H q) by (apply list_elem_of_here || exact Hne).
      apply IH. intros q' Hq'. now apply H, list_elem_of_further. }
  apply Hfind. intros q Hq Hne. apply list_elem_of_lookup_1 in Hq as [k Hk].
  apply (Hset i k); [exact Hi | exact Hk |]. intros ->. congruence.
Qed.

Lemma settled_uncontained (s : Store) (p : handle) :
  settled s p -> uncontained s (childrenAt s p) = childrenAt s p.
Proof.
  intros Hset. unfold uncontained. apply filter_all. intros c Hc.
  apply bool_decide_eq_true_2. now apply settled_firstContainer.
Qed.

Lemma settled_movedInto (s : Store) (p k : handle) :
  settled s p -> movedInto s (childrenAt s p) k = [].
Proof.
  intros Hset. unfold movedInto. apply filter_none. intros c Hc.
  apply bool_decide_eq_false_2. now rewrite settled_firstContainer.
Qed.

(** A node of a tree is the root or the child of a node. *)
Lemma node_has_parent (s : Store) (t : HTree) :
  tree_at s t ->
  forall k, k ∈ handles t ->
            k = rootOf t \/ exists p, p ∈ handles t /\ k ∈ childrenAt s p.
Proof.
  induction t as [h d cs IH] using HTree_nested_ind.
  intros Ht k Hk. pose proof (childrenAt_tree s _ Ht) as Hch.
  cbn [rootOf kidsOf] in *. apply tree_at_node in Ht as [_ Hall].
  rewrite handles_node in *. apply elem_of_cons in Hk as [-> | Hk]; [now left | right].
  apply elem_of_flat_map in Hk as (c & Hc & Hk).
  rewrite List.Forall_forall in IH, Hall. pose proof Hc as Hc'. apply list_elem_of_In in Hc'.
  destruct (IH c Hc' (Hall c Hc') k Hk) as [-> | (p & Hp & Hkp)].
  - exists h. split; [apply list_elem_of_here |].
    rewrite Hch. apply elem_of_map. now exists c.
  - exists p. split; [| exact Hkp]. apply list_elem_of_further.
    apply elem_of_flat_map. now exists c.
Qed.

Lemma tree_at_present (s : Store) (t : HTree) :
  tree_at s t -> forall k, k ∈ handles t -> is_Some (s !! k).
Proof.
  induction t as [h d cs IH] using HTree_nested_ind.
  intros Ht k Hk. apply tree_at_node in Ht as [Hh Hall].
  rewrite handles_node in Hk. apply elem_of_cons in Hk as [-> | Hk]; [eauto |].
  apply elem_of_flat_map in Hk as (c & Hc & Hk).
  rewrite List.Forall_forall in IH, Hall. apply list_elem_of_In in Hc.
  now apply (IH c Hc (Hall c Hc)).
Qed.

(** Regrouping changes nothing where there is nothing to regroup: on a tree
    no node of which has a child visually contained in another of its
    children, the store after the run is the store before it. *)
Theorem regroup_settled_identity (fuel : nat) (t : HTree) (s : Store) :
  (depth t <= fuel)%nat -> tree_at s t -> NoDup (handles t) ->
  (forall k, k ∈ handles t -> settled s k) ->
  regroupByVisualContainment fuel (rootOf t) s = Some s.
Proof.
  intros Hdep Ht Hnd Hset.
  destruct (regroup_described_tree fuel t s Hdep Ht Hnd)
    as (s' & t' & Hrun & (_ & _ & _ & _ & Hfr & Hdat & _) & [Hroot Hkids]).
  rewrite Hrun. f_equal. apply map_eq. intros k.
  destruct (decide (k ∈ handles t)) as [Hk | Hk]; [| now apply Hfr].
  assert (childrenAt s' k = childrenAt s k) as Hch.
  { destruct (node_has_parent s t Ht k Hk) as [-> | (p & Hp & Hkp)].
    - rewrite Hroot. apply settled_uncontained, Hset, rootOf_in_handles.
    - rewrite (Hkids p k Hp Hkp).
      rewrite (settled_uncontained s k (Hset k Hk)).
      rewrite (settled_movedInto s p k (Hset p Hp)). apply app_nil_r. }
  specialize (Hdat k). destruct (tree_at_present s t Ht k Hk) as [o Ho].
  unfold childrenAt in Hch. rewrite Ho in *.
  destruct (s' !! k) as [o' |]; [| discriminate].
  cbn in Hdat, Hch. destruct o, o'. cbn in *. congruence.
Qed.

End RegroupIdentity.

(** ** The properties above on the example nodes *)

Section ExampleRuns.
Import JS Parser.

Lemma calculatePadding_nonneg_witness :
  exists p,
    calculatePadding stackedFrame (childList stackedFrame) = Some p
    /\ 0 <= top p /\ 0 <= right p /\ 0 <= bottom p /\ 0 <= left p.
Proof.
  eexists. split; [vm_compute; reflexivity |].
  apply (proj2 (calculatePadding_nonneg stackedFrame (childList stackedFrame))).
  vm_compute. reflexivity.
Defined.

Lemma calculatePadding_nearest_witness :
  exists p,
    calculatePadding stackedFrame (childList stackedFrame) = Some p
    /\ exists c, In c (childrenWithBounds (childList stackedFrame))
                 /\ bottom p = pad ((0 + 400) - (y c + height c)).
Proof.
  eexists. split; [vm_compute; reflexivity |].
  apply (calculatePadding_nearest stackedFrame (childList stackedFrame)
           (mkBox 0 0 300 400)); [reflexivity | vm_compute; reflexivity].
Defined.

Lemma calculateChildGaps_bounds_witness :
  (2 <= length (collectGaps threeStacked vertical_arr))%nat
  /\ calculateChildGaps threeStacked vertical_arr <= 200.
Proof.
  assert (2 <= length (collectGaps threeStacked vertical_arr))%nat as H
      by (vm_compute; lia).
  split; [exact H |].
  exact (proj1 (proj2 (calculateChildGaps_bounds threeStacked vertical_arr)) H).
Defined.

Lemma averageGapOf_filtered_witness :
  Forall (fun g => 0 <= g) [10; 12; 100]
  /\ averageGapOf [10; 12; 100] = round2 ((10 + 12) / 2).
Proof.
  assert (Forall (fun g => 0 <= g) [10; 12; 100]) as H
      by (repeat constructor; discriminate).
  split; [exact H |].
  etransitivity;
    [apply (proj2 (averageGapOf_filtered [10; 12; 100] H ltac:(cbn; lia)))
    | vm_compute; reflexivity].
Defined.

Lemma hidden_fills_contain_nothing_witness :
  exists p,
    parseNode ∅ hiddenCard [] = (inr p, [])
    /\ isVisuallyContained textLabel (data_of p) = false.
Proof.
  eexists. split; [vm_compute; reflexivity |].
  apply (hidden_fills_contain_nothing ∅ hiddenCard [] []).
  - repeat constructor.
  - vm_compute. reflexivity.
  - vm_compute. reflexivity.
Defined.


Lemma extractLayout_flex_fields_witness :
  strategy (extractLayout pageOfThree) <> Flexbox
  /\ gap (extractLayout pageOfThree) = None.
Proof.
  assert (strategy (extractLayout pageOfThree) <> Flexbox) as H
      by (vm_compute; discriminate).
  split; [exact H |].
  exact (proj1 (proj2 (extractLayout_flex_fields pageOfThree) H)).
Defined.

Lemma extractLayout_declared_witness :
  extractLayout (FNode declaredColumn None)
  = extractLayout (FNode declaredColumn (Some threeOverlapping))
  /\ gap (extractLayout (FNode declaredColumn (Some threeOverlapping))) = Some 12.
Proof.
  split.
  - apply (extractLayout_declared declaredColumn None (Some threeOverlapping)). reflexivity.
  - apply (extractLayout_declared declaredColumn (Some threeOverlapping) None). reflexivity.
Defined.

Lemma detectAlignment_values_witness :
  exists a,
    a_alignItems (detectAlignment tieFrame tieChildren vertical_arr) = Some a
    /\ In a ["center"; "flex-start"; "flex-end"; "stretch"].
Proof.
  apply (proj2 (detectAlignment_values tieFrame tieChildren vertical_arr)).
  intros [H | [H | H]]; discriminate.
Defined.

Lemma regroup_keeps_fields_witness :
  exists s',
    regroupByVisualContainment 2 0%nat (alloc twoBars) = Some s'
    /\ dom s' = dom (alloc twoBars).
Proof.
  eexists. split; [vm_compute; reflexivity |].
  apply (regroup_keeps_fields 2 0%nat (alloc twoBars)). vm_compute. reflexivity.
Defined.

Lemma regroup_closed_form_witness :
  exists s',
    regroupByVisualContainment 3 0%nat (alloc cardAndText) = Some s'
    /\ described (alloc cardAndText) s' (fst (label cardAndText 0%nat)).
Proof.
  destruct (alloc_tree cardAndText) as (Ht & Hnd & _).
  apply (regroup_closed_form 3 (fst (label cardAndText 0%nat)) (alloc cardAndText));
    [vm_compute; lia | exact Ht | exact Hnd].
Defined.

Lemma regroup_settled_identity_witness :
  regroupByVisualContainment 2 0%nat (alloc sideBySide) = Some (alloc sideBySide).
Proof.
  destruct (alloc_tree sideBySide) as (Ht & Hnd & _).
  apply (regroup_settled_identity 2 (fst (label sideBySide 0%nat)) (alloc sideBySide));
    [vm_compute; lia | exact Ht | exact Hnd |].
  intros k Hk i j c q Hc Hq Hne.
  assert (k = 0 \/ k = 1 \/ k = 2)%nat as Hcases.
  { assert (handles (fst (label sideBySide 0%nat)) = [0; 1; 2]%nat) as E
        by (vm_compute; reflexivity).
    rewrite E in Hk. rewrite !elem_of_cons in Hk.
    destruct Hk as [-> | [-> | [-> | Hk]]]; [tauto | tauto | tauto | inversion Hk]. }
  destruct Hcases as [-> | [-> | ->]]; vm_compute in Hc, Hq.
  - destruct i as [| [| i]], j as [| [| j]]; try discriminate; try congruence;
      injection Hc as <-; injection Hq as <-; vm_compute; reflexivity.
  - destruct i; discriminate.
  - destruct i; discriminate.
Defined.

End ExampleRuns.

(** ** The properties that the layout engine writes *)

Section EngineKeys.
Import JS Parser LayoutEngine.
Variable numToString : Q -> string.

Local Ltac skip_key :=
  repeat first [ rewrite lookup_insert_ne by discriminate
               | rewrite lookup_delete_ne by discriminate ].

Local Ltac by_cases :=
  repeat first
    [ progress skip_key
    | match goal with
      | |- context [if ?c then _ else _] => destruct c
      | |- context [match ?o with Some _ => _ | None => _ end] => destruct o
      end ].

Lemma applyWidth_containerKey (l : LayoutProperties) (css : CSSProperties) (k : string) :
  containerKey k -> applyWidth numToString l css !! k = css !! k.
Proof.
  intros [-> | [-> | [-> | [-> | [-> | ->]]]]]; unfold applyWidth, setIf; now by_cases.
Qed.

Lemma applyHeight_containerKey (l : LayoutProperties) (css : CSSProperties) (k : string) :
  containerKey k -> applyHeight numToString l css !! k = css !! k.
Proof.
  intros [-> | [-> | [-> | [-> | [-> | ->]]]]]; unfold applyHeight;
    destruct (l_height l) as [h |]; try reflexivity;
    destruct (gtb h 0); try reflexivity; destruct (strategy l); now skip_key.
Qed.

Lemma applyCentering_containerKey (node : NodeData) (parentNode : option NodeData)
  (css : CSSProperties) (k : string) :
  containerKey k -> applyCentering node parentNode css !! k = css !! k.
Proof.
  intros Hk. unfold applyCentering.
  destruct parentNode as [parent |]; [| reflexivity].
  destruct (position (layout node)); [| reflexivity].
  destruct (position (layout parent)); [| reflexivity].
  destruct (_ && _ && _)%bool; [| reflexivity].
  cbv zeta.
  destruct Hk as [-> | [-> | [-> | [-> | [-> | ->]]]]];
    repeat match goal with
           | |- context [if ?c then _ else _] => destruct c
           end;
    now skip_key.
Qed.

Lemma applyConstraints_containerKey (c : Constraints) (css : CSSProperties) (k : string) :
  containerKey k -> applyConstraints css c !! k = css !! k.
Proof.
  intros [-> | [-> | [-> | [-> | [-> | ->]]]]];
    unfold applyConstraints, applyVerticalConstraint, applyHorizontalConstraint, setIf;
    now by_cases.
Qed.

Lemma generateLayoutCSS_containerKey (node : NodeData) (parentNode : option NodeData)
  (k : string) :
  containerKey k ->
  generateLayoutCSS numToString node parentNode !! k
  = applyStrategy numToString node parentNode ∅ !! k.
Proof.
  intros Hk. unfold generateLayoutCSS.
  destruct (l_constraints (layout node));
    rewrite ?applyConstraints_containerKey by exact Hk;
    now rewrite applyHeight_containerKey, applyCentering_containerKey,
      applyWidth_containerKey by exact Hk.
Qed.

Lemma effectiveStrategy_cases (node : NodeData) (parentNode : option NodeData) :
  effectiveStrategy node parentNode = strategy (layout node)
  \/ (strategy (layout node) = Absolute
      /\ effectiveStrategy node parentNode = Static
      /\ (isDecorativeLine (layout node) || isDecorativeContainer node)%bool = true
      /\ parentIsFlexbox parentNode = true).
Proof.
  unfold effectiveStrategy.
  destruct (isDecorativeLine (layout node) || isDecorativeContainer node)%bool;
    [| now left].
  destruct (parentIsFlexbox parentNode); [| now left].
  destruct (strategy (layout node)); cbn; auto.
Qed.

(** What makes a node a container is written for the containers only, and
    from their own strategy: [display] is [flex] on a Flexbox node, [grid] on
    a Grid node and absent otherwise; [flexDirection] is that of the layout,
    or [column], on a Flexbox node and absent otherwise; [gap] is written for
    a gap greater than 0, rounded to two decimals on a Flexbox node and as it
    is on a Grid node. *)
Theorem generateLayoutCSS_container (node : NodeData) (parentNode : option NodeData) :
  let css := generateLayoutCSS numToString node parentNode in
  let l := layout node in
  css !! "display"
  = match strategy l with
    | Flexbox => Some "flex" | Grid => Some "grid" | _ => None
    end
  /\ css !! "flexDirection"
     = match strategy l with
       | Flexbox => Some (flexDirectionName (default column (flexDirection l)))
       | _ => None
       end
  /\ css !! "gap"
     = match strategy l, gap l with
       | Flexbox, Some g => if gtb g 0 then Some (px numToString (round2 g)) else None
       | Grid, Some g => if gtb g 0 then Some (px numToString g) else None
       | _, _ => None
       end.
Proof.
  cbv zeta.
  rewrite !generateLayoutCSS_containerKey by (unfold containerKey; tauto).
  unfold applyStrategy.
  destruct (effectiveStrategy_cases node parentNode) as [-> | (Ha & -> & _)].
  - destruct (strategy (layout node)).
    + unfold applyAbsoluteLayout. repeat split; by_cases; apply lookup_empty.
    + unfold applyFlexboxLayout, flexPadding, setIf.
      repeat split; by_cases; rewrite ?lookup_insert_eq; auto.
    + unfold applyGridLayout, fourPadding, setIf.
      repeat split; by_cases; rewrite ?lookup_insert_eq; auto.
    + unfold applyStaticLayout, fourPadding. repeat split; by_cases; apply lookup_empty.
  - rewrite Ha. unfold applyStaticLayout, fourPadding.
    repeat split; by_cases; apply lookup_empty.
Qed.

Lemma applyAbsoluteLayout_position (css : CSSProperties) (l : LayoutProperties)
  (node : NodeData) (parentNode : option NodeData) :
  applyAbsoluteLayout numToString css l node parentNode !! "position"
  = Some (match parentNode with Some _ => "absolute" | None => "relative" end).
Proof.
  unfold applyAbsoluteLayout. destruct parentNode; by_cases; apply lookup_insert_eq.
Qed.

(** The centring step leaves the [position] of a node that keeps the
    Absolute strategy: it removes one from the nodes it takes for
    decorative in a flexbox column, and those have lost the strategy. *)
Lemma applyCentering_keeps_position (node : NodeData) (parentNode : option NodeData)
  (css : CSSProperties) :
  effectiveStrategy node parentNode = Absolute ->
  applyCentering node parentNode css !! "position" = css !! "position".
Proof.
  intros He. unfold applyCentering.
  destruct parentNode as [parent |]; [| reflexivity].
  destruct (position (layout node)); [| reflexivity].
  destruct (position (layout parent)); [| reflexivity].
  destruct (truthy_num (l_width (layout node))) eqn:Hw; [| reflexivity].
  destruct (truthy_num (l_height (layout node))) eqn:Hh; [| reflexivity].
  destruct (truthy_num (l_width (layout parent))); [| reflexivity].
  cbn [andb]. cbv zeta.
  destruct (eq_strategy (strategy (layout parent)) Flexbox) eqn:Hp; cbn [andb];
    [| now by_cases].
  destruct (flexDirection (layout parent)) as [[|] |]; try now by_cases.
  unfold effectiveStrategy, isDecorativeLine, isDecorativeContainer, parentIsFlexbox in He.
  rewrite Hp, Hw, Hh in He. cbn [andb] in He.
  rewrite andb_true_r in He.
  destruct (ltb (or0 (l_height (layout node))) 10) eqn:E1;
    destruct (gtb (or0 (l_width (layout node))) 20) eqn:E2;
    destruct (ltb (or0 (l_height (layout node))) 30) eqn:E3;
    destruct (nameHasIndicator node) eqn:E4;
    cbn [andb orb] in He |- *;
    try (destruct (strategy (layout node)); cbn in He; discriminate);
    now by_cases.
Qed.

(** [position] goes with the strategy that the engine has settled on: a
    node that keeps the Absolute strategy is [absolute] inside a parent and
    [relative] without one, and any other node has no [position].
    [overflow] is [hidden] on the Absolute nodes without a parent, and
    absent otherwise. *)
Theorem generateLayoutCSS_position (node : NodeData) (parentNode : option NodeData) :
  let css := generateLayoutCSS numToString node parentNode in
  css !! "position"
  = match effectiveStrategy node parentNode, parentNode with
    | Absolute, Some _ => Some "absolute"
    | Absolute, None => Some "relative"
    | _, _ => None
    end
  /\ css !! "overflow"
     = match strategy (layout node), parentNode with
       | Absolute, None => Some "hidden"
       | _, _ => None
       end.
Proof.
  cbv zeta. split.
  - assert (applyHeight numToString (layout node)
              (applyCentering node parentNode
                 (applyWidth numToString (layout node)
                    (applyStrategy numToString node parentNode ∅))) !! "position"
            = match effectiveStrategy node parentNode, parentNode with
              | Absolute, Some _ => Some "absolute"
              | Absolute, None => Some "relative"
              | _, _ => None
              end) as H.
    { rewrite applyHeight_position. unfold applyStrategy.
      destruct (effectiveStrategy node parentNode) eqn:He.
      - rewrite applyCentering_keeps_position by exact He.
        rewrite applyWidth_position, applyAbsoluteLayout_position.
        now destruct parentNode.
      - apply applyCentering_position. rewrite applyWidth_position.
        unfold applyFlexboxLayout, flexPadding, setIf. by_cases; apply lookup_empty.
      - apply applyCentering_position. rewrite applyWidth_position.
        unfold applyGridLayout, fourPadding, setIf. by_cases; apply lookup_empty.
      - apply applyCentering_position. rewrite applyWidth_position.
        unfold applyStaticLayout. rewrite fourPadding_position. apply lookup_empty. }
    unfold generateLayoutCSS. destruct (l_constraints (layout node)); [| exact H].
    now rewrite applyConstraints_position.
  - rewrite generateLayoutCSS_containerKey by (unfold containerKey; tauto).
    unfold applyStrategy.
    destruct (effectiveStrategy_cases node parentNode) as [-> | (Ha & -> & _ & Hp)].
    + destruct (strategy (layout node)).
      * unfold applyAbsoluteLayout. destruct parentNode; by_cases;
          rewrite ?lookup_insert_eq; auto.
      * unfold applyFlexboxLayout, flexPadding, setIf. by_cases; apply lookup_empty.
      * unfold applyGridLayout, fourPadding, setIf. by_cases; apply lookup_empty.
      * unfold applyStaticLayout, fourPadding. by_cases; apply lookup_empty.
    + rewrite Ha. destruct parentNode; [| discriminate].
      unfold applyStaticLayout, fourPadding. by_cases; apply lookup_empty.
Qed.

End EngineKeys.

Section EngineSizes.
Import JS Parser LayoutEngine.
Variable numToString : Q -> string.

Local Ltac skip_key :=
  repeat first [ rewrite lookup_insert_ne by discriminate
               | rewrite lookup_delete_ne by discriminate ].

Local Ltac by_cases :=
  repeat first
    [ progress skip_key
    | match goal with
      | |- context [if ?c then _ else _] => destruct c
      | |- context [match ?o with Some _ => _ | None => _ end] => destruct o
      end ].

Local Ltac decide_names :=
  repeat match goal with
         | |- context [String.eqb ?a ?b] =>
             lazymatch a with String _ _ => idtac end;
             let v := eval vm_compute in (String.eqb a b) in
             change (String.eqb a b) with v
         end;
  cbv iota.

Lemma truthy_px (n : Q) : truthy_str (Some (px numToString n)) = true.
Proof. unfold px. now destruct (numToString n). Qed.

Lemma applyStrategy_sizes (node : NodeData) (parentNode : option NodeData) (k : string) :
  k = "width" \/ k = "height" \/ k = "minHeight" \/ k = "right" \/ k = "bottom" ->
  applyStrategy numToString node parentNode ∅ !! k = None.
Proof.
  intros Hk. unfold applyStrategy.
  destruct (effectiveStrategy node parentNode).
  - unfold applyAbsoluteLayout.
    destruct Hk as [-> | [-> | [-> | [-> | ->]]]]; by_cases; apply lookup_empty.
  - unfold applyFlexboxLayout, flexPadding, setIf.
    destruct Hk as [-> | [-> | [-> | [-> | ->]]]]; by_cases; apply lookup_empty.
  - unfold applyGridLayout, fourPadding, setIf.
    destruct Hk as [-> | [-> | [-> | [-> | ->]]]]; by_cases; apply lookup_empty.
  - unfold applyStaticLayout, fourPadding.
    destruct Hk as [-> | [-> | [-> | [-> | ->]]]]; by_cases; apply lookup_empty.
Qed.

Lemma applyCentering_sizes (node : NodeData) (parentNode : option NodeData)
  (css : CSSProperties) (k : string) :
  k = "width" \/ k = "height" \/ k = "minHeight" \/ k = "right" \/ k = "bottom" ->
  applyCentering node parentNode css !! k = css !! k.
Proof.
  intros Hk. unfold applyCentering.
  destruct parentNode as [parent |]; [| reflexivity].
  destruct (position (layout node)); [| reflexivity].
  destruct (position (layout parent)); [| reflexivity].
  destruct (_ && _ && _)%bool; [| reflexivity].
  cbv zeta.
  destruct Hk as [-> | [-> | [-> | [-> | ->]]]];
    repeat match goal with
           | |- context [if ?c then _ else _] => destruct c
           end;
    now skip_key.
Qed.

(** The sizes before the constraints are applied. *)
Lemma sizes_before_constraints (node : NodeData) (parentNode : option NodeData) :
  let css :=
    applyHeight numToString (layout node)
      (applyCentering node parentNode
         (applyWidth numToString (layout node)
            (applyStrategy numToString node parentNode ∅))) in
  css !! "width" = sizedWidth numToString (layout node)
  /\ css !! "height"
     = match strategy (layout node) with
       | Flexbox => None | _ => sizedHeight numToString (layout node)
       end
  /\ css !! "minHeight"
     = match strategy (layout node) with
       | Flexbox => sizedHeight numToString (layout node) | _ => None
       end
  /\ css !! "right" = None /\ css !! "bottom" = None.
Proof.
  cbv zeta.
  pose proof (applyStrategy_sizes node parentNode) as H0.
  set (c0 := applyStrategy numToString node parentNode ∅) in *.
  assert (applyWidth numToString (layout node) c0 !! "width" = sizedWidth numToString (layout node)
          /\ forall k, k = "height" \/ k = "minHeight" \/ k = "right" \/ k = "bottom" ->
                       applyWidth numToString (layout node) c0 !! k = None) as [W1 W2].
  { unfold applyWidth, sizedWidth, setIf. split.
    - destruct (l_width (layout node)) as [w |]; [| apply H0; tauto].
      destruct (gtb w 0); [apply lookup_insert_eq | apply H0; tauto].
    - intros k Hk. assert (c0 !! k = None) as Hc by (apply H0; tauto).
      destruct Hk as [-> | [-> | [-> | ->]]]; by_cases; exact Hc. }
  set (c1 := applyWidth numToString (layout node) c0) in *.
  pose proof (applyCentering_sizes node parentNode c1) as C.
  set (c2 := applyCentering node parentNode c1) in *.
  assert (c2 !! "width" = sizedWidth numToString (layout node)) as C1 by (rewrite C; tauto).
  assert (forall k, k = "height" \/ k = "minHeight" \/ k = "right" \/ k = "bottom" ->
                    c2 !! k = None) as C2 by (intros k Hk; rewrite C; [now apply W2 | tauto]).
  unfold applyHeight, sizedHeight.
  destruct (l_height (layout node)) as [h |].
  - destruct (gtb h 0).
    + destruct (strategy (layout node)); repeat split; skip_key;
        rewrite ?lookup_insert_eq; auto; apply C2; tauto.
    + destruct (strategy (layout node)); repeat split; auto; apply C2; tauto.
  - destruct (strategy (layout node)); repeat split; auto; apply C2; tauto.
Qed.

(** The sizes that the engine writes, the constraints taken into account.
    [width] is the width of the layout rounded to two decimals, where that is
    greater than 0; the horizontal constraint LEFT_RIGHT removes it and SCALE
    makes it [100%].  A Flexbox node has its height as [minHeight], whatever
    the constraints, and no [height]; any other node has it as [height],
    which TOP_BOTTOM removes and SCALE makes [100%].  Nothing is written for
    a size that is absent or not greater than 0. *)
Theorem generateLayoutCSS_sizes (node : NodeData) (parentNode : option NodeData) :
  let css := generateLayoutCSS numToString node parentNode in
  let l := layout node in
  let constrained (on : Constraints -> string) (stretch : string) (v : option string) :=
    match l_constraints l, v with
    | Some c, Some _ =>
        if String.eqb (on c) stretch then None
        else if String.eqb (on c) "SCALE" then Some "100%"
        else v
    | _, _ => v
    end in
  css !! "width" = constrained horizontal "LEFT_RIGHT" (sizedWidth numToString l)
  /\ css !! "height"
     = match strategy l with
       | Flexbox => None
       | _ => constrained vertical "TOP_BOTTOM" (sizedHeight numToString l)
       end
  /\ css !! "minHeight"
     = match strategy l with Flexbox => sizedHeight numToString l | _ => None end.
Proof.
  cbv zeta. unfold generateLayoutCSS.
  destruct (sizes_before_constraints node parentNode) as (W & H & M & _).
  cbv zeta in W, H, M.
  set (css := applyHeight _ _ _) in *.
  destruct (l_constraints (layout node)) as [c |].
  - rewrite applyConstraints_minHeight.
    split; [| split; [| exact M]].
    + unfold applyConstraints.
      assert (applyHorizontalConstraint (horizontal c) css !! "width"
              = match sizedWidth numToString (layout node) with
                | Some _ =>
                    if String.eqb (horizontal c) "LEFT_RIGHT" then None
                    else if String.eqb (horizontal c) "SCALE" then Some "100%"
                    else sizedWidth numToString (layout node)
                | None => None
                end) as Hh.
      { unfold applyHorizontalConstraint, setIf. rewrite W.
        destruct (String.eqb_spec (horizontal c) "LEFT") as [E | _];
          [rewrite E; decide_names; rewrite W;
           now destruct (sizedWidth numToString (layout node)) |].
        destruct (String.eqb_spec (horizontal c) "RIGHT") as [E | _];
          [rewrite E; decide_names; skip_key; rewrite W;
           now destruct (sizedWidth numToString (layout node)) |].
        destruct (String.eqb_spec (horizontal c) "CENTER") as [E | _];
          [rewrite E; decide_names; skip_key; rewrite W;
           now destruct (sizedWidth numToString (layout node)) |].
        destruct (String.eqb_spec (horizontal c) "LEFT_RIGHT") as [E | _];
          [rewrite lookup_delete_eq; now destruct (sizedWidth numToString (layout node)) |].
        destruct (String.eqb_spec (horizontal c) "SCALE") as [E | _].
        - unfold sizedWidth in *.
          destruct (l_width (layout node)) as [w |]; [| cbn [truthy_str]; now rewrite W].
          destruct (gtb w 0); [| cbn [truthy_str]; now rewrite W].
          rewrite truthy_px. apply lookup_insert_eq.
        - rewrite W. now destruct (sizedWidth numToString (layout node)). }
      revert Hh. generalize (applyHorizontalConstraint (horizontal c) css). intros css' Hh.
      assert (applyVerticalConstraint (vertical c) css' !! "width" = css' !! "width") as ->
          by (unfold applyVerticalConstraint, setIf; now by_cases).
      rewrite Hh. now destruct (sizedWidth numToString (layout node)).
    + unfold applyConstraints.
      assert (applyHorizontalConstraint (horizontal c) css !! "height" = css !! "height") as Hh
          by (unfold applyHorizontalConstraint, setIf; now by_cases).
      revert Hh. generalize (applyHorizontalConstraint (horizontal c) css). intros css' Hh.
      rewrite H in Hh.
      assert (applyVerticalConstraint (vertical c) css' !! "height"
              = match css' !! "height" with
                | Some v =>
                    if String.eqb (vertical c) "TOP_BOTTOM" then None
                    else if String.eqb (vertical c) "SCALE" then Some "100%"
                    else Some v
                | None => None
                end) as Hv.
      { unfold applyVerticalConstraint, setIf.
        destruct (String.eqb_spec (vertical c) "TOP") as [E | _];
          [rewrite E; decide_names; now destruct (css' !! "height") |].
        destruct (String.eqb_spec (vertical c) "BOTTOM") as [E | _];
          [rewrite E; decide_names; skip_key; now destruct (css' !! "height") |].
        destruct (String.eqb_spec (vertical c) "CENTER") as [E | _];
          [rewrite E; decide_names; cbv zeta;
           destruct (truthy_str _); skip_key; now destruct (css' !! "height") |].
        destruct (String.eqb_spec (vertical c) "TOP_BOTTOM") as [E | _];
          [rewrite lookup_delete_eq; now destruct (css' !! "height") |].
        destruct (String.eqb_spec (vertical c) "SCALE") as [E | _].
        - destruct (css' !! "height") as [v |] eqn:Hv; [| cbn [truthy_str]; exact Hv].
          assert (truthy_str (Some v) = true) as ->.
          { destruct (strategy (layout node)); try discriminate;
              unfold sizedHeight in Hh; destruct (l_height (layout node)); try discriminate;
              destruct (gtb _ 0); try discriminate; injection Hh as ->; apply truthy_px. }
          apply lookup_insert_eq.
        - now destruct (css' !! "height"). }
      rewrite Hv, Hh.
      destruct (strategy (layout node)); try reflexivity;
        now destruct (sizedHeight numToString (layout node)).
  - split; [| split; [| exact M]].
    + rewrite W. now destruct (sizedWidth numToString (layout node)).
    + rewrite H. destruct (strategy (layout node)); try reflexivity;
        now destruct (sizedHeight numToString (layout node)).
Qed.

End EngineSizes.

Section EngineConstraints.
Import JS Parser LayoutEngine.
Variable numToString : Q -> string.

Local Ltac skip_key :=
  repeat first [ rewrite lookup_insert_ne by discriminate
               | rewrite lookup_delete_ne by discriminate ].

Local Ltac decide_names :=
  repeat match goal with
         | |- context [String.eqb ?a ?b] =>
             lazymatch a with String _ _ => idtac end;
             let v := eval vm_compute in (String.eqb a b) in
             change (String.eqb a b) with v
         end;
  cbv iota.

Local Ltac name_cases h :=
  repeat match goal with
         | |- context [String.eqb h ?b] => destruct (String.eqb_spec h b)
         end.

Lemma applyHorizontalConstraint_sides (h : string) (css : CSSProperties) :
  let css' := applyHorizontalConstraint h css in
  css' !! "right"
  = (if (String.eqb h "RIGHT" || String.eqb h "LEFT_RIGHT")%bool
     then Some "0" else css !! "right")
  /\ css' !! "bottom" = css !! "bottom"
  /\ css' !! "top" = css !! "top"
  /\ (h = "RIGHT" -> css' !! "left" = None)
  /\ (h = "LEFT_RIGHT" -> css' !! "left" = Some "0")
  /\ (h = "CENTER" ->
      css' !! "left" = Some "50%" /\ css' !! "transform" = Some "translateX(-50%)").
Proof.
  cbv zeta. unfold applyHorizontalConstraint, setIf.
  split; [| split; [| split; [| split; [| split]]]].
  - name_cases h; subst; try discriminate; cbn [orb];
      try destruct (truthy_str _); skip_key; rewrite ?lookup_insert_eq; reflexivity.
  - name_cases h; try destruct (truthy_str _); now skip_key.
  - name_cases h; try destruct (truthy_str _); now skip_key.
  - intros ->. decide_names. apply lookup_delete_eq.
  - intros ->. decide_names. skip_key. apply lookup_insert_eq.
  - intros ->. decide_names. split; skip_key; apply lookup_insert_eq.
Qed.

Lemma applyVerticalConstraint_sides (v : string) (css : CSSProperties) :
  let css' := applyVerticalConstraint v css in
  css' !! "bottom"
  = (if (String.eqb v "BOTTOM" || String.eqb v "TOP_BOTTOM")%bool
     then Some "0" else css !! "bottom")
  /\ css' !! "right" = css !! "right"
  /\ css' !! "left" = css !! "left"
  /\ (v = "BOTTOM" -> css' !! "top" = None)
  /\ (v = "TOP_BOTTOM" -> css' !! "top" = Some "0")
  /\ (v = "CENTER" ->
      css' !! "top" = Some "50%"
      /\ forall t, css !! "transform" = Some t -> t <> "" ->
                   css' !! "transform" = Some (t +:+ " translateY(-50%)")).
Proof.
  cbv zeta. unfold applyVerticalConstraint, setIf.
  split; [| split; [| split; [| split; [| split]]]].
  - name_cases v; subst; try discriminate; cbn [orb]; cbv zeta;
      try destruct (truthy_str _); skip_key; rewrite ?lookup_insert_eq; reflexivity.
  - name_cases v; cbv zeta; try destruct (truthy_str _); now skip_key.
  - name_cases v; cbv zeta; try destruct (truthy_str _); now skip_key.
  - intros ->. decide_names. apply lookup_delete_eq.
  - intros ->. decide_names. skip_key. apply lookup_insert_eq.
  - intros ->. decide_names. cbv zeta. split.
    + destruct (truthy_str _); skip_key; apply lookup_insert_eq.
    + intros t Ht Hne. skip_key. rewrite Ht. cbn [default].
      destruct t as [| a t]; [congruence |]. cbn [truthy_str]. apply lookup_insert_eq.
Qed.

(** The constraints have the last word on the offsets.  [right] is written,
    as [0], for the horizontal constraints RIGHT and LEFT_RIGHT only, and
    [bottom] for the vertical constraints BOTTOM and TOP_BOTTOM only.  RIGHT
    leaves no [left] and BOTTOM no [top]; LEFT_RIGHT ends with [left] at [0]
    and TOP_BOTTOM with [top] at [0].  A node centred both ways ends at
    [left] and [top] of [50%] with the two translations in one
    [transform]. *)
Theorem generateLayoutCSS_constraints (node : NodeData) (parentNode : option NodeData) :
  let css := generateLayoutCSS numToString node parentNode in
  let l := layout node in
  let side (on : Constraints -> string) (a b : string) :=
    match l_constraints l with
    | Some c => if (String.eqb (on c) a || String.eqb (on c) b)%bool
                then Some "0" else None
    | None => None
    end in
  css !! "right" = side horizontal "RIGHT" "LEFT_RIGHT"
  /\ css !! "bottom" = side vertical "BOTTOM" "TOP_BOTTOM"
  /\ forall c, l_constraints l = Some c ->
       (horizontal c = "RIGHT" -> css !! "left" = None)
       /\ (horizontal c = "LEFT_RIGHT" -> css !! "left" = Some "0")
       /\ (vertical c = "BOTTOM" -> css !! "top" = None)
       /\ (vertical c = "TOP_BOTTOM" -> css !! "top" = Some "0")
       /\ (horizontal c = "CENTER" -> vertical c = "CENTER" ->
           css !! "left" = Some "50%" /\ css !! "top" = Some "50%"
           /\ css !! "transform" = Some "translateX(-50%) translateY(-50%)").
Proof.
  cbv zeta. unfold generateLayoutCSS.
  destruct (sizes_before_constraints numToString node parentNode) as (_ & _ & _ & R & B).
  cbv zeta in R, B.
  set (css := applyHeight _ _ _) in *.
  destruct (l_constraints (layout node)) as [c |]; [| split; [exact R | split; [exact B | discriminate]]].
  unfold applyConstraints.
  destruct (applyHorizontalConstraint_sides (horizontal c) css)
    as (H1 & H2 & H3 & H4 & H5 & H6).
  cbv zeta in *. rewrite R in H1. rewrite B in H2.
  set (css1 := applyHorizontalConstraint (horizontal c) css) in *.
  destruct (applyVerticalConstraint_sides (vertical c) css1)
    as (V1 & V2 & V3 & V4 & V5 & V6).
  cbv zeta in *. rewrite H2 in V1.
  split; [now rewrite V2 |]. split; [exact V1 |].
  intros c' [= <-].
  split; [intros E; rewrite V3; now apply H4 |].
  split; [intros E; rewrite V3; now apply H5 |].
  split; [exact V4 |]. split; [exact V5 |].
  intros Eh Ev. destruct (H6 Eh) as [L T]. destruct (V6 Ev) as [Tp Tr].
  split; [now rewrite V3 |]. split; [exact Tp |].
  apply (Tr _ T). discriminate.
Qed.

End EngineConstraints.

(** ** Regrouping loses no node, decorative nodes apart *)

Section RegroupConserves.
Import JS Parser.

Lemma plain_container_wider (child cand : NodeData) :
  isDecorative child = false -> 0 <= width (bounds child) ->
  isVisuallyContained child cand = true ->
  hasBackground cand = true /\ width (bounds child) < width (bounds cand).
Proof.
  intros Hd Hw. unfold isVisuallyContained. rewrite Hd. cbn [andb].
  rewrite !andb_true_iff. intros [[_ Hbg] Hsm].
  unfold isSmaller in Hsm. apply andb_true_iff in Hsm as [Hsw _].
  apply ltb_lt in Hsw. split; [exact Hbg | lra].
Qed.

(** Among nodes that are not decorative the container is a wider node with a
    background, and so no two of them contain each other. *)
Theorem isVisuallyContained_plain (child cand : NodeData) :
  isDecorative child = false -> 0 <= width (bounds child) ->
  isVisuallyContained child cand = true ->
  hasBackground cand = true
  /\ width (bounds child) < width (bounds cand)
  /\ (isDecorative cand = false -> isVisuallyContained cand child = false).
Proof.
  intros Hd Hw H. destruct (plain_container_wider child cand Hd Hw H) as [Hbg Hlt].
  split; [exact Hbg |]. split; [exact Hlt |].
  intros Hdc. unfold isVisuallyContained. rewrite Hdc. cbn [andb].
  assert (isSmaller (bounds cand) (bounds child) = false) as ->.
  { unfold isSmaller. apply andb_false_iff. left. apply ltb_ge. lra. }
  apply andb_false_r.
Qed.

Lemma contained_wider (s : Store) (k q : handle) :
  plain s k -> contained s k q = true -> widthAt s k < widthAt s q.
Proof.
  intros Hp. unfold contained, widthAt.
  destruct (s !! k) as [ok |] eqn:Hk; [| discriminate].
  destruct (s !! q) as [oq |]; [| discriminate].
  destruct (Hp ok Hk) as [Hd Hw]. intros H.
  now destruct (plain_container_wider _ _ Hd Hw H) as [_ Hlt].
Qed.

Lemma filter_length_lt {A} (f g : A -> bool) (l : list A) (y : A) :
  (forall x, f x = true -> g x = true) ->
  y ∈ l -> g y = true -> f y = false ->
  (length (List.filter f l) < length (List.filter g l))%nat.
Proof.
  intros Hfg Hy Hgy Hfy.
  assert (forall l', (length (List.filter f l') <= length (List.filter g l'))%nat) as Hle.
  { induction l' as [| a l' IH]; cbn; [lia |].
    destruct (f a) eqn:Ha; [rewrite (Hfg a Ha); cbn; lia |].
    destruct (g a); cbn; lia. }
  induction l as [| a l IH]; [inversion Hy |].
  apply elem_of_cons in Hy as [<- | Hy]; cbn.
  - rewrite Hgy, Hfy. cbn. specialize (Hle l). lia.
  - specialize (IH Hy). destruct (f a) eqn:Ha; [rewrite (Hfg a Ha); cbn; lia |].
    destruct (g a); cbn; lia.
Qed.

Lemma widerThan_lt (s : Store) (siblings : list handle) (k q : handle) :
  q ∈ siblings -> widthAt s k < widthAt s q ->
  (widerThan s siblings q < widerThan s siblings k)%nat.
Proof.
  intros Hq Hlt. unfold widerThan. apply (filter_length_lt _ _ _ q).
  - intros c Hc. apply ltb_lt in Hc. apply ltb_lt. lra.
  - exact Hq.
  - now apply ltb_lt.
  - apply ltb_ge. lra.
Qed.

Lemma below_trans (s : Store) (a b c : handle) :
  below s a b -> below s b c -> below s a c.
Proof.
  induction 1 as [p k Hk | p k d Hk _ IH]; intros Hbc.
  - now apply below_step with (c := k).
  - apply below_step with (c := k); [exact Hk | now apply IH].
Qed.

Lemma reachable_child (s : Store) (h p k : handle) :
  reachable s h p -> k ∈ childrenAt s p -> reachable s h k.
Proof.
  intros [-> | Hb] Hk; right.
  - now apply below_child.
  - apply (below_trans s h p k Hb). now apply below_child.
Qed.

(** After the regrouping, the children of a reachable node are reachable:
    a child that a sibling contains hangs from its first container, and
    that is a wider sibling. *)
Lemma siblings_reachable (s s' : Store) (t : HTree) (p : handle) :
  described s s' t -> tree_at s t -> NoDup (handles t) ->
  p ∈ handles t -> reachable s' (rootOf t) p ->
  (forall k, k ∈ childrenAt s p -> plain s k) ->
  forall k, k ∈ childrenAt s p -> reachable s' (rootOf t) k.
Proof.
  intros [Hroot Hkids] Ht Hnd Hp Hrp Hplain.
  assert (forall k, k ∈ uncontained s (childrenAt s p) -> k ∈ childrenAt s' p) as Hkept.
  { intros k Hk. destruct (node_has_parent s t Ht p Hp) as [-> | (p' & Hp' & Hpp')].
    - now rewrite Hroot.
    - rewrite (Hkids p' p Hp' Hpp'). apply elem_of_app. now left. }
  assert (forall n k, (widerThan s (childrenAt s p) k <= n)%nat ->
                      k ∈ childrenAt s p -> reachable s' (rootOf t) k) as Hall.
  { induction n as [| n IH]; intros k Hn Hk.
    - destruct (firstContainer s (childrenAt s p) k) as [q |] eqn:Hfc.
      + exfalso. pose proof Hfc as Hf. apply find_some in Hf as [Hq Hc].
        apply andb_true_iff in Hc as [_ Hc]. apply list_elem_of_In in Hq.
        pose proof (widerThan_lt s _ k q Hq (contained_wider s k q (Hplain k Hk) Hc)). lia.
      + apply (reachable_child s' _ p k Hrp). apply Hkept.
        unfold uncontained. apply list_elem_of_In, filter_In.
        split; [now apply list_elem_of_In | now apply bool_decide_eq_true_2].
    - destruct (firstContainer s (childrenAt s p) k) as [q |] eqn:Hfc.
      + pose proof Hfc as Hf. apply find_some in Hf as [Hq Hc].
        apply andb_true_iff in Hc as [_ Hc]. apply list_elem_of_In in Hq.
        pose proof (widerThan_lt s _ k q Hq (contained_wider s k q (Hplain k Hk) Hc)).
        apply (reachable_child s' _ q k); [apply IH; [lia | exact Hq] |].
        rewrite (Hkids p q Hp Hq). apply elem_of_app. right.
        unfold movedInto. apply list_elem_of_In, filter_In.
        split; [now apply list_elem_of_In | now apply bool_decide_eq_true_2].
      + apply (reachable_child s' _ p k Hrp). apply Hkept.
        unfold uncontained. apply list_elem_of_In, filter_In.
        split; [now apply list_elem_of_In | now apply bool_decide_eq_true_2]. }
  intros k Hk. now apply (Hall (widerThan s (childrenAt s p) k)).
Qed.

Lemma described_reachable (s s' : Store) (t : HTree) :
  described s s' t -> tree_at s t -> NoDup (handles t) ->
  (forall k, k ∈ handles t -> plain s k) ->
  forall k, k ∈ handles t -> reachable s' (rootOf t) k.
Proof.
  intros Hd Ht Hnd Hplain.
  assert (forall t0, tree_at s t0 -> (forall k, k ∈ handles t0 -> k ∈ handles t) ->
                     reachable s' (rootOf t) (rootOf t0) ->
                     forall k, k ∈ handles t0 -> reachable s' (rootOf t) k) as Hsub.
  { induction t0 as [p d cs IH] using HTree_nested_ind.
    intros Ht0 Hin Hrp k Hk. pose proof (childrenAt_tree s _ Ht0) as Hch.
    cbn [rootOf kidsOf] in *. apply tree_at_node in Ht0 as [_ Hall].
    rewrite handles_node in Hk, Hin.
    apply elem_of_cons in Hk as [-> | Hk]; [exact Hrp |].
    apply elem_of_flat_map in Hk as (c & Hc & Hk).
    rewrite List.Forall_forall in IH, Hall.
    pose proof Hc as Hc'. apply list_elem_of_In in Hc'.
    assert (forall x, x ∈ handles c -> x ∈ handles t) as Hinc.
    { intros x Hx. apply Hin, list_elem_of_further, elem_of_flat_map. now exists c. }
    apply (IH c Hc' (Hall c Hc') Hinc); [| exact Hk].
    assert (p ∈ handles t) as Hp by apply Hin, list_elem_of_here.
    apply (siblings_reachable s s' t p Hd Ht Hnd Hp Hrp).
    - intros x Hx. apply Hplain. rewrite Hch in Hx.
      apply elem_of_map in Hx as (c0 & -> & Hc0).
      apply Hin, list_elem_of_further, elem_of_flat_map.
      exists c0. split; [exact Hc0 | apply rootOf_in_handles].
    - rewrite Hch. apply elem_of_map. now exists c. }
  apply (Hsub t Ht); [auto | now left].
Qed.

(** Regrouping loses no node of a tree none of whose nodes is decorative or
    of negative width: every node of the tree is still reached from the root
    after the run. *)
Theorem regroup_conserves (fuel : nat) (t : HTree) (s : Store) :
  (depth t <= fuel)%nat -> tree_at s t -> NoDup (handles t) ->
  (forall k, k ∈ handles t -> plain s k) ->
  exists s',
    regroupByVisualContainment fuel (rootOf t) s = Some s'
    /\ forall k, k ∈ handles t -> reachable s' (rootOf t) k.
Proof.
  intros Hdep Ht Hnd Hplain.
  destruct (regroup_described_tree fuel t s Hdep Ht Hnd) as (s' & t' & Hrun & _ & Hd).
  exists s'. split; [exact Hrun |]. now apply (described_reachable s s' t).
Qed.

End RegroupConserves.

(** ** The parser as a whole *)

Section ParseWhole.
Import JS Parser.


End ParseWhole.

(** ** From the component to the tag *)

Section ComponentTags.
Import JS Parser Transformer.

Lemma detectComponentType_recognised (name : option string) (t : string)
  (ws ws' : list string) :
  detectComponentType name ws = (inr (Some t), ws') ->
  In t ["button"; "input"; "card"; "modal"; "nav"].
Proof.
  unfold detectComponentType. destruct name as [nm |]; [| discriminate].
  unfold ret.
  repeat match goal with |- context [if ?c then _ else _] => destruct c end;
    intros [= <- _] || discriminate; cbn; tauto.
Qed.

Lemma parsed_componentType (components : gmap string Component) (node : FigmaNode)
  (ws ws' : list string) (p : ParsedNode) (t : string) :
  parseNode components node ws = (inr p, ws') ->
  componentType (data_of p) = Some t ->
  In t ["button"; "input"; "card"; "modal"; "nav"]
  /\ p_type (data_of p) = INSTANCE
  /\ exists c, components !! default "" (componentId (fields_of node)) = Some c
               /\ componentName (data_of p) = c_name c.
Proof.
  intros Hp Ht.
  destruct (parseNode_cases components node)
    as [(info & kids & W & Hi & _ & H) | (e & _ & H)];
    rewrite H in Hp; injection Hp as <- _; cbn in Ht |- *; [| discriminate].
  specialize (Hi []). unfold componentInfo in Hi.
  destruct (isInstance (type (fields_of node))) eqn:Hinst; cbn [andb] in Hi.
  - destruct (truthy_str (componentId (fields_of node)));
      [| injection Hi as <-; cbn in Ht; discriminate].
    destruct (components !! default "" (componentId (fields_of node))) as [c |];
      [| injection Hi as <-; cbn in Ht; discriminate].
    unfold bind in Hi.
    destruct (detectComponentType (c_name c) []) as [[e | ot] ws1] eqn:Hd; [discriminate |].
    cbn in Hi. injection Hi as <- _. cbn in Ht |- *. subst ot.
    split; [exact (detectComponentType_recognised _ _ _ _ Hd) |].
    split; [now destruct (type (fields_of node)) | eauto].
  - injection Hi as <-. cbn in Ht. discriminate.
Qed.

(** The tag of an instance of a recognised component is that of the
    component: whatever the name of the instance, a parsed node that has a
    component type is an instance, of one of five component types, and its
    tag is the tag of that type. *)
Theorem determineHTMLTag_component (components : gmap string Component)
  (node : FigmaNode) (ws ws' : list string) (p : ParsedNode) (t : string) :
  parseNode components node ws = (inr p, ws') ->
  componentType (data_of p) = Some t ->
  p_type (data_of p) = INSTANCE
  /\ In (t, determineHTMLTag (data_of p))
        [("button", "button"); ("input", "input-text"); ("card", "article");
         ("modal", "dialog"); ("nav", "nav")].
Proof.
  intros Hp Ht. destruct (parsed_componentType _ _ _ _ _ _ Hp Ht) as (Hin & Hty & _).
  split; [exact Hty |]. unfold determineHTMLTag. rewrite Ht. cbn [default].
  cbn in Hin. destruct Hin as [<- | [<- | [<- | [<- | [<- | []]]]]]; cbn; tauto.
Qed.

End ComponentTags.

Section TagRange.
Import JS Parser Transformer.

Lemma determineTextTag_range (node : NodeData) :
  In (determineTextTag node)
     ["input-email"; "input-password"; "input-text";
      "h1"; "h2"; "h3"; "h4"; "h5"; "h6"; "p"; "label"; "span"].
Proof.
  unfold determineTextTag. cbv zeta.
  repeat match goal with |- context [if ?c then _ else _] => destruct c end;
    cbn; tauto.
Qed.

Lemma determineFrameTag_range (node : NodeData) :
  In (determineFrameTag node)
     ["input-email"; "input-password"; "input-text";
      "button"; "header"; "footer"; "nav"; "article"; "aside"; "div"].
Proof.
  unfold determineFrameTag. cbv zeta.
  repeat match goal with |- context [if ?c then _ else _] => destruct c end;
    cbn; tauto.
Qed.

(** Whatever the node, its tag is one of three forms of input, which the
    HTML generator writes as an [input] element, or one of twenty names
    of HTML elements; a text is given a tag for text or an input, and never
    a container. *)
Theorem determineHTMLTag_range (node : NodeData) :
  In (determineHTMLTag node)
     ["input-email"; "input-password"; "input-text";
      "button"; "article"; "dialog"; "nav"; "header"; "footer"; "aside";
      "div"; "svg"; "section"; "main";
      "h1"; "h2"; "h3"; "h4"; "h5"; "h6"; "p"; "label"; "span"]
  /\ (p_type node = TEXT -> componentType node = None ->
      In (determineHTMLTag node)
         ["input-email"; "input-password"; "input-text";
          "h1"; "h2"; "h3"; "h4"; "h5"; "h6"; "p"; "label"; "span"]).
Proof.
  assert (In (typeTag node)
            ["input-email"; "input-password"; "input-text";
             "button"; "article"; "dialog"; "nav"; "header"; "footer"; "aside";
             "div"; "svg"; "section"; "main";
             "h1"; "h2"; "h3"; "h4"; "h5"; "h6"; "p"; "label"; "span"]) as Htype.
  { unfold typeTag. pose proof (determineTextTag_range node) as Ht.
    pose proof (determineFrameTag_range node) as Hf.
    destruct (p_type node); cbn in Ht, Hf |- *; tauto. }
  split.
  - unfold determineHTMLTag. destruct (truthy_str (componentType node)); [| exact Htype].
    unfold componentTag.
    repeat match goal with |- context [if ?c then _ else _] => destruct c end;
      try exact Htype; cbn; tauto.
  - intros Hty Hc. unfold determineHTMLTag, typeTag. rewrite Hc, Hty. cbn [truthy_str].
    apply determineTextTag_range.
Qed.

End TagRange.

(** ** Retrying a request *)

Section RetryFacts.
Import JS FigmaAPIClient.
Context {T : Type}.
Variable requestFn : nat -> Outcome T.
Variable random : nat -> Q.

Lemma retryLoop_spec (maxRetries : nat) :
  forall remaining attempt lastError slept,
    (remaining + attempt = S maxRetries)%nat -> (1 <= remaining)%nat ->
    let r := retryLoop requestFn random maxRetries remaining attempt lastError slept in
    (attempt <= calls r <= maxRetries)%nat
    /\ (forall j, (attempt <= j < calls r)%nat -> retryable (requestFn j) = true)
    /\ ((calls r < maxRetries)%nat -> retryable (requestFn (calls r)) = false)
    /\ result r = settle (requestFn (calls r))
    /\ sleeps r
       = (slept ++ map (fun j => getRetryDelay j (random j))
                       (seq attempt (calls r - attempt)))%list.
Proof.
  induction remaining as [| remaining IH]; intros attempt lastError slept Hsum Hpos;
    [lia |].
  cbn [retryLoop]. cbv zeta.
  assert (forall res, let r := mkRun res attempt slept in
                      res = settle (requestFn attempt) ->
                      retryable (requestFn attempt) = false
                      \/ (attempt = maxRetries) ->
                      (attempt <= calls r <= maxRetries)%nat
                      /\ (forall j, (attempt <= j < calls r)%nat ->
                                    retryable (requestFn j) = true)
                      /\ ((calls r < maxRetries)%nat ->
                          retryable (requestFn (calls r)) = false)
                      /\ result r = settle (requestFn (calls r))
                      /\ sleeps r
                         = (slept ++ map (fun j => getRetryDelay j (random j))
                                         (seq attempt (calls r - attempt)))%list)
    as Hstop.
  { intros res r Hres Hwhy. cbn [calls result sleeps r].
    split; [lia |]. split; [intros j Hj; lia |].
    split; [intros Hlt; destruct Hwhy as [H | H]; [exact H | lia] |].
    split; [exact Hres |]. rewrite Nat.sub_diag. cbn. now rewrite app_nil_r. }
  destruct (requestFn attempt) as [value | [statusCode |]] eqn:Hreq.
  - apply Hstop; [reflexivity | now left].
  - destruct (isClientError statusCode) eqn:Hc.
    + apply Hstop; [reflexivity | left; cbn; now rewrite Hc].
    + destruct (Nat.ltb_spec attempt maxRetries) as [Hlt | Hge].
      * destruct (IH (S attempt) (Some (AxiosError statusCode))
                    (slept ++ [getRetryDelay attempt (random attempt)])%list)
          as (H1 & H2 & H3 & H4 & H5); [lia | lia |].
        cbv zeta in *.
        set (r := retryLoop _ _ _ _ _ _ _) in *.
        split; [lia |].
        split.
        { intros j Hj. destruct (decide (j = attempt)) as [-> | Hne].
          - rewrite Hreq. cbn. now rewrite Hc.
          - apply H2. lia. }
        split; [exact H3 |]. split; [exact H4 |].
        rewrite H5, <- app_assoc. f_equal.
        replace (calls r - attempt)%nat with (S (calls r - S attempt)) by lia.
        reflexivity.
      * apply Hstop; [reflexivity | right; lia].
  - apply Hstop; [reflexivity | now left].
Qed.

(** [retryRequest] calls [requestFn] until a call resolves or is rejected
    with something other than a retryable error, and [maxRetries] times at
    most: the outcome of its last call is what it returns or throws, every
    call before it was rejected with a retryable error, and before each call
    but the first it slept the delay of the attempt before.  With no attempt
    allowed it calls nothing and throws [undefined]. *)
Theorem retryRequest_spec (maxRetries : nat) :
  let r := retryRequest requestFn random maxRetries in
  (maxRetries = 0%nat -> r = mkRun (inl None) 0 [])
  /\ ((1 <= maxRetries)%nat ->
      (1 <= calls r <= maxRetries)%nat
      /\ (forall j, (1 <= j < calls r)%nat -> retryable (requestFn j) = true)
      /\ ((calls r < maxRetries)%nat -> retryable (requestFn (calls r)) = false)
      /\ result r = settle (requestFn (calls r))
      /\ sleeps r
         = map (fun j => getRetryDelay j (random j)) (seq 1 (calls r - 1))).
Proof.
  cbv zeta. split; [now intros -> |]. intros Hpos. unfold retryRequest.
  destruct (retryLoop_spec maxRetries maxRetries 1 None []) as (H1 & H2 & H3 & H4 & H5);
    [lia | lia |].
  cbv zeta in *.
  split; [exact H1 |]. split; [exact H2 |]. split; [exact H3 |].
  split; [exact H4 | exact H5].
Qed.

Lemma Qpower_2_succ (n : nat) : 2 ^ Z.of_nat (S n) == 2 * 2 ^ Z.of_nat n.
Proof.
  rewrite Nat2Z.inj_succ. unfold Z.succ. rewrite Qpower_plus by discriminate.
  cbn. ring.
Qed.

Lemma Qpower_2_ge_1 (n : nat) : 1 <= 2 ^ Z.of_nat n.
Proof.
  induction n as [| n IH]; [change (1 <= 1); apply Qle_refl |].
  rewrite Qpower_2_succ. revert IH. generalize (2 ^ Z.of_nat n). intros p IH. lra.
Qed.

Lemma getRetryDelay_bounds (i : nat) (rnd : Q) :
  0 <= rnd < 1 ->
  2 ^ Z.of_nat i * 1000 <= getRetryDelay (S i) rnd < 2 ^ Z.of_nat i * 1000 + 1000.
Proof.
  intros [H0 H1]. unfold getRetryDelay. cbv zeta.
  replace (Z.of_nat (S i) - 1)%Z with (Z.of_nat i) by lia.
  generalize (2 ^ Z.of_nat i). intros p. lra.
Qed.

(** The delays back off: whatever the jitter, the delay slept after the
    attempt [i + 1] is at least 1000 times the [i]-th power of 2 and less
    than that and 1000, and so each delay is longer than the one before
    it. *)
Theorem retryRequest_backoff (maxRetries : nat) :
  (forall j, 0 <= random j < 1) ->
  let r := retryRequest requestFn random maxRetries in
  (length (sleeps r) = calls r - 1)%nat
  /\ (forall i d, sleeps r !! i = Some d ->
                  2 ^ Z.of_nat i * 1000 <= d < 2 ^ Z.of_nat i * 1000 + 1000)
  /\ (forall i d d', sleeps r !! i = Some d -> sleeps r !! S i = Some d' -> d < d').
Proof.
  intros Hrnd. cbv zeta.
  assert (sleeps (retryRequest requestFn random maxRetries)
          = map (fun j => getRetryDelay j (random j))
                (seq 1 (calls (retryRequest requestFn random maxRetries) - 1))) as Hs.
  { destruct maxRetries as [| m]; [reflexivity |]. unfold retryRequest.
    destruct (retryLoop_spec (S m) (S m) 1 None []) as (_ & _ & _ & _ & H5);
      [lia | lia |].
    exact H5. }
  assert (forall i d, sleeps (retryRequest requestFn random maxRetries) !! i = Some d ->
                      2 ^ Z.of_nat i * 1000 <= d < 2 ^ Z.of_nat i * 1000 + 1000) as Hb.
  { intros i d Hd. rewrite Hs in Hd.
    change (map ?f ?l) with (f <$> l) in Hd.
    rewrite list_lookup_fmap in Hd.
    destruct (seq 1 _ !! i) as [j |] eqn:Hj; [| discriminate].
    apply lookup_seq in Hj as [-> _]. cbn in Hd. injection Hd as <-.
    apply getRetryDelay_bounds, Hrnd. }
  split; [rewrite Hs; now rewrite length_map, length_seq |].
  split; [exact Hb |].
  intros i d d' Hd Hd'. apply Hb in Hd, Hd'.
  rewrite Qpower_2_succ in Hd'. pose proof (Qpower_2_ge_1 i) as Hp.
  revert Hd Hd' Hp. generalize (2 ^ Z.of_nat i). intros p Hd Hd' Hp. lra.
Qed.

End RetryFacts.

(** ** Class names *)

Section ClassNameFacts.
Import JS Helpers.

Lemma dash_not_alnum : isLowerAlnum "-" = false.
Proof. reflexivity. Qed.

Lemma tidy_weaken (s : string) : tidy true s = true -> tidy false s = true.
Proof.
  destruct s as [| c s]; cbn; [reflexivity |].
  destruct (isLowerAlnum c); [auto |]. rewrite !andb_true_iff. intros [[_ H] _]. discriminate.
Qed.

Lemma tidy_dashRuns (s : string) : forall p, tidy p (dashRuns p s) = true.
Proof.
  induction s as [| c s IH]; intros p; cbn; [reflexivity |].
  destruct (isLowerAlnum c) eqn:Hc; cbn.
  - rewrite Hc. apply IH.
  - destruct p; [apply IH |]. cbn. rewrite dash_not_alnum. cbn. apply IH.
Qed.

Lemma tidy_after_dash (s : string) : tidy true s = true -> startsWithDash s = false.
Proof.
  destruct s as [| c s]; cbn; [reflexivity |].
  destruct (isLowerAlnum c) eqn:Hc.
  - intros _. apply Ascii.eqb_neq. intros ->. discriminate.
  - rewrite !andb_true_iff. intros [[_ H] _]. discriminate.
Qed.

Lemma dropLeading_fixed (s : string) :
  startsWithDash s = false -> dropLeadingDashes s = s.
Proof. destruct s as [| c s]; cbn; [reflexivity |]. now intros ->. Qed.

Lemma tidy_dropLeading (s : string) :
  tidy false s = true ->
  tidy false (dropLeadingDashes s) = true
  /\ startsWithDash (dropLeadingDashes s) = false.
Proof.
  destruct s as [| c s]; [cbn; auto |].
  destruct (Ascii.eqb c "-") eqn:Hc.
  - apply Ascii.eqb_eq in Hc. subst c.
    cbn [tidy dropLeadingDashes]. rewrite dash_not_alnum, Ascii.eqb_refl. cbn [andb negb].
    intros H. pose proof (tidy_after_dash s H) as Hs.
    rewrite (dropLeading_fixed s Hs). split; [now apply tidy_weaken | exact Hs].
  - intros H. cbn [dropLeadingDashes]. rewrite Hc. split; [exact H | exact Hc].
Qed.

Lemma tidy_dropTrailing (s : string) :
  forall p, tidy p s = true ->
            tidy p (dropTrailingDashes s) = true
            /\ endsWithDash (dropTrailingDashes s) = false
            /\ (startsWithDash s = false -> startsWithDash (dropTrailingDashes s) = false).
Proof.
  induction s as [| c s IH]; intros p; cbn; [auto |].
  destruct (isLowerAlnum c) eqn:Hc.
  - intros Ht. destruct (IH false Ht) as (H1 & H2 & _).
    assert (Ascii.eqb c "-" = false) as Hd.
    { apply Ascii.eqb_neq. intros ->. discriminate. }
    destruct (dropTrailingDashes s) as [| d r] eqn:Hs.
    + rewrite Hd. cbn. rewrite Hc, Hd. auto.
    + cbn [tidy endsWithDash startsWithDash]. rewrite Hc. auto.
  - rewrite !andb_true_iff. intros [[Hd Hp] Ht].
    destruct (IH true Ht) as (H1 & H2 & _).
    destruct (dropTrailingDashes s) as [| d r] eqn:Hs.
    + rewrite Hd. cbn. split; [reflexivity |]. split; [reflexivity |]. congruence.
    + cbn [tidy endsWithDash startsWithDash]. rewrite Hc, Hd, Hp. cbn. auto.
Qed.

Lemma lower_ascii_fixed (c : ascii) :
  (isLowerAlnum c || Ascii.eqb c "-")%bool = true -> lower_ascii c = c.
Proof.
  unfold isLowerAlnum, lower_ascii. cbv zeta. intros H.
  destruct (Nat.leb 65 (nat_of_ascii c) && Nat.leb (nat_of_ascii c) 90)%bool eqn:Hu;
    [| reflexivity].
  exfalso. apply andb_true_iff in Hu as [H1 H2].
  apply Nat.leb_le in H1, H2.
  apply orb_true_iff in H as [H | H].
  - apply orb_true_iff in H as [H | H]; apply andb_true_iff in H as [H3 H4];
      apply Nat.leb_le in H3, H4; lia.
  - apply Ascii.eqb_eq in H. subst c.
    change (nat_of_ascii "-") with 45%nat in H1. lia.
Qed.

Lemma tidy_fixed (s : string) :
  forall p, tidy p s = true -> toLowerCase s = s /\ dashRuns p s = s.
Proof.
  induction s as [| c s IH]; intros p; cbn; [auto |].
  destruct (isLowerAlnum c) eqn:Hc.
  - intros Ht. destruct (IH false Ht) as [-> ->].
    now rewrite lower_ascii_fixed by now rewrite Hc.
  - rewrite !andb_true_iff. intros [[Hd Hp] Ht]. destruct (IH true Ht) as [-> ->].
    rewrite lower_ascii_fixed by (rewrite Hd; apply orb_true_r).
    apply negb_true_iff in Hp. rewrite Hp. apply Ascii.eqb_eq in Hd. now subst c.
Qed.

Lemma dropTrailing_fixed (s : string) :
  endsWithDash s = false -> dropTrailingDashes s = s.
Proof.
  induction s as [| c s IH]; [reflexivity |].
  cbn [endsWithDash dropTrailingDashes]. destruct s as [| d s].
  - cbn. now intros ->.
  - intros H. rewrite (IH H). reflexivity.
Qed.

(** The class name made of a name is dashed: characters of [[a-z0-9]] and
    single dashes between them, none at the start or the end.  A dashed
    name is kept as it is, and so sanitising twice is sanitising once. *)
Theorem sanitizeClassName_dashed (name : string) :
  dashed (sanitizeClassName name) = true
  /\ (dashed name = true -> sanitizeClassName name = name)
  /\ sanitizeClassName (sanitizeClassName name) = sanitizeClassName name.
Proof.
  assert (forall s, dashed (sanitizeClassName s) = true) as Hd.
  { intros s. unfold sanitizeClassName, dashed.
    pose proof (tidy_dashRuns (toLowerCase s) false) as H0.
    destruct (tidy_dropLeading _ H0) as [H1 H2].
    destruct (tidy_dropTrailing _ false H1) as (H3 & H4 & H5).
    now rewrite H3, H4, (H5 H2). }
  assert (forall s, dashed s = true -> sanitizeClassName s = s) as Hfix.
  { intros s. unfold dashed. rewrite !andb_true_iff, !negb_true_iff.
    intros [[Ht Hs] He]. unfold sanitizeClassName.
    destruct (tidy_fixed s false Ht) as [-> ->].
    now rewrite (dropLeading_fixed s Hs), (dropTrailing_fixed s He). }
  split; [apply Hd |]. split; [apply Hfix |]. apply Hfix, Hd.
Qed.

End ClassNameFacts.

(** ** Escaping *)

Section EscapeFacts.
Import JS Helpers.

Lemma occurs_append (c : ascii) (a b : string) :
  occurs c (a +:+ b) = (occurs c a || occurs c b)%bool.
Proof.
  induction a as [| d a IH]; [reflexivity |].
  rewrite append_cons. cbn [occurs]. now rewrite IH, orb_assoc.
Qed.

Local Ltac char_cases c :=
  unfold escapeChar;
  destruct (Ascii.eqb_spec c "&") as [-> | ?];
  [| destruct (Ascii.eqb_spec c "<") as [-> | ?];
     [| destruct (Ascii.eqb_spec c ">") as [-> | ?];
        [| destruct (Ascii.eqb_spec c "034") as [-> | ?];
           [| destruct (Ascii.eqb_spec c "'") as [-> | ?]]]]].

Lemma escapeChar_safe (c d : ascii) :
  In d ["<"; ">"; "034"; "'"]%char -> occurs d (escapeChar c) = false.
Proof.
  intros Hd. char_cases c;
    try (cbn in Hd; destruct Hd as [<- | [<- | [<- | [<- | []]]]]; reflexivity).
  cbn. rewrite orb_false_r. apply Ascii.eqb_neq.
  cbn in Hd. destruct Hd as [<- | [<- | [<- | [<- | []]]]]; congruence.
Qed.

Lemma escapeChar_cancel (c d : ascii) (r r' : string) :
  escapeChar c +:+ r = escapeChar d +:+ r' -> c = d /\ r = r'.
Proof.
  char_cases c; char_cases d; intros H;
    repeat rewrite append_cons in H;
    change (EmptyString +:+ r) with r in H;
    change (EmptyString +:+ r') with r' in H;
    try discriminate;
    try (injection H as H; split; [reflexivity | exact H]);
    try (injection H as H1 H2; split; congruence).
Qed.

Lemma escapeChar_nonempty (c : ascii) (r : string) : escapeChar c +:+ r <> EmptyString.
Proof. char_cases c; rewrite append_cons; discriminate. Qed.

(** The text that [escapeHTML] gives holds no angle bracket and no quote,
    and it stands for one text only: two texts escaped to the same are the
    same. *)
Theorem escapeHTML_safe (text : string) :
  (forall d, In d ["<"; ">"; "034"; "'"]%char -> occurs d (escapeHTML text) = false)
  /\ (forall other, escapeHTML text = escapeHTML other -> text = other).
Proof.
  split.
  - intros d Hd. induction text as [| c text IH]; [reflexivity |].
    cbn [escapeHTML]. now rewrite occurs_append, IH, (escapeChar_safe c d Hd).
  - induction text as [| c text IH]; intros [| d other]; cbn [escapeHTML]; intros H.
    + reflexivity.
    + symmetry in H. now apply escapeChar_nonempty in H.
    + now apply escapeChar_nonempty in H.
    + apply escapeChar_cancel in H as [-> H]. f_equal. now apply IH.
Qed.

End EscapeFacts.

(** ** The properties of the engine, the transformer and the helpers on examples *)

Section LaterExampleRuns.
Import JS Parser LayoutEngine Transformer FigmaAPIClient Helpers.

Lemma generateLayoutCSS_constraints_witness :
  generateLayoutCSS showInteger centredBadge (Some flexColumn) !! "transform"
  = Some "translateX(-50%) translateY(-50%)".
Proof.
  apply (proj2 (proj2 (generateLayoutCSS_constraints showInteger centredBadge
                         (Some flexColumn)))
           (mkConstraints "CENTER" "CENTER") eq_refl); reflexivity.
Defined.

Lemma isVisuallyContained_plain_witness :
  width (bounds textLabel) < width (bounds filledCard)
  /\ isVisuallyContained filledCard textLabel = false.
Proof.
  assert (isDecorative textLabel = false) as Hd by (vm_compute; reflexivity).
  assert (0 <= width (bounds textLabel)) as Hw by (vm_compute; discriminate).
  assert (isVisuallyContained textLabel filledCard = true) as Hc
      by (vm_compute; reflexivity).
  destruct (isVisuallyContained_plain textLabel filledCard Hd Hw Hc) as (_ & Hlt & Hno).
  split; [exact Hlt | apply Hno; vm_compute; reflexivity].
Defined.

Lemma regroup_conserves_witness :
  exists s',
    regroupByVisualContainment 3 0%nat (alloc cardAndText) = Some s'
    /\ reachable s' 0%nat 3%nat.
Proof.
  destruct (alloc_tree cardAndText) as (Ht & Hnd & Hroot).
  assert (handles (fst (label cardAndText 0%nat)) = [0; 1; 2; 3]%nat) as E
      by (vm_compute; reflexivity).
  destruct (regroup_conserves 3 (fst (label cardAndText 0%nat)) (alloc cardAndText))
    as (s' & Hrun & Hall); [vm_compute; lia | exact Ht | exact Hnd | |].
  - intros k Hk o Ho.
    rewrite E in Hk. rewrite !elem_of_cons in Hk.
    destruct Hk as [-> | [-> | [-> | [-> | Hk]]]]; [| | | | inversion Hk];
      vm_compute in Ho; injection Ho as <-;
      (split; [vm_compute; reflexivity | vm_compute; discriminate]).
  - rewrite Hroot in Hrun, Hall. exists s'. split; [exact Hrun |].
    apply Hall. rewrite E, !elem_of_cons. tauto.
Defined.

Lemma determineHTMLTag_component_witness :
  exists p,
    parseNode namedComponents instanceNode [] = (inr p, [])
    /\ determineHTMLTag (data_of p) = "button".
Proof.
  eexists. split; [vm_compute; reflexivity |].
  destruct (determineHTMLTag_component namedComponents instanceNode [] [] _ "button"
              ltac:(vm_compute; reflexivity) eq_refl) as [_ H].
  cbn [In] in H.
  destruct H as [H | [H | [H | [H | [H | []]]]]]; try discriminate.
  exact (f_equal snd (eq_sym H)).
Defined.

Lemma determineHTMLTag_range_witness :
  In (determineHTMLTag headingText)
     ["input-email"; "input-password"; "input-text";
      "h1"; "h2"; "h3"; "h4"; "h5"; "h6"; "p"; "label"; "span"].
Proof. apply (proj2 (determineHTMLTag_range headingText)); reflexivity. Defined.

Lemma retryRequest_spec_witness :
  result (retryRequest thirdTimeLucky (fun _ => 1 # 2) 3) = inr "file"
  /\ calls (retryRequest thirdTimeLucky (fun _ => 1 # 2) 3) = 3%nat.
Proof.
  destruct (proj2 (retryRequest_spec thirdTimeLucky (fun _ => 1 # 2) 3))
    as (_ & _ & _ & H & _); [lia |].
  split; [rewrite H; reflexivity | reflexivity].
Defined.

Lemma retryRequest_backoff_witness :
  length (sleeps (retryRequest thirdTimeLucky (fun _ => 1 # 2) 3)) = 2%nat.
Proof.
  apply (retryRequest_backoff thirdTimeLucky (fun _ => 1 # 2) 3).
  intros j. split; [discriminate | reflexivity].
Defined.

Lemma sanitizeClassName_dashed_witness :
  sanitizeClassName "primary-button" = "primary-button".
Proof.
  apply (proj1 (proj2 (sanitizeClassName_dashed "primary-button"))). reflexivity.
Defined.

Lemma escapeHTML_safe_witness :
  occurs "<" (escapeHTML "a < b") = false.
Proof. apply (proj1 (escapeHTML_safe "a < b")). cbn. tauto. Defined.

End LaterExampleRuns.

(** ** The layout record of a detected flexbox *)

Section DetectedFlexFacts.
Import JS Parser.

Lemma crossAxisAlignItems_values (start size : BoundingBox -> Q) (pb : BoundingBox)
  (boxes : list BoundingBox) :
  In (crossAxisAlignItems start size pb boxes)
     ["center"; "flex-start"; "flex-end"; "stretch"].
Proof.
  unfold crossAxisAlignItems, decideAlignItems.
  repeat match goal with |- context [if ?c then _ else _] => destruct c end;
    cbn; tauto.
Qed.

Lemma justifyVertical_values (pb : BoundingBox) (boxes : list BoundingBox) :
  In (justifyVertical pb boxes) ["flex-start"; "center"; "flex-end"].
Proof.
  unfold justifyVertical. cbv zeta.
  repeat match goal with |- context [if ?c then _ else _] => destruct c end;
    cbn; tauto.
Qed.

Lemma justifyHorizontal_values (pb : BoundingBox) (boxes : list BoundingBox) (j : string) :
  justifyHorizontal pb boxes = Some j ->
  In j ["flex-start"; "center"; "flex-end"; "space-between"].
Proof.
  unfold justifyHorizontal. cbv zeta.
  repeat match goal with |- context [if ?c then _ else _] => destruct c end;
    intros [= <-] || discriminate; cbn; tauto.
Qed.

Lemma nonEmpty_value (v : string) (l : list string) :
  In v l -> Forall (fun s => s <> EmptyString) l -> nonEmpty (Some v) = Some v.
Proof.
  intros Hin Hall. rewrite List.Forall_forall in Hall. specialize (Hall v Hin).
  unfold nonEmpty. destruct v; [congruence | reflexivity].
Qed.

(** A flexbox that was detected, not declared, has all of its layout from
    the detection: the node has a box and two or more boxed children in a
    row or a column, and so the padding and [alignItems] are always found,
    and [justifyContent] is found in a column.  The [center] that
    [extractLayout] holds ready for a column without a detected [alignItems]
    is never used. *)
Theorem extractLayout_detected_flex (node : FigmaNode) :
  ~ declaresAutoLayout node -> determineLayoutStrategy node = Flexbox ->
  let l := extractLayout node in
  let children := childList node in
  let arrangement := detectChildArrangement children in
  let alignment := detectAlignment node children arrangement in
  is_Some (bbox_of node)
  /\ (2 <= length (childrenWithBounds children))%nat
  /\ arrangement <> complex_arr
  /\ flexDirection l
     = Some (match arrangement with horizontal_arr => row | _ => column end)
  /\ padding l = calculatePadding node children /\ is_Some (padding l)
  /\ alignItems l = a_alignItems alignment /\ is_Some (alignItems l)
  /\ justifyContent l = a_justifyContent alignment
  /\ (arrangement = vertical_arr -> is_Some (justifyContent l)).
Proof.
  intros Hnd Hd. cbv zeta.
  pose proof (detected_flexbox_children node Hnd Hd) as Hlen.
  assert (hasAutoLayout (fields_of node) = false) as Ha.
  { destruct (hasAutoLayout (fields_of node)) eqn:Ha; [| reflexivity].
    apply hasAutoLayout_declares in Ha. contradiction. }
  assert (is_Some (bbox_of node)
          /\ detectChildArrangement (childList node) <> complex_arr) as [Hbox Harr].
  { unfold determineLayoutStrategy in Hd. rewrite Ha in Hd.
    destruct (hasChildren node); cbn [andb] in Hd; [| discriminate].
    destruct (bool_decide (is_Some (bbox_of node))) eqn:Hb; [| discriminate].
    apply bool_decide_eq_true_1 in Hb. split; [exact Hb |].
    intros E. rewrite E in Hd. discriminate. }
  assert (2 <= length (childrenWithBounds (childList node)))%nat as Hboxed.
  { destruct (Nat.lt_ge_cases (length (childrenWithBounds (childList node))) 2)
      as [Hlt | Hge]; [| exact Hge].
    exfalso. apply Harr. unfold detectChildArrangement.
    apply Nat.ltb_lt in Hlt. now rewrite Hlt. }
  split; [exact Hbox |]. split; [exact Hboxed |]. split; [exact Harr |].
  unfold extractLayout. cbv zeta. rewrite Ha. cbn [strategy]. rewrite Hd.
  cbn [eq_strategy andb].
  assert ((1 <? length (childList node))%nat = true) as -> by (apply Nat.ltb_lt; lia).
  unfold detectedFlexLayout.
  cbn [flexDirection padding alignItems justifyContent].
  split; [reflexivity |]. split; [reflexivity |].
  destruct Hbox as [pb Hpb].
  destruct (childrenWithBounds (childList node)) as [| b rest] eqn:Hb;
    [cbn in Hboxed; lia |].
  split; [unfold calculatePadding; rewrite Hpb, Hb; eauto |].
  unfold detectAlignment. rewrite Hpb, Hb.
  destruct (detectChildArrangement (childList node)) eqn:Harr'; [| | congruence].
  - cbn [a_alignItems a_justifyContent].
    rewrite (nonEmpty_value _ _ (crossAxisAlignItems_values x width pb (b :: rest)))
      by (repeat constructor; discriminate).
    rewrite (nonEmpty_value _ _ (justifyVertical_values pb (b :: rest)))
      by (repeat constructor; discriminate).
    repeat split; eauto.
  - cbn [a_alignItems a_justifyContent].
    rewrite (nonEmpty_value _ _ (crossAxisAlignItems_values y height pb (b :: rest)))
      by (repeat constructor; discriminate).
    split; [reflexivity |]. split; [eauto |]. split; [| discriminate].
    destruct (justifyHorizontal pb (b :: rest)) as [j |] eqn:Hj; [| reflexivity].
    apply (nonEmpty_value _ _ (justifyHorizontal_values pb (b :: rest) j Hj)).
    repeat constructor; discriminate.
Qed.

Lemma extractLayout_detected_flex_witness :
  alignItems (extractLayout stackedFrame)
  = a_alignItems (detectAlignment stackedFrame (childList stackedFrame)
                    (detectChildArrangement (childList stackedFrame)))
  /\ is_Some (alignItems (extractLayout stackedFrame)).
Proof.
  destruct (extractLayout_detected_flex stackedFrame)
    as (_ & _ & _ & _ & _ & _ & H1 & H2 & _).
  - intros [H | H]; discriminate.
  - vm_compute. reflexivity.
  - split; [exact H1 | exact H2].
Defined.

End DetectedFlexFacts.

(** ** What the centring step leaves in the CSS *)

Section EngineFlexItem.
Import JS Parser LayoutEngine.
Variable numToString : Q -> string.

Local Ltac skip_key :=
  repeat first [ rewrite lookup_insert_ne by discriminate
               | rewrite lookup_delete_ne by discriminate ].

Local Ltac by_cases :=
  repeat first
    [ progress skip_key
    | match goal with
      | |- context [if ?c then _ else _] => destruct c
      | |- context [match ?o with Some _ => _ | None => _ end] => destruct o
      end ].

(** The names that only the centring step writes. *)
Lemma applyStrategy_itemKey (node : NodeData) (parentNode : option NodeData) (k : string) :
  itemKey k -> applyStrategy numToString node parentNode ∅ !! k = None.
Proof.
  intros Hk. unfold applyStrategy.
  destruct (effectiveStrategy node parentNode).
  - unfold applyAbsoluteLayout.
    destruct Hk as [-> | [-> | ->]]; by_cases; apply lookup_empty.
  - unfold applyFlexboxLayout, flexPadding, setIf.
    destruct Hk as [-> | [-> | ->]]; by_cases; apply lookup_empty.
  - unfold applyGridLayout, fourPadding, setIf.
    destruct Hk as [-> | [-> | ->]]; by_cases; apply lookup_empty.
  - unfold applyStaticLayout, fourPadding.
    destruct Hk as [-> | [-> | ->]]; by_cases; apply lookup_empty.
Qed.

Lemma applyWidth_itemKey (l : LayoutProperties) (css : CSSProperties) (k : string) :
  itemKey k -> applyWidth numToString l css !! k = css !! k.
Proof. intros [-> | [-> | ->]]; unfold applyWidth, setIf; now by_cases. Qed.

Lemma applyHeight_itemKey (l : LayoutProperties) (css : CSSProperties) (k : string) :
  itemKey k \/ k = "position" -> applyHeight numToString l css !! k = css !! k.
Proof.
  intros [[-> | [-> | ->]] | ->]; unfold applyHeight;
    destruct (l_height l) as [h |]; try reflexivity;
    destruct (gtb h 0); try reflexivity; destruct (strategy l); now skip_key.
Qed.

Lemma applyConstraints_itemKey (c : Constraints) (css : CSSProperties) (k : string) :
  itemKey k \/ k = "position" -> applyConstraints css c !! k = css !! k.
Proof.
  intros [[-> | [-> | ->]] | ->];
    unfold applyConstraints, applyVerticalConstraint, applyHorizontalConstraint, setIf;
    now by_cases.
Qed.

Lemma applyCentering_item (node : NodeData) (parentNode : option NodeData)
  (css : CSSProperties) :
  css !! "alignSelf" = None -> css !! "order" = None -> css !! "marginTop" = None ->
  let css' := applyCentering node parentNode css in
  (css' !! "alignSelf" = None \/ css' !! "alignSelf" = Some "center")
  /\ (is_Some (css' !! "alignSelf") ->
      exists parent, parentNode = Some parent
                     /\ strategy (layout parent) = Flexbox
                     /\ flexDirection (layout parent) = Some column)
  /\ ((css' !! "order" = Some "999" /\ css' !! "marginTop" = Some "auto"
       /\ css' !! "alignSelf" = Some "center" /\ css' !! "position" = None)
      \/ (css' !! "order" = None /\ css' !! "marginTop" = None)).
Proof.
  intros Ha Ho Hm. cbv zeta.
  assert (forall c0 : CSSProperties,
             c0 = css ->
             (c0 !! "alignSelf" = None \/ c0 !! "alignSelf" = Some "center")
             /\ (is_Some (c0 !! "alignSelf") ->
                 exists parent, parentNode = Some parent
                                /\ strategy (layout parent) = Flexbox
                                /\ flexDirection (layout parent) = Some column)
             /\ ((c0 !! "order" = Some "999" /\ c0 !! "marginTop" = Some "auto"
                  /\ c0 !! "alignSelf" = Some "center" /\ c0 !! "position" = None)
                 \/ (c0 !! "order" = None /\ c0 !! "marginTop" = None))) as Hsame.
  { intros c0 ->. rewrite Ha, Ho, Hm.
    split; [now left |]. split; [intros [? ?]; discriminate | now right]. }
  unfold applyCentering.
  destruct parentNode as [parent |]; [| now apply Hsame].
  destruct (position (layout node)) as [pos |]; [| now apply Hsame].
  destruct (position (layout parent)) as [ppos |]; [| now apply Hsame].
  destruct (_ && _ && _)%bool; [| now apply Hsame].
  cbv zeta.
  destruct (eq_strategy (strategy (layout parent)) Flexbox) eqn:Hp; cbn [andb].
  - assert (strategy (layout parent) = Flexbox) as Hflex
        by (destruct (strategy (layout parent)); cbn in Hp; congruence).
    destruct (flexDirection (layout parent)) as [[|] |] eqn:Hdir.
    + destruct (eq_strategy _ _ && _)%bool; skip_key; now apply Hsame.
    + assert (exists p0, Some parent = Some p0 /\ strategy (layout p0) = Flexbox
                         /\ flexDirection (layout p0) = Some column) as Hparent
          by (exists parent; auto).
      repeat match goal with
             | |- context [if ?c then _ else _] => destruct c
             end;
        skip_key; rewrite ?lookup_insert_eq, ?lookup_delete_eq; skip_key;
        rewrite ?lookup_insert_eq, ?Ha, ?Ho, ?Hm;
        (split; [tauto |]); (split; [intros _; exact Hparent || (intros [? ?]; discriminate) |]);
        tauto.
    + destruct (eq_strategy _ _ && _)%bool; skip_key; now apply Hsame.
  - destruct (eq_strategy _ _ && _)%bool; skip_key; now apply Hsame.
Qed.

(** [alignSelf], [order] and [marginTop] belong to the items of a flexbox
    column: [alignSelf] is [center] or absent, and present only where the
    parent is a Flexbox column; [order] and [marginTop] are written together,
    as [999] and [auto], or not at all, and with them the node has
    [alignSelf] at [center] and no [position]. *)
Theorem generateLayoutCSS_flex_item (node : NodeData) (parentNode : option NodeData) :
  let css := generateLayoutCSS numToString node parentNode in
  (css !! "alignSelf" = None \/ css !! "alignSelf" = Some "center")
  /\ (is_Some (css !! "alignSelf") ->
      exists parent, parentNode = Some parent
                     /\ strategy (layout parent) = Flexbox
                     /\ flexDirection (layout parent) = Some column)
  /\ ((css !! "order" = Some "999" /\ css !! "marginTop" = Some "auto"
       /\ css !! "alignSelf" = Some "center" /\ css !! "position" = None)
      \/ (css !! "order" = None /\ css !! "marginTop" = None)).
Proof.
  cbv zeta.
  assert (forall k, itemKey k ->
                    applyWidth numToString (layout node)
                      (applyStrategy numToString node parentNode ∅) !! k = None) as H0.
  { intros k Hk. rewrite applyWidth_itemKey by exact Hk. now apply applyStrategy_itemKey. }
  pose proof (applyCentering_item node parentNode _
                (H0 "alignSelf" ltac:(unfold itemKey; tauto))
                (H0 "order" ltac:(unfold itemKey; tauto))
                (H0 "marginTop" ltac:(unfold itemKey; tauto))) as Hc.
  cbv zeta in Hc. unfold generateLayoutCSS.
  set (c2 := applyCentering _ _ _) in *.
  destruct (l_constraints (layout node)) as [c |].
  - rewrite !applyConstraints_itemKey by (unfold itemKey; tauto).
    rewrite !applyHeight_itemKey by (unfold itemKey; tauto). exact Hc.
  - rewrite !applyHeight_itemKey by (unfold itemKey; tauto). exact Hc.
Qed.

End EngineFlexItem.

Section FlexItemExample.
Import JS Parser LayoutEngine.

Lemma generateLayoutCSS_flex_item_witness :
  exists parent,
    Some flexColumn = Some parent
    /\ strategy (layout parent) = Flexbox
    /\ flexDirection (layout parent) = Some column.
Proof.
  apply (proj1 (proj2 (generateLayoutCSS_flex_item showInteger absoluteBar
                         (Some flexColumn)))).
  vm_compute. eauto.
Defined.

End FlexItemExample.
